(** * Character tables of the symmetric groups: a model of [lib.h]

    The development embeds the three pieces of [class CharTable]
    (partition generation, border-strip enumeration and the memoised
    Murnaghan-Nakayama evaluator) and proves properties of them.

    Machine integers are kept as [Z] with their wrap-around written out:
    [size_t] is taken as an unsigned 64-bit integer and [int] as a signed
    32-bit integer in two's complement.  Reading a vector outside its bounds
    is undefined behaviour in the source and is the result [OutOfBounds]
    here: a read [l !! i] is one whose index the source does not check, a
    read [l !!! i] one whose index is below the size by a loop condition or
    a branch of the source.  The two unbounded loops of the source ([while]
    in [get_border_strips], recursion in [char_value]) take a fuel argument
    and give [OutOfFuel] when it is used up. *)

From Stdlib Require Import ZArith Lia.
From stdpp Require Import base list gmap.

Open Scope Z_scope.

(** ** Machine integers *)

(** [size_t]: arithmetic modulo 2^64. *)
Definition wrap_size (z : Z) : Z := z mod 2 ^ 64.

(** [int]: 32 bits, two's complement; also [static_cast<int>]. *)
Definition wrap_int (z : Z) : Z := (z + 2 ^ 31) mod 2 ^ 32 - 2 ^ 31.

(** ** Results of fallible, possibly non-terminating code *)

Inductive outcome (A : Type) : Type :=
| Ok (a : A)
| OutOfBounds
| OutOfFuel.

Arguments Ok {A} a.
Arguments OutOfBounds {A}.
Arguments OutOfFuel {A}.

#[global] Instance outcome_ret : MRet outcome := fun A a => Ok a.

#[global] Instance outcome_bind : MBind outcome := fun A B f x =>
  match x with
  | Ok a => f a
  | OutOfBounds => OutOfBounds
  | OutOfFuel => OutOfFuel
  end.

(** ** Data *)

(** [using Partition = std::vector<IndexType>] *)
Abbreviation Partition := (list Z).

Record PartitionWithoutBorderStrip : Type := mkPair {
  partition : Partition;
  border_strip : Partition
}.

(** [Sum], instantiated at [size_t]. *)
Definition Sum (vec : list Z) : Z :=
  foldl (fun result item => wrap_size (result + item)) 0 vec.

(** [MinusOnePow], instantiated at [size_t] (so [%] is the unsigned one). *)
Definition MinusOnePow (power : Z) : Z :=
  if power mod 2 =? 0 then 1 else -1.

(** [CharTable::correct_partition] *)
Definition correct_partition (lambda : Partition) : Partition :=
  filter (fun item => 0 < item) lambda.

(** ** The border-strip enumerator *)

(** The local variables of [get_border_strips]. *)
Record strip_state : Type := mkStrip {
  lambda : list Z;
  xi : list Z;
  row : nat;
  first_non_zero_row : nat;
  bs_length : Z;
  result : list PartitionWithoutBorderStrip
}.

(** The inner [while] of the down step.  It runs at most [length lambda]
    times, since [row] grows by one each time and stays below the size. *)
Fixpoint down_loop (k : nat) (lam : list Z) (prev_row : nat)
    (row : nat) (bs : Z) (xi : list Z) : nat * Z * list Z :=
  match k with
  | O => (row, bs, xi)
  | S k' =>
      if bool_decide (row < length lam)%nat
         && (lam !!! row =? lam !!! prev_row)
      then down_loop k' lam prev_row (S row) (wrap_int (bs - 1))
             (<[row := wrap_size (xi !!! row + 1)]> xi)
      else (row, bs, xi)
  end.

(** [for (index = prev_row; index < row; ++index) lambda[index] -= 1] *)
Definition dec_rows (prev_row row : nat) (lam : list Z) : list Z :=
  foldl (fun l index => <[index := wrap_size (l !!! index - 1)]> l)
        lam (seq prev_row (row - prev_row)).

(** [while (bs_length < 0)]: gives rows back from the top of the strip.
    Each turn reads [lambda[first_non_zero_row]], which is out of bounds
    once the index reaches the size; hence after [length lambda] turns the
    next one can only be out of bounds, and [k = length lambda] is exact. *)
Fixpoint refund_loop (k : nat) (lam xi : list Z) (fnz : nat) (bs : Z)
    : outcome (list Z * list Z * nat * Z) :=
  if bs <? 0 then
    match k with
    | O => OutOfBounds
    | S k' =>
        match lam !! fnz, xi !! fnz with
        | Some l, Some x =>
            refund_loop k' (<[fnz := wrap_size (l + x)]> lam)
              (<[fnz := 0]> xi) (S fnz) (wrap_int (bs + wrap_int x))
        | _, _ => OutOfBounds
        end
    end
  else Ok (lam, xi, fnz, bs).

(** What one turn of the outer loop does next. *)
Inductive turn : Type :=
| Continue (st : strip_state)
| Return (res : list PartitionWithoutBorderStrip)
| Crash.

(** [if (bs_length == 0) { result.push_back(...); ... }] *)
Definition emit (st : strip_state) : turn :=
  if bs_length st =? 0 then
    let fnz := first_non_zero_row st in
    match lambda st !! fnz, xi st !! fnz with
    | Some l, Some x =>
        let moved := bool_decide (row st = fnz) in
        Continue {|
          lambda := <[fnz := wrap_size (l + x)]> (lambda st);
          xi := <[fnz := 0]> (xi st);
          row := if moved then S (row st) else row st;
          first_non_zero_row := if moved then S fnz else fnz;
          bs_length := wrap_int (bs_length st + wrap_int x);
          result := result st ++ [mkPair (lambda st) (xi st)]
        |}
    | _, _ => Crash
    end
  else Continue st.

(** The body of the outer [while]; the caller has checked
    [bs_length > 0 and row < lambda.size()]. *)
Definition strip_turn (st : strip_state) : turn :=
  let lam := lambda st in
  let r := row st in
  if bool_decide (S r = length lam) then
    (* last left step *)
    let step := Z.min (bs_length st) (wrap_int (lam !!! r)) in
    let bs := wrap_int (bs_length st - step) in
    if 0 <? bs then Return (result st)
    else emit {|
      lambda := <[r := wrap_size (lam !!! r - step)]> lam;
      xi := <[r := wrap_size (xi st !!! r + step)]> (xi st);
      row := r;
      first_non_zero_row := first_non_zero_row st;
      bs_length := bs;
      result := result st |}
  else if lam !!! S r <? lam !!! r then
    (* left step *)
    let step := Z.min (bs_length st)
                  (wrap_int (wrap_size (lam !!! r - lam !!! S r))) in
    emit {|
      lambda := <[r := wrap_size (lam !!! r - step)]> lam;
      xi := <[r := wrap_size (xi st !!! r + step)]> (xi st);
      row := r;
      first_non_zero_row := first_non_zero_row st;
      bs_length := wrap_int (bs_length st - step);
      result := result st |}
  else
    (* down step *)
    let '(row1, bs1, xi1) :=
      down_loop (length lam) lam r r (bs_length st) (xi st) in
    let lam1 := dec_rows r row1 lam in
    match refund_loop (length lam) lam1 xi1 (first_non_zero_row st) bs1 with
    | Ok (lam2, xi2, fnz2, bs2) =>
        emit {|
          lambda := lam2;
          xi := xi2;
          row := Nat.pred row1;
          first_non_zero_row := fnz2;
          bs_length := bs2;
          result := result st |}
    | _ => Crash
    end.

(** The outer [while (bs_length > 0 and row < lambda.size())]. *)
Fixpoint strip_loop (fuel : nat) (st : strip_state)
    : outcome (list PartitionWithoutBorderStrip) :=
  if (0 <? bs_length st) && bool_decide (row st < length (lambda st))%nat then
    match fuel with
    | O => OutOfFuel
    | S fuel' =>
        match strip_turn st with
        | Continue st' => strip_loop fuel' st'
        | Return res => Ok res
        | Crash => OutOfBounds
        end
    end
  else Ok (result st).

(** [CharTable::get_border_strips]; [bs_length] is an [int]. *)
Definition get_border_strips (fuel : nat) (lam : Partition) (bs_length : Z)
    : outcome (list PartitionWithoutBorderStrip) :=
  strip_loop fuel {|
    lambda := lam;
    xi := replicate (length lam) 0;
    row := 0;
    first_non_zero_row := 0;
    bs_length := bs_length;
    result := [] |}.

(** ** The partition generator *)

(** [std::sort(v.rbegin(), v.rend())]: the vector in non-increasing order. *)
Fixpoint insert_desc (x : Z) (l : list Z) : list Z :=
  match l with
  | [] => [x]
  | y :: l' => if y <? x then x :: l else y :: insert_desc x l'
  end.

Definition sort_desc (l : list Z) : list Z := foldr insert_desc [] l.

(** [std::unique] followed by [erase]: every run of equal neighbours is
    reduced to one element; elements that are not neighbours are kept. *)
Fixpoint unique (l : list Partition) : list Partition :=
  match l with
  | [] => []
  | x :: l' =>
      match l' with
      | [] => [x]
      | y :: _ => if decide (x = y) then unique l' else x :: unique l'
      end
  end.

(** The class [CharTable]: its two data members. *)
Record CharTable : Type := mkCharTable {
  character_values : gmap (list Z) (gmap (list Z) Z);
  partitions : list (list Partition)
}.

(** A freshly constructed object: [partitions = {{{}}, {{1,}}}]. *)
Definition new_CharTable : CharTable :=
  {| character_values := ∅; partitions := [[[]]; [[1]]] |}.

(** The body of the [for (num ...)] loop: the candidates for [num]. *)
Definition partitions_of_num (parts : list (list Partition)) (num : nat)
    : list Partition :=
  unique
    (flat_map
       (fun index =>
          map (fun partition =>
                 sort_desc
                   (partition ++ [wrap_size (Z.of_nat num - Z.of_nat index)]))
              (parts !!! index))
       (seq 0 num)).

(** [k] turns of [for (num = partitions.size(); num < n + 1; ++num)]. *)
Fixpoint extend_partitions (k : nat) (parts : list (list Partition))
    : list (list Partition) :=
  match k with
  | O => parts
  | S k' =>
      extend_partitions k'
        (parts ++ [partitions_of_num parts (length parts)])
  end.

(** [CharTable::calculate_partitions]; [n + 1] is computed in [size_t]. *)
Definition calculate_partitions (n : nat) (ct : CharTable)
    : outcome (list Partition * CharTable) :=
  let bound := Z.to_nat (wrap_size (Z.of_nat n + 1)) in
  let parts :=
    extend_partitions (bound - length (partitions ct)) (partitions ct) in
  match parts !! n with
  | Some ps =>
      Ok (ps, {| character_values := character_values ct;
                 partitions := parts |})
  | None => OutOfBounds
  end.

(** ** The character evaluator *)

(** [character_values[lambda]]: [operator[]] creates an empty row when the
    key is missing. *)
Definition cache_row (lam : Partition) (ct : CharTable) : gmap (list Z) Z :=
  default ∅ (character_values ct !! lam).

Definition touch_row (lam : Partition) (ct : CharTable) : CharTable :=
  {| character_values := <[lam := cache_row lam ct]> (character_values ct);
     partitions := partitions ct |}.

(** [character_values[lambda][rho] = result] *)
Definition store_value (lam rho : Partition) (value : Z) (ct : CharTable)
    : CharTable :=
  {| character_values :=
       <[lam := <[rho := value]> (cache_row lam ct)]> (character_values ct);
     partitions := partitions ct |}.

(** The [for (const auto &pair: border_strips)] loop of [char_value];
    [rec] is the recursive call. *)
Fixpoint sum_strips
    (rec : Partition -> Partition -> CharTable -> outcome (Z * CharTable))
    (tail : Partition) (border_strips : list PartitionWithoutBorderStrip)
    (result : Z) (ct : CharTable) : outcome (Z * CharTable) :=
  match border_strips with
  | [] => Ok (result, ct)
  | strip :: rest =>
      let sub := correct_partition (partition strip) in
      let xi := correct_partition (border_strip strip) in
      '(value, ct') ← rec sub tail ct;
      let sign := MinusOnePow (wrap_size (Z.of_nat (length xi) - 1)) in
      sum_strips rec tail rest
        (wrap_int (result + wrap_int (sign * value))) ct'
  end.

(** [CharTable::char_value].  [lfuel] bounds the loop of the border-strip
    enumerator, [fuel] the depth of the recursion. *)
Fixpoint char_value (lfuel fuel : nat) (lam rho : Partition) (ct : CharTable)
    : outcome (Z * CharTable) :=
  match fuel with
  | O => OutOfFuel
  | S fuel' =>
      let lam := correct_partition lam in
      let rho := correct_partition rho in
      if Sum lam <? 2 then Ok (1, ct)
      else
        let ct := touch_row lam ct in
        match cache_row lam ct !! rho with
        | Some value => Ok (value, ct)
        | None =>
            match rho with
            | [] => OutOfBounds
            | rho0 :: tail =>
                border_strips ← get_border_strips lfuel lam (wrap_int rho0);
                '(result, ct) ←
                  sum_strips (char_value lfuel fuel') tail border_strips 0 ct;
                Ok (result, store_value lam rho result ct)
            end
        end
  end.

(** ** The table builder *)

Fixpoint table_row (lfuel fuel : nat) (lam : Partition)
    (rhos : list Partition) (ct : CharTable) : outcome (list Z * CharTable) :=
  match rhos with
  | [] => Ok ([], ct)
  | rho :: rest =>
      '(cv, ct) ← char_value lfuel fuel lam rho ct;
      '(cvs, ct) ← table_row lfuel fuel lam rest ct;
      Ok (cv :: cvs, ct)
  end.

Fixpoint table_rows (lfuel fuel : nat) (lams rhos : list Partition)
    (ct : CharTable) : outcome (list (list Z) * CharTable) :=
  match lams with
  | [] => Ok ([], ct)
  | lam :: rest =>
      '(r, ct) ← table_row lfuel fuel lam rhos ct;
      '(rs, ct) ← table_rows lfuel fuel rest rhos ct;
      Ok (r :: rs, ct)
  end.

(** [CharTable::character_table] *)
Definition character_table (lfuel fuel : nat) (n : nat) (ct : CharTable)
    : outcome (list (list Z) * CharTable) :=
  '(partitions_for_n, ct) ← calculate_partitions n ct;
  table_rows lfuel fuel partitions_for_n partitions_for_n ct.

(** ** Notions used in the statements *)

(** The exact sum of the entries, with no wrap-around. *)
Definition total (l : list Z) : Z := foldr Z.add 0 l.

Arguments total : simpl never.

Definition positive_parts (l : list Z) : Prop := Forall (fun x => 0 < x) l.

Definition non_increasing (l : list Z) : Prop :=
  forall i : nat, (S i < length l)%nat -> l !!! S i <= l !!! i.

(** A partition as the evaluator sees it after normalisation, with a size
    that an [int] can hold. *)
Definition int_partition (l : list Z) : Prop :=
  positive_parts l /\ non_increasing l /\ total l < 2 ^ 31.

(** The number of partitions of [n] into parts of size at most [k]. *)
Fixpoint count_parts (k n : nat) : nat :=
  match k with
  | O => if decide (n = O) then 1%nat else 0%nat
  | S k' =>
      foldr Nat.add 0%nat
        (map (fun j => count_parts k' (n - j * S k')) (seq 0 (n / S k' + 1)))
  end.

(** The partition-counting sequence p(n). *)
Definition partition_number (n : nat) : nat := count_parts n n.

(** *** Young diagrams *)

(** Cells are (row, column), both counted from 0.  The strip [strip] removed
    from a diagram and leaving [sub] holds, in row [r], the [strip !!! r]
    cells that follow the [sub !!! r] remaining ones. *)
Definition in_strip (sub strip : list Z) (cell : nat * Z) : Prop :=
  (cell.1 < length strip)%nat /\
  sub !!! cell.1 <= cell.2 < sub !!! cell.1 + strip !!! cell.1.

(** Two cells that share an edge. *)
Definition adjacent (p q : nat * Z) : Prop :=
  (p.1 = q.1 /\ (p.2 = q.2 + 1 \/ q.2 = p.2 + 1)) \/
  (p.2 = q.2 /\ (p.1 = S q.1 \/ q.1 = S p.1)).

Definition strip_link (sub strip : list Z) (p q : nat * Z) : Prop :=
  in_strip sub strip p /\ in_strip sub strip q /\ adjacent p q.

(** Any two cells of the strip are joined by a path inside the strip. *)
Definition connected (sub strip : list Z) : Prop :=
  forall p q, in_strip sub strip p -> in_strip sub strip q ->
    rtc (strip_link sub strip) p q.

Definition no_2x2 (sub strip : list Z) : Prop :=
  forall (r : nat) (c : Z),
    ~ (in_strip sub strip (r, c) /\ in_strip sub strip (r, c + 1) /\
       in_strip sub strip (S r, c) /\ in_strip sub strip (S r, c + 1)).

(** What the enumerator promises about a pair it returns for the diagram
    [lam] and the strip length [m]. *)
Definition border_strip_of (lam : list Z) (m : Z)
    (p : PartitionWithoutBorderStrip) : Prop :=
  length (partition p) = length lam /\
  length (border_strip p) = length lam /\
  Forall (fun x => 0 <= x) (partition p) /\
  Forall (fun x => 0 <= x) (border_strip p) /\
  zip_with Z.add (partition p) (border_strip p) = lam /\
  total (border_strip p) = m /\
  positive_parts (correct_partition (partition p)) /\
  non_increasing (correct_partition (partition p)) /\
  connected (partition p) (border_strip p) /\
  no_2x2 (partition p) (border_strip p).

(** *** The loop invariant of the enumerator *)

(** A pair described row by row: the strip lies in the rows [a .. b], takes
    the whole overhang of each row but the last, and at least one cell of
    the last. *)
Definition good_pair (L : list Z) (m : Z)
    (p : PartitionWithoutBorderStrip) : Prop :=
  length (partition p) = length L /\
  length (border_strip p) = length L /\
  (forall i : nat, (i < length L)%nat ->
     partition p !!! i + border_strip p !!! i = L !!! i /\
     0 <= partition p !!! i /\ 0 <= border_strip p !!! i) /\
  total (border_strip p) = m /\
  exists a b : nat,
    (a <= b < length L)%nat /\
    (forall i : nat, (a <= i <= b)%nat -> 1 <= border_strip p !!! i) /\
    (forall i : nat, (i < a \/ b < i)%nat -> (i < length L)%nat ->
       border_strip p !!! i = 0) /\
    (forall i : nat, (a <= i < b)%nat -> partition p !!! i + 1 = L !!! S i) /\
    ((S b < length L)%nat -> L !!! S b <= partition p !!! b).

(** The state of the sweep, with a budget that may be overdrawn. *)
Record strip_shape (L : list Z) (m : Z) (st : strip_state) : Prop := {
  shape_len_lambda : length (lambda st) = length L;
  shape_len_xi : length (xi st) = length L;
  shape_rows : (first_non_zero_row st <= row st)%nat;
  shape_sum : forall i : nat, (i < length L)%nat ->
    lambda st !!! i + xi st !!! i = L !!! i /\
    0 <= lambda st !!! i /\ 0 <= xi st !!! i;
  shape_outside : forall i : nat,
    (i < first_non_zero_row st \/ row st < i)%nat -> (i < length L)%nat ->
    xi st !!! i = 0;
  shape_inside : forall i : nat,
    (first_non_zero_row st < i < row st)%nat ->
    lambda st !!! i + 1 = L !!! S i;
  shape_top : (first_non_zero_row st < row st)%nat ->
    xi st !!! first_non_zero_row st = 0 \/
    lambda st !!! first_non_zero_row st + 1 = L !!! S (first_non_zero_row st);
  shape_head : (S (row st) < length L)%nat ->
    L !!! S (row st) <= lambda st !!! row st;
  shape_head_xi : (first_non_zero_row st < row st)%nat ->
    1 <= xi st !!! row st;
  shape_budget : bs_length st + total (xi st) = m;
  shape_result : Forall (good_pair L m) (result st)
}.

(** The invariant at the head of the outer loop. *)
Definition strip_inv (L : list Z) (m : Z) (st : strip_state) : Prop :=
  strip_shape L m st /\ 0 <= bs_length st /\ (row st <= length L)%nat.

(** The variant of the outer loop. *)
Definition strip_measure (L : list Z) (st : strip_state) : Z :=
  default 0 (lambda st !! row st) + total (drop (S (row st)) L)
  + Z.of_nat (length L - row st).

(** Fuel that is enough for the enumerator on [lam]. *)
Definition strip_fuel (lam : list Z) : nat :=
  S (Z.to_nat (total lam) + length lam).

(** What one turn of the outer loop does: it returns the result as it is,
    or it moves to a state of smaller variant, with the same result, and
    ends with [emit]. *)
Definition turn_from (L : list Z) (m : Z) (st : strip_state) (t : turn)
    : Prop :=
  t = Return (result st) \/
  exists st1,
    t = emit st1 /\ strip_inv L m st1 /\ (row st1 < length L)%nat /\
    strip_measure L st1 < strip_measure L st /\ result st1 = result st.

(** The last row of a strip that holds a cell. *)
Definition last_row (strip : list Z) (r : nat) : Prop :=
  (r < length strip)%nat /\ 1 <= strip !!! r /\
  forall i : nat, (r < i < length strip)%nat -> strip !!! i = 0.

(** The variant of the outer loop in the state in which the pair [p], with
    the last row [r], is pushed. *)
Definition pair_measure (L : list Z) (p : PartitionWithoutBorderStrip)
    (r : nat) : Z :=
  default 0 (partition p !! r) + total (drop (S r) L)
  + Z.of_nat (length L - r).

(** The pair [p] was pushed in a state whose variant was not below the one
    of [st]. *)
Definition pushed_before (L : list Z) (st : strip_state)
    (p : PartitionWithoutBorderStrip) : Prop :=
  exists r : nat,
    last_row (border_strip p) r /\ strip_measure L st <= pair_measure L p r.

(** *** The state of a [CharTable] *)

(** The value stored for the key ([lam], [rho]), if any. *)
Definition cached (ct : CharTable) (lam rho : Partition) : option Z :=
  character_values ct !! lam ≫= fun inner => inner !! rho.

(** Every stored partition has positive parts only. *)
Definition all_positive (ct : CharTable) : Prop :=
  (forall lam inner, character_values ct !! lam = Some inner ->
     positive_parts lam /\
     forall rho v, inner !! rho = Some v -> positive_parts rho) /\
  Forall (Forall positive_parts) (partitions ct).

(** Entry [k] of the partition table holds partitions of [k] only. *)
Definition partitions_wf (parts : list (list Partition)) : Prop :=
  forall (k : nat) ps, parts !! k = Some ps ->
    Forall (fun p => positive_parts p /\ non_increasing p /\
                     total p = Z.of_nat k) ps.

(** Entry [k] of the partition table holds every partition of [k]. *)
Definition partitions_full (parts : list (list Partition)) : Prop :=
  forall (k : nat) ps mu, parts !! k = Some ps ->
    positive_parts mu -> non_increasing mu -> total mu = Z.of_nat k ->
    mu ∈ ps.

(** The keys of the cache: a row is only created for a [lambda] of sum at
    least 2, and a value is only stored under a non-empty [rho]. *)
Definition cache_keys_ok (ct : CharTable) : Prop :=
  forall lam inner, character_values ct !! lam = Some inner ->
    2 <= Sum lam /\ forall rho v, inner !! rho = Some v -> rho <> [].

(** The states an object can be in: freshly constructed, or after a call
    of one of its three member functions has returned. *)
Inductive reachable : CharTable -> Prop :=
| reach_new : reachable new_CharTable
| reach_char_value ct lfuel fuel lam rho v ct' :
    reachable ct ->
    char_value lfuel fuel lam rho ct = Ok (v, ct') ->
    reachable ct'
| reach_character_table ct lfuel fuel n table ct' :
    reachable ct ->
    character_table lfuel fuel n ct = Ok (table, ct') ->
    reachable ct'
| reach_calculate_partitions ct n ps ct' :
    reachable ct ->
    calculate_partitions n ct = Ok (ps, ct') ->
    reachable ct'.

(** The Murnaghan-Nakayama recursion of [char_value] with the cache left
    out; the cache is sound when it agrees with it. *)
Fixpoint chi_sum (rec : Partition -> Partition -> outcome Z)
    (tail : Partition) (border_strips : list PartitionWithoutBorderStrip)
    (result : Z) : outcome Z :=
  match border_strips with
  | [] => Ok result
  | strip :: rest =>
      let sub := correct_partition (partition strip) in
      let xi := correct_partition (border_strip strip) in
      value ← rec sub tail;
      let sign := MinusOnePow (wrap_size (Z.of_nat (length xi) - 1)) in
      chi_sum rec tail rest (wrap_int (result + wrap_int (sign * value)))
  end.

Fixpoint chi (lfuel fuel : nat) (lam rho : Partition) : outcome Z :=
  match fuel with
  | O => OutOfFuel
  | S fuel' =>
      let lam := correct_partition lam in
      let rho := correct_partition rho in
      if Sum lam <? 2 then Ok 1
      else
        match rho with
        | [] => OutOfBounds
        | rho0 :: tail =>
            border_strips ← get_border_strips lfuel lam (wrap_int rho0);
            chi_sum (chi lfuel fuel') tail border_strips 0
        end
  end.

Definition cache_sound (ct : CharTable) : Prop :=
  forall lam rho v, cached ct lam rho = Some v ->
    lam = correct_partition lam /\ rho = correct_partition rho /\
    exists lfuel fuel, chi lfuel fuel lam rho = Ok v.

(** [ct'] holds every value that [ct] holds. *)
Definition cache_le (ct ct' : CharTable) : Prop :=
  forall lam rho v, cached ct lam rho = Some v -> cached ct' lam rho = Some v.

(** The value of the entry ([lam], [rho]) is fixed in [ct]: it is a base
    case, or it is in the cache. *)
Definition settled (ct : CharTable) (lam rho : Partition) (v : Z) : Prop :=
  if Sum (correct_partition lam) <? 2 then v = 1
  else cached ct (correct_partition lam) (correct_partition rho) = Some v.

(** *** The calls that [char_value] makes *)

(** One call of [char_value] made from inside [char_value]: the normalised
    arguments of the caller, and the arguments that are passed. *)
Record call : Type := mkCall {
  caller_lambda : Partition;
  caller_rho : Partition;
  callee_lambda : Partition;
  callee_rho : Partition
}.

(** [char_value] with a ghost log of the calls made during the run, nested
    ones included, in the order they are made; the log is kept when the run
    fails.  The first component is what [char_value] computes. *)
Fixpoint sum_strips_log
    (rec : Partition -> Partition -> CharTable ->
           outcome (Z * CharTable) * list call)
    (lam rho tail : Partition)
    (border_strips : list PartitionWithoutBorderStrip)
    (result : Z) (ct : CharTable) : outcome (Z * CharTable) * list call :=
  match border_strips with
  | [] => (Ok (result, ct), [])
  | strip :: rest =>
      let sub := correct_partition (partition strip) in
      let xi := correct_partition (border_strip strip) in
      let this := mkCall lam rho sub tail in
      match rec sub tail ct with
      | (Ok (value, ct'), log1) =>
          let sign := MinusOnePow (wrap_size (Z.of_nat (length xi) - 1)) in
          let '(r, log2) :=
            sum_strips_log rec lam rho tail rest
              (wrap_int (result + wrap_int (sign * value))) ct' in
          (r, this :: log1 ++ log2)
      | (OutOfBounds, log1) => (OutOfBounds, this :: log1)
      | (OutOfFuel, log1) => (OutOfFuel, this :: log1)
      end
  end.

Fixpoint char_value_log (lfuel fuel : nat) (lam rho : Partition)
    (ct : CharTable) : outcome (Z * CharTable) * list call :=
  match fuel with
  | O => (OutOfFuel, [])
  | S fuel' =>
      let lam := correct_partition lam in
      let rho := correct_partition rho in
      if Sum lam <? 2 then (Ok (1, ct), [])
      else
        let ct := touch_row lam ct in
        match cache_row lam ct !! rho with
        | Some value => (Ok (value, ct), [])
        | None =>
            match rho with
            | [] => (OutOfBounds, [])
            | rho0 :: tail =>
                match get_border_strips lfuel lam (wrap_int rho0) with
                | Ok border_strips =>
                    match sum_strips_log (char_value_log lfuel fuel')
                            lam rho tail border_strips 0 ct with
                    | (Ok (result, ct), log) =>
                        (Ok (result, store_value lam rho result ct), log)
                    | (OutOfBounds, log) => (OutOfBounds, log)
                    | (OutOfFuel, log) => (OutOfFuel, log)
                    end
                | OutOfBounds => (OutOfBounds, [])
                | OutOfFuel => (OutOfFuel, [])
                end
            end
        end
  end.

(** What holds of a logged call below a top-level [lambda] of sum [bound]:
    the caller's [rho] is [rho0] followed by the [rho] passed on, with
    [rho0 >= 1]; the partition passed on has the sum of the caller's
    [lambda] minus [rho0] (as an [int]), which is strictly less; and the
    caller's sum is at most [bound]. *)
Definition call_decreases (bound : Z) (c : call) : Prop :=
  exists rho0 : Z,
    caller_rho c = rho0 :: callee_rho c /\ 1 <= rho0 /\
    Sum (correct_partition (callee_lambda c))
    = Sum (caller_lambda c) - wrap_int rho0 /\
    Sum (correct_partition (callee_lambda c)) < Sum (caller_lambda c) /\
    Sum (caller_lambda c) <= bound.

(** The sign of a permutation of cycle type [rho]. *)
Definition sign_of (rho : list Z) : Z :=
  foldr (fun part acc => (-1) ^ (part - 1) * acc) 1 rho.

(** * Theorems *)

(** ** Machine arithmetic within range *)

Lemma wrap_size_small z : 0 <= z < 2 ^ 64 -> wrap_size z = z.
Proof. intros H. unfold wrap_size. apply Z.mod_small. lia. Qed.

Lemma wrap_int_small z : - 2 ^ 31 <= z < 2 ^ 31 -> wrap_int z = z.
Proof. intros H. unfold wrap_int. rewrite Z.mod_small; lia. Qed.

Lemma wrap_int_range z : - 2 ^ 31 <= wrap_int z < 2 ^ 31.
Proof.
  unfold wrap_int.
  pose proof (Z.mod_pos_bound (z + 2 ^ 31) (2 ^ 32) ltac:(lia)). lia.
Qed.

(** ** Exact sums *)

Lemma total_cons x l : total (x :: l) = x + total l.
Proof. reflexivity. Qed.

Lemma total_app l1 l2 : total (l1 ++ l2) = total l1 + total l2.
Proof.
  induction l1 as [|x l1 IH]; [done|].
  change (total (x :: (l1 ++ l2)) = total (x :: l1) + total l2).
  rewrite !total_cons, IH. lia.
Qed.

Lemma total_nonneg l :
  (forall i : nat, (i < length l)%nat -> 0 <= l !!! i) -> 0 <= total l.
Proof.
  induction l as [|x l IH]; intros H; [done|].
  rewrite total_cons.
  pose proof (H 0%nat ltac:(simpl; lia)) as H0. simpl in H0.
  assert (0 <= total l); [|lia].
  apply IH. intros i Hi. apply (H (S i)). simpl. lia.
Qed.

Lemma total_insert l (i : nat) v :
  (i < length l)%nat -> total (<[i := v]> l) = total l - l !!! i + v.
Proof.
  revert i. induction l as [|x l IH]; intros i Hi; simpl in Hi; [lia|].
  destruct i as [|i]; simpl.
  - rewrite !total_cons. lia.
  - rewrite !total_cons, IH by lia. change ((x :: l) !!! S i) with (l !!! i). lia.
Qed.

Lemma total_lookup_le l (i : nat) :
  (forall j : nat, (j < length l)%nat -> 0 <= l !!! j) ->
  (i < length l)%nat -> l !!! i <= total l.
Proof.
  revert i. induction l as [|x l IH]; intros i H Hi; simpl in Hi; [lia|].
  rewrite total_cons.
  assert (Hl : forall j : nat, (j < length l)%nat -> 0 <= l !!! j).
  { intros j Hj. apply (H (S j)). simpl. lia. }
  pose proof (H 0%nat ltac:(simpl; lia)) as H0. simpl in H0.
  destruct i as [|i].
  - simpl. pose proof (total_nonneg l Hl). lia.
  - change ((x :: l) !!! S i) with (l !!! i).
    pose proof (IH i Hl ltac:(lia)). lia.
Qed.

Lemma total_le l1 l2 :
  length l1 = length l2 ->
  (forall i : nat, (i < length l1)%nat -> l1 !!! i <= l2 !!! i) ->
  total l1 <= total l2.
Proof.
  revert l2. induction l1 as [|x l1 IH]; intros [|y l2] Hlen H;
    simpl in Hlen; try lia.
  rewrite !total_cons.
  pose proof (H 0%nat ltac:(simpl; lia)) as H0. simpl in H0.
  assert (total l1 <= total l2); [|lia].
  apply IH; [lia|]. intros i Hi. apply (H (S i)). simpl. lia.
Qed.

Lemma total_drop l (i : nat) :
  (i < length l)%nat -> total (drop i l) = l !!! i + total (drop (S i) l).
Proof.
  revert i. induction l as [|x l IH]; intros i Hi; simpl in Hi; [lia|].
  destruct i as [|i]; simpl.
  - rewrite drop_0. reflexivity.
  - change ((x :: l) !!! S i) with (l !!! i). apply IH. lia.
Qed.

Lemma total_drop_ge l (i : nat) : (length l <= i)%nat -> total (drop i l) = 0.
Proof. intros H. rewrite drop_ge by lia. reflexivity. Qed.

Lemma total_single l (r : nat) :
  (forall i : nat, (i < length l)%nat -> i <> r -> l !!! i = 0) ->
  (r < length l)%nat -> total l = l !!! r.
Proof.
  revert r. induction l as [|x l IH]; intros r H Hr; simpl in Hr; [lia|].
  rewrite total_cons. destruct r as [|r].
  - simpl. assert (total l = 0); [|lia].
    assert (Hl : forall i : nat, (i < length l)%nat -> l !!! i = 0).
    { intros i Hi. apply (H (S i)); simpl; lia. }
    clear -Hl. induction l as [|y l IH]; [done|].
    rewrite total_cons, IH.
    + pose proof (Hl 0%nat ltac:(simpl; lia)) as H0. simpl in H0. lia.
    + intros i Hi. apply (Hl (S i)). simpl. lia.
  - change ((x :: l) !!! S r) with (l !!! r).
    pose proof (H 0%nat ltac:(simpl; lia) ltac:(lia)) as H0. simpl in H0.
    rewrite <- (IH r); [lia| |lia].
    intros i Hi Hne. apply (H (S i)); simpl; lia.
Qed.

Lemma total_replicate_0 (n : nat) : total (replicate n 0) = 0.
Proof. induction n as [|n IH]; simpl; [done|]. rewrite total_cons. lia. Qed.

Lemma total_zip_add l1 l2 :
  length l1 = length l2 ->
  total (zip_with Z.add l1 l2) = total l1 + total l2.
Proof.
  revert l2. induction l1 as [|x l1 IH]; intros [|y l2] H; simpl in H;
    try lia; [done|].
  simpl. rewrite !total_cons, IH by lia. lia.
Qed.

Lemma positive_parts_lookup l (i : nat) :
  positive_parts l -> (i < length l)%nat -> 0 < l !!! i.
Proof.
  intros H Hi. unfold positive_parts in H. rewrite Forall_lookup in H.
  apply (H i). apply list_lookup_lookup_total_lt. done.
Qed.

Lemma length_le_total l : positive_parts l -> Z.of_nat (length l) <= total l.
Proof.
  induction 1 as [|x l Hx Hl IH]; [done|].
  rewrite total_cons. simpl length. lia.
Qed.

Lemma Sum_total_from acc l :
  (forall i : nat, (i < length l)%nat -> 0 <= l !!! i) ->
  0 <= acc -> acc + total l < 2 ^ 64 ->
  foldl (fun result item => wrap_size (result + item)) acc l = acc + total l.
Proof.
  revert acc. induction l as [|x l IH]; intros acc H Hacc Hlt.
  - simpl. unfold total. simpl. lia.
  - rewrite total_cons in Hlt |- *.
    assert (Hl : forall j : nat, (j < length l)%nat -> 0 <= l !!! j).
    { intros j Hj. apply (H (S j)). simpl. lia. }
    pose proof (H 0%nat ltac:(simpl; lia)) as H0. simpl in H0.
    pose proof (total_nonneg l Hl).
    simpl. rewrite wrap_size_small by lia.
    rewrite IH; [lia|done|lia|lia].
Qed.

Lemma Sum_total l :
  (forall i : nat, (i < length l)%nat -> 0 <= l !!! i) ->
  total l < 2 ^ 64 -> Sum l = total l.
Proof. intros H Hlt. unfold Sum. rewrite Sum_total_from; [lia|done|lia|lia]. Qed.

(** ** The enumerator on a partition with positive parts *)

Lemma lookup_lookup_total (l : list Z) (i : nat) :
  (i < length l)%nat -> l !! i = Some (l !!! i).
Proof. apply list_lookup_lookup_total_lt. Qed.

(** The inner loop of the down step walks to the end of the run of rows
    equal to the row it starts from, and takes one cell from each. *)
Lemma down_loop_spec (k : nat) (lam : list Z) (prev row : nat) (bs : Z)
    (xi : list Z) :
  length xi = length lam ->
  (length lam <= row + k)%nat ->
  (row <= length lam)%nat ->
  - 2 ^ 31 + Z.of_nat (length lam - row) <= bs < 2 ^ 31 ->
  (forall i : nat, (row <= i < length lam)%nat -> 0 <= xi !!! i < 2 ^ 63) ->
  exists (row1 : nat) (xi1 : list Z),
    down_loop k lam prev row bs xi = (row1, bs - Z.of_nat (row1 - row), xi1) /\
    (row <= row1 <= length lam)%nat /\
    (forall i : nat, (row <= i < row1)%nat -> lam !!! i = lam !!! prev) /\
    ((row1 < length lam)%nat -> lam !!! row1 <> lam !!! prev) /\
    length xi1 = length xi /\
    (forall i : nat, (i < length lam)%nat ->
       xi1 !!! i
       = xi !!! i + (if decide (row <= i < row1)%nat then 1 else 0)) /\
    total xi1 = total xi + Z.of_nat (row1 - row).
Proof.
  revert row bs xi. induction k as [|k IH]; intros row bs xi Hlen Hk Hrow Hbs Hxi.
  - exists row, xi. simpl. replace (row - row)%nat with 0%nat by lia.
    split; [f_equal; f_equal; lia|]. split; [lia|].
    split; [intros; lia|]. split; [intros; lia|]. split; [done|].
    split; [|lia]. intros i Hi. case_decide; lia.
  - simpl. case_bool_decide as Hlt; simpl.
    + destruct (Z.eqb_spec (lam !!! row) (lam !!! prev)) as [Heq|Hne].
      * pose proof (Hxi row ltac:(lia)) as Hx.
        rewrite (wrap_int_small (bs - 1)) by lia.
        rewrite (wrap_size_small (xi !!! row + 1)) by lia.
        destruct (IH (S row) (bs - 1) (<[row := xi !!! row + 1]> xi))
          as (row1 & xi1 & -> & Hr1 & Hrun & Hmax & Hlen1 & Hpt & Htot).
        { rewrite length_insert. done. }
        { lia. }
        { lia. }
        { lia. }
        { intros i Hi. rewrite list_lookup_total_insert_ne by lia.
          apply Hxi. lia. }
        exists row1, xi1. split; [f_equal; f_equal; lia|].
        split; [lia|]. split; [|split; [done|split; [|split]]].
        -- intros i Hi. destruct (decide (i = row)) as [->|?]; [done|].
           apply Hrun. lia.
        -- rewrite Hlen1, length_insert. done.
        -- intros i Hi. rewrite (Hpt i Hi).
           destruct (decide (i = row)) as [->|?].
           ++ rewrite list_lookup_total_insert_eq by lia.
              repeat case_decide; lia.
           ++ rewrite list_lookup_total_insert_ne by lia.
              repeat case_decide; lia.
        -- rewrite Htot, total_insert by lia. lia.
      * exists row, xi. replace (row - row)%nat with 0%nat by lia.
        split; [f_equal; f_equal; lia|]. split; [lia|].
        split; [intros; lia|]. split; [done|]. split; [done|].
        split; [|lia]. intros i Hi. case_decide; lia.
    + exists row, xi. replace (row - row)%nat with 0%nat by lia.
      split; [f_equal; f_equal; lia|]. split; [lia|].
      split; [intros; lia|]. split; [intros; lia|]. split; [done|].
      split; [|lia]. intros i Hi. case_decide; lia.
Qed.

Lemma dec_rows_from (n prev : nat) (lam : list Z) :
  (prev + n <= length lam)%nat ->
  (forall i : nat, (prev <= i < prev + n)%nat -> 1 <= lam !!! i < 2 ^ 64) ->
  let lam1 :=
    foldl (fun l index => <[index := wrap_size (l !!! index - 1)]> l)
          lam (seq prev n) in
  length lam1 = length lam /\
  forall i : nat, (i < length lam)%nat ->
    lam1 !!! i
    = lam !!! i - (if decide (prev <= i < prev + n)%nat then 1 else 0).
Proof.
  revert prev lam. induction n as [|n IH]; intros prev lam Hlen Hrange; simpl.
  - split; [done|]. intros i Hi. case_decide; lia.
  - pose proof (Hrange prev ltac:(lia)) as Hp.
    rewrite (wrap_size_small (lam !!! prev - 1)) by lia.
    destruct (IH (S prev) (<[prev := lam !!! prev - 1]> lam)) as [Hl Hpt].
    { rewrite length_insert. lia. }
    { intros i Hi. rewrite list_lookup_total_insert_ne by lia.
      apply Hrange. lia. }
    rewrite length_insert in Hl, Hpt. split; [done|].
    intros i Hi. rewrite (Hpt i Hi).
    destruct (decide (i = prev)) as [->|?].
    + rewrite list_lookup_total_insert_eq by lia. repeat case_decide; lia.
    + rewrite list_lookup_total_insert_ne by lia. repeat case_decide; lia.
Qed.

Lemma dec_rows_spec (prev row : nat) (lam : list Z) :
  (prev <= row <= length lam)%nat ->
  (forall i : nat, (prev <= i < row)%nat -> 1 <= lam !!! i < 2 ^ 64) ->
  length (dec_rows prev row lam) = length lam /\
  forall i : nat, (i < length lam)%nat ->
    dec_rows prev row lam !!! i
    = lam !!! i - (if decide (prev <= i < row)%nat then 1 else 0).
Proof.
  intros Hr Hrange. unfold dec_rows.
  destruct (dec_rows_from (row - prev) prev lam) as [Hl Hpt]; [lia| |].
  { intros i Hi. apply Hrange. lia. }
  split; [done|]. intros i Hi. rewrite (Hpt i Hi).
  repeat case_decide; lia.
Qed.


Section enumerator.
Variables (L : list Z) (m : Z).
Hypothesis L_pos : positive_parts L.
Hypothesis L_sorted : non_increasing L.
Hypothesis L_small : total L < 2 ^ 31.
Hypothesis m_range : 1 <= m < 2 ^ 31.

Lemma L_nonneg (i : nat) : (i < length L)%nat -> 0 <= L !!! i.
Proof. intros H. pose proof (positive_parts_lookup L i L_pos H). lia. Qed.

Lemma L_bounds (i : nat) : (i < length L)%nat -> 1 <= L !!! i < 2 ^ 31.
Proof.
  intros H. pose proof (positive_parts_lookup L i L_pos H).
  pose proof (total_lookup_le L i L_nonneg H). lia.
Qed.

Lemma L_length : Z.of_nat (length L) < 2 ^ 31.
Proof. pose proof (length_le_total L L_pos). lia. Qed.

Lemma L_suffix_nonneg (i : nat) : 0 <= total (drop i L).
Proof.
  apply total_nonneg. intros j Hj. rewrite length_drop in Hj.
  rewrite lookup_total_drop. apply L_nonneg. lia.
Qed.

Lemma shape_bounds st (i : nat) :
  strip_shape L m st -> (i < length L)%nat ->
  0 <= lambda st !!! i < 2 ^ 31 /\ 0 <= xi st !!! i < 2 ^ 31.
Proof.
  intros Hs Hi. pose proof (shape_sum _ _ _ Hs i Hi).
  pose proof (L_bounds i Hi). lia.
Qed.

Lemma shape_total_xi st :
  strip_shape L m st -> 0 <= total (xi st) <= total L.
Proof.
  intros Hs. split.
  - apply total_nonneg. intros i Hi.
    rewrite (shape_len_xi _ _ _ Hs) in Hi.
    pose proof (shape_sum _ _ _ Hs i Hi). lia.
  - apply total_le; [apply (shape_len_xi _ _ _ Hs)|].
    intros i Hi. rewrite (shape_len_xi _ _ _ Hs) in Hi.
    pose proof (shape_sum _ _ _ Hs i Hi). lia.
Qed.

Lemma shape_bs_range st :
  strip_shape L m st -> - 2 ^ 31 < bs_length st <= m.
Proof.
  intros Hs. pose proof (shape_total_xi st Hs).
  pose proof (shape_budget _ _ _ Hs). lia.
Qed.

(** When the strip lies in one row, that row holds all of it. *)
Lemma shape_one_row st :
  strip_shape L m st -> first_non_zero_row st = row st ->
  (row st < length L)%nat ->
  xi st !!! row st = m - bs_length st.
Proof.
  intros Hs Heq Hr.
  pose proof (shape_budget _ _ _ Hs) as Hb.
  rewrite (total_single (xi st) (row st)) in Hb; [lia| |].
  - intros i Hi Hne. rewrite (shape_len_xi _ _ _ Hs) in Hi.
    apply (shape_outside _ _ _ Hs); lia.
  - rewrite (shape_len_xi _ _ _ Hs). done.
Qed.

(** Inside the strip a row gives up its whole overhang. *)
Lemma shape_full_row st (i : nat) :
  strip_shape L m st -> (first_non_zero_row st <= i < row st)%nat ->
  (row st < length L)%nat ->
  xi st !!! i <> 0 -> lambda st !!! i + 1 = L !!! S i.
Proof.
  intros Hs Hi Hr Hne.
  destruct (decide (i = first_non_zero_row st)) as [->|Hd].
  - destruct (shape_top _ _ _ Hs) as [?|?]; [lia|done|done].
  - apply (shape_inside _ _ _ Hs). lia.
Qed.

Lemma shape_good st :
  strip_shape L m st -> bs_length st = 0 -> (row st < length L)%nat ->
  good_pair L m (mkPair (lambda st) (xi st)).
Proof.
  intros Hs Hb Hr.
  pose proof (shape_rows _ _ _ Hs) as Hrows.
  pose proof (shape_budget _ _ _ Hs) as Hbud.
  unfold good_pair. simpl.
  split; [apply (shape_len_lambda _ _ _ Hs)|].
  split; [apply (shape_len_xi _ _ _ Hs)|].
  split; [apply (shape_sum _ _ _ Hs)|].
  split; [lia|].
  assert (Hlast : 1 <= xi st !!! row st).
  { destruct (decide (first_non_zero_row st = row st)) as [Heq|Hne].
    - rewrite (shape_one_row st Hs Heq Hr). lia.
    - apply (shape_head_xi _ _ _ Hs). lia. }
  assert (Hfull : forall i : nat,
    (first_non_zero_row st <= i < row st)%nat -> xi st !!! i <> 0 ->
    lambda st !!! i + 1 = L !!! S i /\ 1 <= xi st !!! i).
  { intros i Hi Hne. pose proof (shape_full_row st i Hs Hi Hr Hne).
    pose proof (shape_sum _ _ _ Hs i ltac:(lia)).
    pose proof (L_sorted i ltac:(lia)). lia. }
  assert (Hin : forall i : nat,
    (first_non_zero_row st < i < row st)%nat ->
    lambda st !!! i + 1 = L !!! S i /\ 1 <= xi st !!! i).
  { intros i Hi. pose proof (shape_inside _ _ _ Hs i Hi).
    pose proof (shape_sum _ _ _ Hs i ltac:(lia)).
    pose proof (L_sorted i ltac:(lia)). lia. }
  destruct (decide (xi st !!! first_non_zero_row st = 0)) as [Hz|Hnz].
  - exists (S (first_non_zero_row st)), (row st).
    assert (first_non_zero_row st <> row st) by (intros Heq; rewrite Heq in Hz; lia).
    split; [lia|]. split; [|split; [|split]].
    + intros i Hi. destruct (decide (i = row st)) as [->|?]; [done|].
      apply Hin. lia.
    + intros i Hi Hlen.
      destruct (decide (i = first_non_zero_row st)) as [->|?]; [done|].
      apply (shape_outside _ _ _ Hs); lia.
    + intros i Hi. apply Hin. lia.
    + apply (shape_head _ _ _ Hs).
  - exists (first_non_zero_row st), (row st).
    split; [lia|]. split; [|split; [|split]].
    + intros i Hi. destruct (decide (i = row st)) as [->|?]; [done|].
      destruct (decide (i = first_non_zero_row st)) as [->|?].
      * apply Hfull; [lia|done].
      * apply Hin. lia.
    + intros i Hi Hlen. apply (shape_outside _ _ _ Hs); lia.
    + intros i Hi.
      destruct (decide (i = first_non_zero_row st)) as [->|?].
      * apply Hfull; [lia|done].
      * apply Hin. lia.
    + apply (shape_head _ _ _ Hs).
Qed.

Lemma emit_inv st :
  strip_inv L m st -> (row st < length L)%nat ->
  exists st', emit st = Continue st' /\ strip_inv L m st' /\
    strip_measure L st' <= strip_measure L st.
Proof.
  intros (Hs & Hbs & _) Hr. unfold emit.
  destruct (Z.eqb_spec (bs_length st) 0) as [Hz|Hnz];
    [|exists st; split; [done|]; split; [|lia]; split; [done|split; [done|lia]]].
  pose proof (shape_good st Hs Hz Hr) as Hgood.
  pose proof (shape_bounds st (first_non_zero_row st) Hs) as Hrange.
  destruct Hs as [Hl1 Hl2 Hrows Hsum Hout Hin Htop Hhead Hhx Hbud Hres].
  destruct st as [lam x r f b res]. simpl in *. subst b.
  specialize (Hrange ltac:(lia)).
  pose proof (Hsum f ltac:(lia)) as Hf.
  rewrite !lookup_lookup_total by lia.
  rewrite (wrap_size_small (lam !!! f + x !!! f)) by lia.
  rewrite (wrap_int_small (x !!! f)) by lia.
  rewrite (wrap_int_small (0 + x !!! f)) by lia.
  eexists. split; [reflexivity|].
  case_bool_decide as Hmv.
  - (* the strip was in one row: both indices move on *)
    subst f. split; [split; [split|]|]; simpl.
    + rewrite length_insert. done.
    + rewrite length_insert. done.
    + lia.
    + intros i Hi. destruct (decide (i = r)) as [->|Hne].
      * rewrite !list_lookup_total_insert_eq by lia. lia.
      * rewrite !list_lookup_total_insert_ne by lia. auto.
    + intros i Hi Hlen. destruct (decide (i = r)) as [->|Hne].
      * rewrite list_lookup_total_insert_eq by lia. done.
      * rewrite list_lookup_total_insert_ne by lia. apply Hout; lia.
    + intros i Hi. lia.
    + intros Hi. lia.
    + intros Hlen. rewrite list_lookup_total_insert_ne by lia.
      pose proof (Hsum (S r) ltac:(lia)) as Hn.
      rewrite (Hout (S r)) in Hn by lia.
      pose proof (L_sorted (S r) ltac:(lia)). lia.
    + intros Hi. lia.
    + rewrite total_insert by lia. lia.
    + apply Forall_app. split; [done|]. constructor; [done|constructor].
    + split; [lia|lia].
    + unfold strip_measure. simpl.
      rewrite (lookup_lookup_total lam r) by lia. simpl.
      destruct (decide (S r < length L)%nat) as [Hlt|Hge].
      * rewrite lookup_lookup_total by (rewrite length_insert; lia). simpl.
        rewrite list_lookup_total_insert_ne by lia.
        rewrite (total_drop L (S r)) by lia.
        pose proof (Hsum (S r) ltac:(lia)) as Hn.
        rewrite (Hout (S r)) in Hn by lia.
        pose proof (Hsum r ltac:(lia)). lia.
      * rewrite lookup_ge_None_2 by (rewrite length_insert; lia). simpl.
        rewrite !total_drop_ge by lia.
        pose proof (Hsum r ltac:(lia)). lia.
  - (* the top row of the strip is given back *)
    split; [split; [split|]|]; simpl.
    + rewrite length_insert. done.
    + rewrite length_insert. done.
    + lia.
    + intros i Hi. destruct (decide (i = f)) as [->|Hne].
      * rewrite !list_lookup_total_insert_eq by lia. lia.
      * rewrite !list_lookup_total_insert_ne by lia. auto.
    + intros i Hi Hlen. rewrite list_lookup_total_insert_ne by lia.
      apply Hout; lia.
    + intros i Hi. rewrite list_lookup_total_insert_ne by lia.
      apply Hin. lia.
    + intros Hi. left. rewrite list_lookup_total_insert_eq by lia. done.
    + intros Hlen. rewrite list_lookup_total_insert_ne by lia. auto.
    + intros Hi. rewrite list_lookup_total_insert_ne by lia. auto.
    + rewrite total_insert by lia. lia.
    + apply Forall_app. split; [done|]. constructor; [done|constructor].
    + split; [lia|lia].
    + unfold strip_measure. simpl.
      rewrite list_lookup_insert_ne by lia. lia.
Qed.

(** Taking [step] more cells from the row of the cursor. *)
Lemma take_inv st (step : Z) :
  strip_inv L m st -> (row st < length L)%nat ->
  1 <= step <= bs_length st ->
  0 <= lambda st !!! row st - step ->
  ((S (row st) < length L)%nat ->
     L !!! S (row st) <= lambda st !!! row st - step) ->
  let st1 := {|
    lambda := <[row st := lambda st !!! row st - step]> (lambda st);
    xi := <[row st := xi st !!! row st + step]> (xi st);
    row := row st;
    first_non_zero_row := first_non_zero_row st;
    bs_length := bs_length st - step;
    result := result st |} in
  strip_inv L m st1 /\ strip_measure L st1 < strip_measure L st.
Proof.
  intros (Hs & Hbs & _) Hr Hstep Hlam Hnext.
  destruct Hs as [Hl1 Hl2 Hrows Hsum Hout Hin Htop Hhead Hhx Hbud Hres].
  destruct st as [lam x r f b res]. simpl in *.
  split; [split; [split|]|]; simpl.
  - rewrite length_insert. done.
  - rewrite length_insert. done.
  - done.
  - intros i Hi. destruct (decide (i = r)) as [->|Hne].
    + rewrite !list_lookup_total_insert_eq by lia.
      pose proof (Hsum r Hi). lia.
    + rewrite !list_lookup_total_insert_ne by lia. auto.
  - intros i Hi Hlen. rewrite list_lookup_total_insert_ne by lia.
    apply Hout; lia.
  - intros i Hi. rewrite list_lookup_total_insert_ne by lia.
    apply Hin. lia.
  - intros Hi. rewrite !list_lookup_total_insert_ne by lia. auto.
  - intros Hlen. rewrite list_lookup_total_insert_eq by lia. auto.
  - intros Hi. rewrite list_lookup_total_insert_eq by lia.
    pose proof (Hsum r Hr). lia.
  - rewrite total_insert by lia. lia.
  - done.
  - lia.
  - unfold strip_measure. simpl.
    rewrite list_lookup_insert_eq by lia.
    rewrite lookup_lookup_total by lia. simpl. lia.
Qed.

Lemma turn_last st :
  strip_inv L m st -> 0 < bs_length st -> S (row st) = length L ->
  match strip_turn st with
  | Continue st' =>
      strip_inv L m st' /\ strip_measure L st' < strip_measure L st
  | Return res => Forall (good_pair L m) res
  | Crash => False
  end.
Proof.
  intros Hinv Hbs Hr.
  pose proof Hinv as (Hs & _ & _).
  pose proof (shape_bounds st (row st) Hs ltac:(lia)) as Hrange.
  pose proof (shape_bs_range st Hs) as Hbr.
  unfold strip_turn.
  rewrite (shape_len_lambda _ _ _ Hs).
  rewrite bool_decide_eq_true_2 by done.
  rewrite (wrap_int_small (lambda st !!! row st)) by lia.
  set (step := Z.min (bs_length st) (lambda st !!! row st)).
  assert (0 <= step <= bs_length st /\ step <= lambda st !!! row st)
    as Hstep by (unfold step; lia).
  rewrite (wrap_int_small (bs_length st - step)) by lia.
  destruct (Z.ltb_spec 0 (bs_length st - step)) as [Hpos|Hzero].
  { apply (shape_result _ _ _ Hs). }
  rewrite (wrap_size_small (lambda st !!! row st - step)) by lia.
  rewrite (wrap_size_small (xi st !!! row st + step)) by lia.
  destruct (take_inv st step Hinv) as [Hinv1 Hlt]; [lia|lia|lia|lia|].
  match goal with |- match emit ?s with _ => _ end => set (st1 := s) in * end.
  destruct (emit_inv st1 Hinv1) as (st' & -> & Hinv' & Hle); [simpl; lia|].
  split; [done|lia].
Qed.

Lemma turn_left st :
  strip_inv L m st -> 0 < bs_length st -> (S (row st) < length L)%nat ->
  lambda st !!! S (row st) < lambda st !!! row st ->
  match strip_turn st with
  | Continue st' =>
      strip_inv L m st' /\ strip_measure L st' < strip_measure L st
  | Return res => Forall (good_pair L m) res
  | Crash => False
  end.
Proof.
  intros Hinv Hbs Hr Hgt.
  pose proof Hinv as (Hs & _ & _).
  pose proof (shape_bounds st (row st) Hs ltac:(lia)) as Hrange.
  pose proof (shape_bounds st (S (row st)) Hs ltac:(lia)) as Hrange'.
  pose proof (shape_bs_range st Hs) as Hbr.
  pose proof (shape_sum _ _ _ Hs (S (row st)) ltac:(lia)) as Hnext.
  rewrite (shape_outside _ _ _ Hs (S (row st))) in Hnext by lia.
  unfold strip_turn.
  rewrite (shape_len_lambda _ _ _ Hs).
  rewrite bool_decide_eq_false_2 by lia.
  destruct (Z.ltb_spec (lambda st !!! S (row st)) (lambda st !!! row st))
    as [_|?]; [|lia].
  rewrite (wrap_size_small (lambda st !!! row st - lambda st !!! S (row st)))
    by lia.
  rewrite (wrap_int_small (lambda st !!! row st - lambda st !!! S (row st)))
    by lia.
  set (step := Z.min (bs_length st)
                 (lambda st !!! row st - lambda st !!! S (row st))).
  assert (1 <= step <= bs_length st /\
          step <= lambda st !!! row st - lambda st !!! S (row st))
    as Hstep by (unfold step; lia).
  rewrite (wrap_int_small (bs_length st - step)) by lia.
  rewrite (wrap_size_small (lambda st !!! row st - step)) by lia.
  rewrite (wrap_size_small (xi st !!! row st + step)) by lia.
  destruct (take_inv st step Hinv) as [Hinv1 Hlt]; [lia|lia|lia|lia|].
  match goal with |- match emit ?s with _ => _ end => set (st1 := s) in * end.
  destruct (emit_inv st1 Hinv1) as (st' & -> & Hinv' & Hle); [simpl; lia|].
  split; [done|lia].
Qed.

(** Giving rows back while the budget is overdrawn stops before the row
    of the cursor, which holds at most [m] cells. *)
Lemma refund_inv (k : nat) st :
  strip_shape L m st -> (row st < length L)%nat ->
  xi st !!! row st <= m ->
  (length L <= k + first_non_zero_row st)%nat ->
  exists lam2 xi2 fnz2 bs2,
    refund_loop k (lambda st) (xi st) (first_non_zero_row st) (bs_length st)
    = Ok (lam2, xi2, fnz2, bs2) /\
    strip_inv L m {|
      lambda := lam2; xi := xi2; row := row st;
      first_non_zero_row := fnz2; bs_length := bs2;
      result := result st |} /\
    lam2 !! row st = lambda st !! row st.
Proof.
  revert st. induction k as [|k IH]; intros st Hs Hr Hxr Hk.
  - simpl. destruct (Z.ltb_spec (bs_length st) 0) as [Hneg|Hpos].
    + pose proof (shape_rows _ _ _ Hs).
      pose proof (shape_one_row st Hs). lia.
    + exists (lambda st), (xi st), (first_non_zero_row st), (bs_length st).
      split; [done|]. split; [|done].
      destruct st; simpl in *. split; [done|]. split; simpl; lia.
  - simpl. destruct (Z.ltb_spec (bs_length st) 0) as [Hneg|Hpos].
    + pose proof (shape_rows _ _ _ Hs) as Hrows.
      assert (first_non_zero_row st < row st)%nat as Hlt.
      { destruct (decide (first_non_zero_row st = row st)) as [Heq|?]; [|lia].
        pose proof (shape_one_row st Hs Heq Hr). lia. }
      pose proof (shape_bounds st (first_non_zero_row st) Hs ltac:(lia))
        as Hrange.
      pose proof (shape_bs_range st Hs) as Hbr.
      pose proof (shape_sum _ _ _ Hs (first_non_zero_row st) ltac:(lia)) as Hf.
      pose proof (L_bounds (first_non_zero_row st) ltac:(lia)) as HLf.
      rewrite !lookup_lookup_total
        by (rewrite ?(shape_len_lambda _ _ _ Hs), ?(shape_len_xi _ _ _ Hs); lia).
      rewrite (wrap_size_small (_ + _)) by lia.
      rewrite (wrap_int_small (xi st !!! _)) by lia.
      rewrite (wrap_int_small (_ + _)) by lia.
      destruct (IH {|
        lambda := <[first_non_zero_row st :=
                    lambda st !!! first_non_zero_row st
                    + xi st !!! first_non_zero_row st]> (lambda st);
        xi := <[first_non_zero_row st := 0]> (xi st);
        row := row st;
        first_non_zero_row := S (first_non_zero_row st);
        bs_length := bs_length st + xi st !!! first_non_zero_row st;
        result := result st |})
        as (lam2 & xi2 & fnz2 & bs2 & Heq & Hinv & Hrow).
      { destruct Hs as [Hl1 Hl2 _ Hsum Hout Hin Htop Hhead Hhx Hbud Hres].
        destruct st as [lam x r f b res]. simpl in *.
        split; simpl.
        - rewrite length_insert. done.
        - rewrite length_insert. done.
        - lia.
        - intros i Hi. destruct (decide (i = f)) as [->|Hne].
          + rewrite !list_lookup_total_insert_eq by lia. lia.
          + rewrite !list_lookup_total_insert_ne by lia. auto.
        - intros i Hi Hlen. destruct (decide (i = f)) as [->|Hne].
          + rewrite list_lookup_total_insert_eq by lia. done.
          + rewrite list_lookup_total_insert_ne by lia. apply Hout; lia.
        - intros i Hi. rewrite list_lookup_total_insert_ne by lia.
          apply Hin. lia.
        - intros Hi. right. rewrite list_lookup_total_insert_ne by lia.
          apply Hin. lia.
        - intros Hlen. rewrite list_lookup_total_insert_ne by lia. auto.
        - intros Hi. rewrite list_lookup_total_insert_ne by lia.
          apply Hhx. lia.
        - rewrite total_insert by lia. lia.
        - done. }
      { simpl. done. }
      { simpl. rewrite list_lookup_total_insert_ne by lia. done. }
      { simpl. lia. }
      simpl in Heq, Hinv, Hrow.
      exists lam2, xi2, fnz2, bs2. split; [done|]. split; [done|].
      rewrite Hrow, list_lookup_insert_ne by lia.
      apply lookup_lookup_total. rewrite (shape_len_lambda _ _ _ Hs). lia.
    + exists (lambda st), (xi st), (first_non_zero_row st), (bs_length st).
      split; [done|]. split; [|done].
      destruct st; simpl in *. split; [done|]. split; simpl; lia.
Qed.

Lemma L_suffix_le (i j : nat) :
  (i <= j)%nat -> total (drop j L) <= total (drop i L).
Proof.
  induction 1 as [|j Hle IH]; [lia|].
  destruct (decide (j < length L)%nat) as [Hlt|Hge].
  - rewrite (total_drop L j) in IH by lia.
    pose proof (L_nonneg j Hlt). lia.
  - rewrite total_drop_ge by lia. apply L_suffix_nonneg.
Qed.

Lemma turn_down st :
  strip_inv L m st -> 0 < bs_length st -> (S (row st) < length L)%nat ->
  ~ lambda st !!! S (row st) < lambda st !!! row st ->
  match strip_turn st with
  | Continue st' =>
      strip_inv L m st' /\ strip_measure L st' < strip_measure L st
  | Return res => Forall (good_pair L m) res
  | Crash => False
  end.
Proof.
  intros (Hs & _ & _) Hbs Hr Hle.
  pose proof (shape_bs_range st Hs) as Hbr.
  pose proof (shape_bounds st) as Hrange.
  pose proof L_length as HLlen.
  destruct Hs as [Hl1 Hl2 Hrows Hsum Hout Hin Htop Hhead Hhx Hbud Hres].
  destruct st as [lam x r f b res]. simpl in *.
  unfold strip_turn. simpl.
  rewrite bool_decide_eq_false_2 by lia.
  destruct (Z.ltb_spec (lam !!! S r) (lam !!! r)) as [?|_]; [lia|].
  (* the rows below the cursor are untouched *)
  assert (Hbelow : forall i : nat, (r < i < length L)%nat ->
            x !!! i = 0 /\ lam !!! i = L !!! i).
  { intros i Hi. pose proof (Hsum i ltac:(lia)).
    pose proof (Hout i ltac:(lia) ltac:(lia)). lia. }
  assert (Hv : lam !!! r = L !!! S r).
  { pose proof (Hbelow (S r) ltac:(lia)). pose proof (Hhead Hr). lia. }
  pose proof (L_bounds (S r) Hr) as HLr.
  destruct (down_loop_spec (length lam) lam r r b x)
    as (row1 & xi1 & Hdl & Hr1 & Hrun & Hmax & Hlen1 & Hpt & Htot).
  { lia. }
  { lia. }
  { lia. }
  { lia. }
  { intros i Hi. pose proof (Hsum i ltac:(lia)).
    pose proof (L_bounds i ltac:(lia)). lia. }
  rewrite Hdl. clear Hdl.
  assert (S r < row1)%nat as Hrow1.
  { destruct (decide (S r < row1)%nat) as [|Hn]; [done|exfalso].
    assert (row1 = r \/ row1 = S r) as [->| ->] by lia.
    - apply Hmax; [lia|done].
    - apply Hmax; [lia|]. pose proof (Hbelow (S r) ltac:(lia)). lia. }
  destruct (dec_rows_spec r row1 lam) as [Hlen2 Hpt2]; [lia| |].
  { intros i Hi. rewrite (Hrun i Hi). lia. }
  set (lam1 := dec_rows r row1 lam) in *.
  set (st1 := {|
    lambda := lam1; xi := xi1; row := Nat.pred row1;
    first_non_zero_row := f; bs_length := b - Z.of_nat (row1 - r);
    result := res |}).
  assert (Hs1 : strip_shape L m st1).
  { split; simpl.
    - lia.
    - lia.
    - lia.
    - intros i Hi. rewrite Hpt, Hpt2 by lia.
      pose proof (Hsum i Hi). case_decide; [|lia].
      rewrite (Hrun i) in * by lia. lia.
    - intros i Hi Hlen. rewrite Hpt by lia.
      rewrite decide_False by lia. rewrite Z.add_0_r.
      destruct Hi as [Hi|Hi]; [apply Hout; lia|].
      pose proof (Hbelow i ltac:(lia)). lia.
    - intros i Hi. rewrite Hpt2 by lia.
      destruct (decide (i < r)%nat) as [Hir|Hir].
      + rewrite decide_False by lia. rewrite Z.sub_0_r. apply Hin. lia.
      + rewrite decide_True by lia. rewrite (Hrun i) by lia.
        destruct (decide (i = r)) as [->|Hne]; [lia|].
        pose proof (Hbelow (S i) ltac:(lia)) as [_ <-].
        rewrite (Hrun (S i)) by lia. lia.
    - intros Hi. rewrite Hpt, Hpt2 by lia.
      destruct (decide (f = r)) as [->|Hne].
      + right. rewrite decide_True by lia. lia.
      + rewrite !decide_False by lia. rewrite Z.add_0_r, Z.sub_0_r.
        apply Htop. lia.
    - intros Hlen. replace (S (Nat.pred row1)) with row1 by lia.
      rewrite Hpt2 by lia. rewrite decide_True by lia.
      rewrite (Hrun (Nat.pred row1)) by lia.
      pose proof (Hbelow row1 ltac:(lia)) as [_ Hrow1eq].
      pose proof (Hbelow (Nat.pred row1) ltac:(lia)) as [_ Hprev].
      rewrite (Hrun (Nat.pred row1)) in Hprev by lia.
      pose proof (L_sorted (Nat.pred row1)) as Hs'.
      replace (S (Nat.pred row1)) with row1 in Hs' by lia.
      specialize (Hs' ltac:(lia)).
      specialize (Hmax ltac:(lia)). lia.
    - intros Hi. rewrite Hpt by lia. rewrite decide_True by lia.
      pose proof (Hbelow (Nat.pred row1) ltac:(lia)). lia.
    - lia.
    - done. }
  destruct (refund_inv (length lam) st1 Hs1)
    as (lam2 & xi2 & fnz2 & bs2 & Hrf & Hinv2 & Hsame).
  { simpl. lia. }
  { simpl. rewrite Hpt by lia. rewrite decide_True by lia.
    pose proof (Hbelow (Nat.pred row1) ltac:(lia)). lia. }
  { simpl. lia. }
  simpl in Hrf, Hinv2, Hsame. rewrite Hrf.
  match goal with |- match emit ?s with _ => _ end => set (st2 := s) in * end.
  destruct (emit_inv st2 Hinv2) as (st' & -> & Hinv' & Hm); [simpl; lia|].
  split; [done|].
  assert (strip_measure L st2 < strip_measure L
            {| lambda := lam; xi := x; row := r; first_non_zero_row := f;
               bs_length := b; result := res |}); [|lia].
  unfold strip_measure, st2. simpl. rewrite Hsame.
  rewrite !lookup_lookup_total by lia. simpl.
  rewrite Hpt2 by lia. rewrite decide_True by lia.
  rewrite (Hrun (Nat.pred row1)) by lia.
  pose proof (L_suffix_le (S r) (S (Nat.pred row1)) ltac:(lia)). lia.
Qed.

(** One turn of the outer loop keeps the invariant and lowers the
    variant, or returns; it never reads out of bounds. *)
Lemma strip_turn_inv st :
  strip_inv L m st -> 0 < bs_length st -> (row st < length L)%nat ->
  match strip_turn st with
  | Continue st' =>
      strip_inv L m st' /\ strip_measure L st' < strip_measure L st
  | Return res => Forall (good_pair L m) res
  | Crash => False
  end.
Proof.
  intros Hinv Hbs Hr.
  destruct (decide (S (row st) = length L)) as [Hlast|Hmore].
  - apply turn_last; done.
  - destruct (decide (lambda st !!! S (row st) < lambda st !!! row st)).
    + apply turn_left; [done|done|lia|done].
    + apply turn_down; [done|done|lia|done].
Qed.

Lemma strip_measure_nonneg st :
  strip_inv L m st -> (row st < length L)%nat -> 0 <= strip_measure L st.
Proof.
  intros (Hs & _ & _) Hr. unfold strip_measure.
  rewrite lookup_lookup_total by (rewrite (shape_len_lambda _ _ _ Hs); lia).
  simpl. pose proof (shape_sum _ _ _ Hs (row st) Hr).
  pose proof (L_suffix_nonneg (S (row st))). lia.
Qed.

(** Whatever the fuel, a run that ends returns good pairs only. *)
Lemma strip_loop_sound (fuel : nat) st res :
  strip_inv L m st -> strip_loop fuel st = Ok res ->
  Forall (good_pair L m) res.
Proof.
  revert st. induction fuel as [|fuel IH]; intros st Hinv; simpl.
  - destruct (_ && _); [done|]. intros [= <-].
    apply (shape_result _ _ _ (proj1 Hinv)).
  - destruct (Z.ltb_spec 0 (bs_length st)) as [Hbs|Hbs]; simpl;
      [|intros [= <-]; apply (shape_result _ _ _ (proj1 Hinv))].
    case_bool_decide as Hr;
      [|intros [= <-]; apply (shape_result _ _ _ (proj1 Hinv))].
    rewrite (shape_len_lambda _ _ _ (proj1 Hinv)) in Hr.
    pose proof (strip_turn_inv st Hinv Hbs Hr) as Hturn.
    destruct (strip_turn st) as [st'|res'|]; [|intros [= <-]; done|done].
    apply IH. apply Hturn.
Qed.

(** With fuel above the variant the run ends. *)
Lemma strip_loop_ends (fuel : nat) st :
  strip_inv L m st -> strip_measure L st < Z.of_nat fuel ->
  exists res, strip_loop fuel st = Ok res.
Proof.
  revert st. induction fuel as [|fuel IH]; intros st Hinv Hfuel; simpl.
  - destruct (Z.ltb_spec 0 (bs_length st)) as [Hbs|Hbs]; simpl; [|eauto].
    case_bool_decide as Hr; [|eauto].
    rewrite (shape_len_lambda _ _ _ (proj1 Hinv)) in Hr.
    pose proof (strip_measure_nonneg st Hinv Hr). lia.
  - destruct (Z.ltb_spec 0 (bs_length st)) as [Hbs|Hbs]; simpl; [|eauto].
    case_bool_decide as Hr; [|eauto].
    rewrite (shape_len_lambda _ _ _ (proj1 Hinv)) in Hr.
    pose proof (strip_turn_inv st Hinv Hbs Hr) as Hturn.
    destruct (strip_turn st) as [st'|res'|]; [|eauto|done].
    apply IH; [apply Hturn|]. lia.
Qed.

Lemma strip_inv_init :
  strip_inv L m {|
    lambda := L; xi := replicate (length L) 0; row := 0;
    first_non_zero_row := 0; bs_length := m; result := [] |}.
Proof.
  assert (Hz : forall i : nat, (i < length L)%nat ->
            replicate (length L) 0 !!! i = 0).
  { intros i Hi. apply list_lookup_total_correct.
    apply lookup_replicate_2. done. }
  split; [split|]; simpl.
  - done.
  - apply length_replicate.
  - done.
  - intros i Hi. rewrite (Hz i Hi). pose proof (L_nonneg i Hi). lia.
  - intros i Hi Hlen. apply Hz. done.
  - intros i Hi. lia.
  - intros Hi. lia.
  - intros Hlen. apply L_sorted. done.
  - intros Hi. lia.
  - rewrite total_replicate_0. lia.
  - constructor.
  - lia.
Qed.

(** On [L] the enumerator ends without reading out of bounds, and every
    pair it returns is good. *)
Lemma get_border_strips_good (fuel : nat) :
  (strip_fuel L <= fuel)%nat ->
  exists res, get_border_strips fuel L m = Ok res /\
    Forall (good_pair L m) res.
Proof.
  intros Hfuel. unfold get_border_strips.
  destruct (strip_loop_ends fuel _ strip_inv_init) as [res Hres].
  - unfold strip_measure, strip_fuel in *. simpl.
    destruct (decide (0 < length L)%nat) as [Hlen|Hlen].
    + rewrite lookup_lookup_total by done. simpl.
      pose proof (total_drop L 0 Hlen) as Hd. rewrite drop_0 in Hd. lia.
    + rewrite lookup_ge_None_2 by lia. rewrite total_drop_ge by lia.
      simpl. lia.
  - exists res. split; [done|].
    apply (strip_loop_sound fuel _ res strip_inv_init Hres).
Qed.

Lemma get_border_strips_sound (fuel : nat) res :
  get_border_strips fuel L m = Ok res -> Forall (good_pair L m) res.
Proof. apply strip_loop_sound, strip_inv_init. Qed.

End enumerator.

(** ** From the row description of a pair to its cells *)

Lemma zip_add_eq (l1 l2 l : list Z) :
  length l1 = length l -> length l2 = length l ->
  (forall i : nat, (i < length l)%nat -> l1 !!! i + l2 !!! i = l !!! i) ->
  zip_with Z.add l1 l2 = l.
Proof.
  revert l1 l2. induction l as [|z l IH]; intros [|x l1] [|y l2] H1 H2 Hpt;
    simpl in H1, H2; try lia; [done|].
  simpl. f_equal.
  - apply (Hpt 0%nat). simpl. lia.
  - apply IH; [lia|lia|]. intros i Hi. apply (Hpt (S i)). simpl. lia.
Qed.

Lemma non_increasing_le (l : list Z) (i j : nat) :
  non_increasing l -> (i <= j < length l)%nat -> l !!! j <= l !!! i.
Proof.
  intros Hl [Hij Hj]. induction Hij as [|j Hij IH]; [lia|].
  pose proof (Hl j Hj). specialize (IH ltac:(lia)). lia.
Qed.

Lemma non_increasing_tail x (l : list Z) :
  non_increasing (x :: l) -> non_increasing l.
Proof. intros H i Hi. apply (H (S i)). simpl. lia. Qed.

Lemma non_increasing_head x (l : list Z) :
  non_increasing (x :: l) -> Forall (fun y => y <= x) l.
Proof.
  intros H. apply Forall_lookup. intros i y Hy.
  pose proof (lookup_lt_Some _ _ _ Hy) as Hi.
  pose proof (non_increasing_le (x :: l) 0 (S i) H ltac:(simpl; lia)) as Hle.
  simpl in Hle. rewrite (list_lookup_total_correct _ _ _ Hy) in Hle. done.
Qed.

Lemma non_increasing_cons x (l : list Z) :
  Forall (fun y => y <= x) l -> non_increasing l -> non_increasing (x :: l).
Proof.
  intros Hx Hl [|i] Hi; simpl in Hi.
  - simpl. destruct l as [|y l]; simpl in *; [lia|].
    apply (Forall_inv Hx).
  - apply (Hl i). lia.
Qed.

Lemma non_increasing_filter (P : Z -> Prop) `{!forall x, Decision (P x)}
    (l : list Z) :
  non_increasing l -> non_increasing (filter P l).
Proof.
  induction l as [|x l IH]; intros Hl; [done|].
  pose proof (non_increasing_tail x l Hl) as Ht.
  pose proof (non_increasing_head x l Hl) as Hh.
  rewrite filter_cons. case_decide; [|auto].
  apply non_increasing_cons; [|auto].
  apply Forall_forall. intros y Hy. apply list_elem_of_filter in Hy as [_ Hy].
  rewrite Forall_forall in Hh. auto.
Qed.

Lemma correct_partition_positive (l : list Z) :
  positive_parts (correct_partition l).
Proof.
  apply Forall_forall. intros x Hx.
  apply list_elem_of_filter in Hx as [Hx _]. done.
Qed.

Lemma correct_partition_id (l : list Z) :
  positive_parts l -> correct_partition l = l.
Proof.
  induction 1 as [|x l Hx Hl IH]; [done|].
  unfold correct_partition in *. rewrite filter_cons_True by done.
  f_equal. done.
Qed.

Lemma correct_partition_idemp (l : list Z) :
  correct_partition (correct_partition l) = correct_partition l.
Proof. apply correct_partition_id, correct_partition_positive. Qed.

Section cells.
Variables (L : list Z) (m : Z) (p : PartitionWithoutBorderStrip).
Hypothesis L_sorted : non_increasing L.
Hypothesis p_good : good_pair L m p.

Local Abbreviation sub := (partition p).
Local Abbreviation str := (border_strip p).

Lemma good_non_increasing : non_increasing sub.
Proof.
  destruct p_good as (Hl1 & Hl2 & Hsum & Htot & a & b & Hab & Hin & Hout
                      & Hfull & Hhead).
  intros i Hi. rewrite Hl1 in Hi.
  pose proof (Hsum i ltac:(lia)) as Hi0.
  pose proof (Hsum (S i) ltac:(lia)) as Hi1.
  pose proof (L_sorted i Hi) as HL.
  destruct (decide (S i < a)%nat).
  { rewrite (Hout i), (Hout (S i)) in * by lia. lia. }
  destruct (decide (S i = a)).
  { rewrite (Hout i) in * by lia. lia. }
  destruct (decide (i < b)%nat).
  { pose proof (Hfull i ltac:(lia)). pose proof (Hin (S i) ltac:(lia)). lia. }
  destruct (decide (i = b)) as [->|].
  { rewrite (Hout (S b)) in * by lia. specialize (Hhead ltac:(lia)). lia. }
  rewrite (Hout i), (Hout (S i)) in * by lia. lia.
Qed.

Lemma good_no_2x2 : no_2x2 sub str.
Proof.
  destruct p_good as (Hl1 & Hl2 & Hsum & Htot & a & b & Hab & Hin & Hout
                      & Hfull & Hhead).
  intros r c ([Hr1 Hc1] & _ & _ & [Hr4 Hc4]). simpl in *.
  rewrite Hl2 in Hr1, Hr4.
  assert (a <= r)%nat.
  { destruct (decide (a <= r)%nat); [done|].
    rewrite (Hout r) in Hc1 by lia. lia. }
  assert (S r <= b)%nat.
  { destruct (decide (S r <= b)%nat); [done|].
    rewrite (Hout (S r)) in Hc4 by lia. lia. }
  pose proof (Hfull r ltac:(lia)). pose proof (Hsum (S r) ltac:(lia)). lia.
Qed.

Lemma strip_link_sym x y : strip_link sub str x y -> strip_link sub str y x.
Proof.
  intros (Hx & Hy & Hadj). split; [done|]. split; [done|].
  unfold adjacent in *. lia.
Qed.

Lemma strip_path_sym x y :
  rtc (strip_link sub str) x y -> rtc (strip_link sub str) y x.
Proof.
  induction 1 as [|x y z Hxy _ IH]; [done|].
  eapply rtc_r; [exact IH|]. apply strip_link_sym. done.
Qed.

(** Along a row, to its leftmost removed cell. *)
Lemma strip_path_steps (r : nat) (k : nat) :
  in_strip sub str (r, sub !!! r + Z.of_nat k) ->
  rtc (strip_link sub str) (r, sub !!! r + Z.of_nat k) (r, sub !!! r).
Proof.
  induction k as [|k IH]; intros Hin.
  - replace (sub !!! r + Z.of_nat 0) with (sub !!! r) by lia. done.
  - assert (in_strip sub str (r, sub !!! r + Z.of_nat k)) as Hk.
    { destruct Hin as [Hr Hc]. split; simpl in *; [done|lia]. }
    eapply rtc_l; [|apply IH; done].
    split; [done|]. split; [done|]. left. simpl. lia.
Qed.

Lemma strip_path_row (r : nat) (c : Z) :
  in_strip sub str (r, c) ->
  rtc (strip_link sub str) (r, c) (r, sub !!! r).
Proof.
  intros Hin.
  assert (c = sub !!! r + Z.of_nat (Z.to_nat (c - sub !!! r))) as Heq.
  { destruct Hin as [_ Hc]. simpl in Hc. lia. }
  revert Hin. rewrite Heq. apply strip_path_steps.
Qed.

Lemma good_connected : connected sub str.
Proof.
  destruct p_good as (Hl1 & Hl2 & Hsum & Htot & a & b & Hab & Hin & Hout
                      & Hfull & Hhead).
  assert (Hrows : forall q, in_strip sub str q -> (a <= q.1 <= b)%nat).
  { intros [r c] [Hr Hc]. simpl in *. rewrite Hl2 in Hr.
    destruct (decide (a <= r <= b)%nat); [done|].
    rewrite (Hout r) in Hc by lia. lia. }
  assert (Hleft : forall r : nat, (a <= r <= b)%nat ->
            in_strip sub str (r, sub !!! r)).
  { intros r Hr. split; simpl; [lia|]. pose proof (Hin r Hr). lia. }
  (* every leftmost cell is joined to the one of the last row *)
  assert (Hdown : forall (d r : nat), (a <= r)%nat -> (r + d = b)%nat ->
            rtc (strip_link sub str) (r, sub !!! r) (b, sub !!! b)).
  { induction d as [|d IH]; intros r Ha Hd.
    - replace r with b by lia. done.
    - assert (in_strip sub str (S r, sub !!! r)) as Hbelow.
      { split; simpl; [lia|]. pose proof (Hfull r ltac:(lia)).
        pose proof (Hsum (S r) ltac:(lia)). pose proof (Hin (S r) ltac:(lia)).
        lia. }
      eapply rtc_l.
      { split; [apply Hleft; lia|]. split; [exact Hbelow|].
        right. simpl. lia. }
      etrans; [|apply (IH (S r)); lia].
      apply strip_path_row. done. }
  assert (Hanchor : forall q, in_strip sub str q ->
            rtc (strip_link sub str) q (b, sub !!! b)).
  { intros [r c] Hq. pose proof (Hrows _ Hq) as Hr. simpl in Hr.
    etrans; [|apply (Hdown (b - r)%nat r); lia].
    apply strip_path_row. done. }
  intros x y Hx Hy. etrans; [apply Hanchor; done|].
  apply strip_path_sym, Hanchor. done.
Qed.

Lemma good_border_strip_of : border_strip_of L m p.
Proof.
  pose proof good_non_increasing as Hni.
  pose proof good_no_2x2. pose proof good_connected.
  destruct p_good as (Hl1 & Hl2 & Hsum & Htot & _).
  split; [done|]. split; [done|].
  split.
  { apply Forall_lookup. intros i x Hx.
    pose proof (lookup_lt_Some _ _ _ Hx) as Hi. rewrite Hl1 in Hi.
    rewrite <- (list_lookup_total_correct _ _ _ Hx). apply Hsum. done. }
  split.
  { apply Forall_lookup. intros i x Hx.
    pose proof (lookup_lt_Some _ _ _ Hx) as Hi. rewrite Hl2 in Hi.
    rewrite <- (list_lookup_total_correct _ _ _ Hx). apply Hsum. done. }
  split; [apply zip_add_eq; [done|done|intros i Hi; apply Hsum; done]|].
  split; [done|]. split; [apply correct_partition_positive|].
  split; [apply non_increasing_filter; done|]. done.
Qed.

End cells.

(** ** The bounded inner loops *)

(** The bound [k] of the two inner loops does not matter once it covers the
    rows that are left: the loops of the model are the loops of the
    source. *)
Lemma down_loop_bound (k k' : nat) (lam : list Z) (prev row : nat) (bs : Z)
    (xi : list Z) :
  (length lam <= row + k)%nat -> (length lam <= row + k')%nat ->
  down_loop k lam prev row bs xi = down_loop k' lam prev row bs xi.
Proof.
  revert k' row bs xi. induction k as [|k IH]; intros k' row bs xi Hk Hk'.
  - destruct k' as [|k']; [done|]. simpl.
    rewrite bool_decide_eq_false_2 by lia. done.
  - destruct k' as [|k']; simpl.
    + rewrite bool_decide_eq_false_2 by lia. done.
    + destruct (_ && _); [|done]. apply IH; lia.
Qed.

Lemma refund_loop_bound (k k' : nat) (lam xi : list Z) (fnz : nat) (bs : Z) :
  (length lam <= fnz + k)%nat -> (length lam <= fnz + k')%nat ->
  refund_loop k lam xi fnz bs = refund_loop k' lam xi fnz bs.
Proof.
  revert k' lam xi fnz bs.
  induction k as [|k IH]; intros k' lam xi fnz bs Hk Hk'.
  - destruct k' as [|k']; [done|]. simpl. destruct (bs <? 0); [|done].
    rewrite (lookup_ge_None_2 lam) by lia. done.
  - destruct k' as [|k']; simpl; destruct (bs <? 0); try done.
    + rewrite (lookup_ge_None_2 lam) by lia. done.
    + destruct (lam !! fnz); [|done]. destruct (xi !! fnz); [|done].
      apply IH; rewrite length_insert; lia.
Qed.

(** ** Fuel *)

(** More fuel does not change a result. *)
Lemma strip_loop_mono (fuel fuel' : nat) st res :
  strip_loop fuel st = Ok res -> (fuel <= fuel')%nat ->
  strip_loop fuel' st = Ok res.
Proof.
  revert fuel' st. induction fuel as [|fuel IH]; intros fuel' st; simpl.
  - destruct (_ && _) eqn:Hc; [done|]. intros [= <-] _.
    destruct fuel'; simpl; rewrite Hc; done.
  - destruct (_ && _) eqn:Hc.
    + intros H Hle. destruct fuel' as [|fuel']; [lia|]. simpl. rewrite Hc.
      destruct (strip_turn st); [|done|done]. apply IH; [done|lia].
    + intros [= <-] _. destruct fuel'; simpl; rewrite Hc; done.
Qed.

Lemma get_border_strips_mono (fuel fuel' : nat) lam m res :
  get_border_strips fuel lam m = Ok res -> (fuel <= fuel')%nat ->
  get_border_strips fuel' lam m = Ok res.
Proof. apply strip_loop_mono. Qed.

(** Two runs that both end agree. *)
Lemma get_border_strips_det (fuel fuel' : nat) lam m res res' :
  get_border_strips fuel lam m = Ok res ->
  get_border_strips fuel' lam m = Ok res' -> res = res'.
Proof.
  intros H H'.
  apply (get_border_strips_mono _ (Nat.max fuel fuel')) in H; [|lia].
  apply (get_border_strips_mono _ (Nat.max fuel fuel')) in H'; [|lia].
  congruence.
Qed.

(** A strip length that is not positive gives no pair. *)
Lemma get_border_strips_nonpos (fuel : nat) lam m :
  m <= 0 -> get_border_strips fuel lam m = Ok [].
Proof.
  intros Hm. unfold get_border_strips.
  destruct fuel; simpl; destruct (Z.ltb_spec 0 m); try lia; done.
Qed.

(** ** The border-strip enumerator: the claims *)

(** C4, as stated, fails: for [3,1] and strip length 2 the enumerator does
    not return two pairs. *)
Lemma three_one_has_one_strip :
  exists res, get_border_strips 2 [3; 1] 2 = Ok res /\ length res <> 2%nat.
Proof. eexists. split; [vm_compute; reflexivity|]. simpl. lia. Qed.

(** C4, amended: for [3,1] and strip length 2 the enumerator returns exactly
    one pair, the removal of two cells from the end of the top row, which
    leaves [1,1]; and this is the only border strip of two cells that [3,1]
    has (the bottom row together with the last cell of the top row is not
    connected). *)
Theorem border_strips_three_one (fuel : nat) :
  get_border_strips (2 + fuel) [3; 1] 2
  = Ok [{| partition := [1; 1]; border_strip := [2; 0] |}] /\
  forall p, border_strip_of [3; 1] 2 p <->
            p = {| partition := [1; 1]; border_strip := [2; 0] |}.
Proof.
  assert (get_border_strips 2 [3; 1] 2
          = Ok [{| partition := [1; 1]; border_strip := [2; 0] |}]) as Hrun
    by (vm_compute; reflexivity).
  split; [apply (get_border_strips_mono 2); [done|lia]|].
  assert (non_increasing [3; 1]) as Hsort
    by (intros [|[|i]] Hi; simpl in *; lia).
  intros p. split.
  - intros (Hl1 & Hl2 & Hsub & Hxi & Hzip & Htot & _ & _ & Hconn & _).
    destruct p as [[|a [|b [|? ?]]] [|c [|d [|? ?]]]]; simpl in *; try done.
    injection Hzip as Ha Hb.
    apply Forall_cons in Hsub as [Ha0 [Hb0 _]%Forall_cons].
    apply Forall_cons in Hxi as [Hc0 [Hd0 _]%Forall_cons].
    unfold total in Htot. simpl in Htot.
    assert ((c = 2 /\ d = 0) \/ (c = 1 /\ d = 1)) as [[-> ->]|[-> ->]] by lia.
    { f_equal. f_equal; [lia|f_equal; lia]. }
    exfalso. assert (a = 2) as -> by lia. assert (b = 0) as -> by lia.
    specialize (Hconn (0%nat, 2) (1%nat, 0)).
    apply rtc_inv in Hconn as [Heq|(y & Hlink & _)].
    + discriminate.
    + destruct Hlink as (_ & [Hr Hc] & Hadj). destruct y as [[|[|r]] col];
        unfold adjacent in Hadj; simpl in *; lia.
    + split; simpl; lia.
    + split; simpl; lia.
  - intros ->. apply (good_border_strip_of [3; 1] 2); [done|].
    assert (Forall (good_pair [3; 1] 2)
              [{| partition := [1; 1]; border_strip := [2; 0] |}]) as Hgood.
    { apply (get_border_strips_sound [3; 1] 2) with (fuel := 2%nat);
        [repeat constructor|done|vm_compute; reflexivity|lia|done]. }
    apply Forall_inv in Hgood. done.
Qed.

(** C5, as stated, fails: with zero rows at the end of the input the down
    step takes a cell from an empty row, and the pair that is returned does
    not leave a partition (nor does it add up to the input, except modulo
    2^64). *)
Lemma border_strips_trailing_zeros :
  get_border_strips 3 [1; 0; 0] 1
  = Ok [{| partition := [0; 0; 0]; border_strip := [1; 0; 0] |};
        {| partition := [1; 0; 18446744073709551615];
           border_strip := [0; 0; 1] |}] /\
  correct_partition [1; 0; 18446744073709551615]
  = [1; 18446744073709551615] /\
  ~ non_increasing [1; 18446744073709551615] /\
  ~ Forall (border_strip_of [1; 0; 0] 1)
      [{| partition := [0; 0; 0]; border_strip := [1; 0; 0] |};
       {| partition := [1; 0; 18446744073709551615];
          border_strip := [0; 0; 1] |}].
Proof.
  assert (~ non_increasing [1; 18446744073709551615]) as Hbad.
  { intros H. specialize (H 0%nat ltac:(simpl; lia)). simpl in H. lia. }
  split; [vm_compute; reflexivity|]. split; [reflexivity|]. split; [done|].
  intros H. apply Forall_cons in H as [_ H]. apply Forall_cons in H as [H _].
  destruct H as (_ & _ & _ & _ & _ & _ & _ & H & _). apply Hbad, H.
Qed.

(** C5, amended: for every partition [lam] with positive parts only, in
    non-increasing order and of a size below 2^31, and every strip length
    [0 <= m < 2^31], the enumerator returns, and each pair it returns adds up
    to [lam] row by row, removes exactly [m] cells, leaves a partition once
    zero rows are dropped, and removes a connected strip without a 2x2
    block. *)
Theorem enumerated_pairs_are_border_strips (lam : list Z) (m : Z) :
  positive_parts lam -> non_increasing lam -> total lam < 2 ^ 31 ->
  0 <= m < 2 ^ 31 ->
  (exists res, get_border_strips (strip_fuel lam) lam m = Ok res) /\
  forall fuel res, get_border_strips fuel lam m = Ok res ->
    Forall (border_strip_of lam m) res.
Proof.
  intros Hpos Hsort Hsmall Hm.
  destruct (decide (m = 0)) as [->|Hne].
  { split; [exists []; apply get_border_strips_nonpos; lia|].
    intros fuel res. rewrite get_border_strips_nonpos by lia.
    intros [= <-]. constructor. }
  split.
  - destruct (get_border_strips_good lam m Hpos Hsort Hsmall ltac:(lia)
                (strip_fuel lam)) as (res & Hres & _); [lia|eauto].
  - intros fuel res Hres.
    pose proof (get_border_strips_sound lam m Hpos Hsort Hsmall ltac:(lia)
                  fuel res Hres) as Hgood.
    eapply Forall_impl; [exact Hgood|].
    intros p Hp. apply good_border_strip_of; done.
Qed.

Lemma enumerated_pairs_are_border_strips_witness :
  (exists res, get_border_strips (strip_fuel [3; 3; 1]) [3; 3; 1] 2 = Ok res) /\
  forall fuel res, get_border_strips fuel [3; 3; 1] 2 = Ok res ->
    Forall (border_strip_of [3; 3; 1] 2) res.
Proof.
  apply (enumerated_pairs_are_border_strips [3; 3; 1] 2).
  - repeat constructor.
  - intros [|[|i]] Hi; simpl in *; lia.
  - vm_compute. reflexivity.
  - lia.
Defined.

(** ** The cache *)

Lemma cache_row_cached lam rho ct : cache_row lam ct !! rho = cached ct lam rho.
Proof.
  unfold cache_row, cached. destruct (character_values ct !! lam); [done|].
  simpl. apply lookup_empty.
Qed.

Lemma cached_touch lam ct l r : cached (touch_row lam ct) l r = cached ct l r.
Proof.
  unfold cached at 1. unfold touch_row. simpl.
  destruct (decide (lam = l)) as [->|Hne].
  - rewrite lookup_insert_eq. simpl. apply cache_row_cached.
  - rewrite lookup_insert_ne by done. done.
Qed.

Lemma cached_store_eq lam rho v ct :
  cached (store_value lam rho v ct) lam rho = Some v.
Proof.
  unfold cached, store_value. simpl. rewrite lookup_insert_eq. simpl.
  apply lookup_insert_eq.
Qed.

Lemma cached_store_ne lam rho v ct l r :
  (l, r) <> (lam, rho) ->
  cached (store_value lam rho v ct) l r = cached ct l r.
Proof.
  intros Hne. unfold cached at 1. unfold store_value. simpl.
  destruct (decide (lam = l)) as [->|Hl].
  - rewrite lookup_insert_eq. simpl.
    rewrite lookup_insert_ne by congruence. apply cache_row_cached.
  - rewrite lookup_insert_ne by done. done.
Qed.

(** Touching a row that holds a value changes nothing. *)
Lemma touch_row_id lam rho v ct :
  cached ct lam rho = Some v -> touch_row lam ct = ct.
Proof.
  unfold cached, touch_row, cache_row. intros H.
  destruct (character_values ct !! lam) as [inner|] eqn:Hrow; [|done].
  simpl. rewrite insert_id by done. destruct ct. done.
Qed.

(** The ways in which a call of [char_value] returns. *)
Lemma char_value_cases lfuel fuel lam rho ct v ct' :
  char_value lfuel (S fuel) lam rho ct = Ok (v, ct') ->
  (Sum (correct_partition lam) < 2 /\ v = 1 /\ ct' = ct) \/
  (2 <= Sum (correct_partition lam) /\
   cached ct (correct_partition lam) (correct_partition rho) = Some v /\
   ct' = touch_row (correct_partition lam) ct) \/
  (2 <= Sum (correct_partition lam) /\
   cached ct (correct_partition lam) (correct_partition rho) = None /\
   exists rho0 tail border_strips ct1,
     correct_partition rho = rho0 :: tail /\
     get_border_strips lfuel (correct_partition lam) (wrap_int rho0)
     = Ok border_strips /\
     sum_strips (char_value lfuel fuel) tail border_strips 0
       (touch_row (correct_partition lam) ct) = Ok (v, ct1) /\
     ct' = store_value (correct_partition lam) (correct_partition rho) v ct1).
Proof.
  simpl. destruct (Z.ltb_spec (Sum (correct_partition lam)) 2) as [Hlt|Hge].
  { intros [= <- <-]. left. done. }
  intros H. right. revert H.
  rewrite cache_row_cached, cached_touch.
  destruct (cached ct (correct_partition lam) (correct_partition rho))
    as [value|] eqn:Hc.
  { intros [= <- <-]. left. done. }
  intros H. right. split; [done|]. split; [done|].
  destruct (correct_partition rho) as [|rho0 tail] eqn:Hrho; [done|].
  destruct (get_border_strips lfuel (correct_partition lam) (wrap_int rho0))
    as [border_strips| |] eqn:Hstrips; simpl in H; [|done|done].
  destruct (sum_strips _ _ _ _ _) as [[res ct1]| |] eqn:Hsum; simpl in H;
    [|done|done].
  injection H as <- <-. exists rho0, tail, border_strips, ct1. done.
Qed.

(** A property of the state that touching and storing keep is kept by
    [char_value]. *)
Lemma sum_strips_keeps (P : CharTable -> Prop) rec tail :
  (forall sub ct v ct', P ct -> rec sub tail ct = Ok (v, ct') -> P ct') ->
  forall border_strips acc ct res ct',
    P ct -> sum_strips rec tail border_strips acc ct = Ok (res, ct') -> P ct'.
Proof.
  intros Hrec. induction border_strips as [|strip rest IH];
    intros acc ct res ct' HP; simpl.
  - intros [= _ <-]. done.
  - destruct (rec _ tail ct) as [[value ct1]| |] eqn:Hcall; simpl; [|done|done].
    apply IH. eapply Hrec; done.
Qed.

Lemma char_value_keeps (P : CharTable -> Prop) :
  (forall lam ct, P ct -> P (touch_row (correct_partition lam) ct)) ->
  (forall lam rho v ct, P ct ->
     P (store_value (correct_partition lam) (correct_partition rho) v ct)) ->
  forall lfuel fuel lam rho ct v ct',
    P ct -> char_value lfuel fuel lam rho ct = Ok (v, ct') -> P ct'.
Proof.
  intros Htouch Hstore lfuel fuel.
  induction fuel as [|fuel IH]; intros lam rho ct v ct' HP Hcall; [done|].
  apply char_value_cases in Hcall
    as [(_ & _ & ->)|[(_ & _ & ->)|(_ & _ & rho0 & tail & strips & ct1 & _ & _
                                    & Hsum & ->)]]; [done|auto|].
  apply Hstore. eapply sum_strips_keeps; [|apply Htouch, HP|exact Hsum].
  intros sub ct2 v2 ct2' HP2 Hcall2. eapply IH; done.
Qed.

Lemma char_value_partitions lfuel fuel lam rho ct v ct' :
  char_value lfuel fuel lam rho ct = Ok (v, ct') ->
  partitions ct' = partitions ct.
Proof.
  apply (char_value_keeps (fun c => partitions c = partitions ct)); done.
Qed.

(** ** Stored partitions have positive parts *)

Lemma insert_desc_positive x l :
  0 < x -> positive_parts l -> positive_parts (insert_desc x l).
Proof.
  intros Hx. induction 1 as [|y l Hy Hl IH]; simpl.
  - repeat constructor. done.
  - destruct (y <? x); repeat constructor; done.
Qed.

Lemma sort_desc_positive l : positive_parts l -> positive_parts (sort_desc l).
Proof.
  induction 1 as [|x l Hx Hl IH]; [constructor|].
  simpl. apply insert_desc_positive; done.
Qed.

Lemma unique_elem (x : list Z) l : x ∈ unique l -> x ∈ l.
Proof.
  induction l as [|y l IH]; [done|]. simpl.
  destruct l as [|z l]; [done|].
  case_decide as Heq.
  - intros Hx. right. auto.
  - intros [->|Hx]%elem_of_cons; [left|right; auto].
Qed.

Lemma partitions_of_num_positive (parts : list (list Partition)) :
  Z.of_nat (length parts) < 2 ^ 64 ->
  Forall (Forall positive_parts) parts ->
  Forall positive_parts (partitions_of_num parts (length parts)).
Proof.
  intros Hlen Hparts. apply Forall_forall. intros p Hp.
  apply unique_elem, list_elem_of_In, in_flat_map in Hp
    as (index & Hindex & Hp).
  apply in_map_iff in Hp as (q & <- & Hq).
  apply in_seq in Hindex.
  apply sort_desc_positive, Forall_app. split.
  - rewrite Forall_lookup in Hparts.
    pose proof (Hparts index (parts !!! index)) as Hrow.
    rewrite Forall_forall in Hrow. apply Hrow.
    + apply list_lookup_lookup_total_lt. lia.
    + apply list_elem_of_In. done.
  - repeat constructor. rewrite wrap_size_small; lia.
Qed.

Lemma extend_partitions_positive (k : nat) (parts : list (list Partition)) :
  Z.of_nat (length parts + k) <= 2 ^ 64 ->
  Forall (Forall positive_parts) parts ->
  Forall (Forall positive_parts) (extend_partitions k parts).
Proof.
  revert parts. induction k as [|k IH]; intros parts Hlen Hparts; [done|].
  simpl. apply IH.
  - rewrite length_app. simpl. lia.
  - apply Forall_app. split; [done|]. repeat constructor.
    apply partitions_of_num_positive; [lia|done].
Qed.

Lemma calculate_partitions_cache n ct ps ct' :
  calculate_partitions n ct = Ok (ps, ct') ->
  character_values ct' = character_values ct.
Proof.
  unfold calculate_partitions. destruct (_ !! n); [|done].
  intros [= _ <-]. done.
Qed.

Lemma calculate_partitions_positive n ct ps ct' :
  calculate_partitions n ct = Ok (ps, ct') ->
  all_positive ct -> all_positive ct'.
Proof.
  intros Hcall [Hcache Hparts].
  pose proof (calculate_partitions_cache _ _ _ _ Hcall) as Hsame.
  split; [rewrite Hsame; done|].
  revert Hcall. unfold calculate_partitions.
  set (bound := Z.to_nat (wrap_size (Z.of_nat n + 1))).
  destruct (_ !! n); [|done]. intros [= _ <-]. simpl.
  destruct (decide (bound - length (partitions ct) = 0)%nat) as [->|Hpos];
    [done|].
  apply extend_partitions_positive; [|done].
  assert (Z.of_nat bound < 2 ^ 64); [|lia].
  unfold bound, wrap_size.
  pose proof (Z.mod_pos_bound (Z.of_nat n + 1) (2 ^ 64) ltac:(lia)). lia.
Qed.

Lemma touch_row_positive lam ct :
  all_positive ct -> all_positive (touch_row (correct_partition lam) ct).
Proof.
  intros [Hcache Hparts]. split; [|done]. simpl.
  intros l inner Hl. destruct (decide (correct_partition lam = l)) as [<-|Hne].
  - rewrite lookup_insert_eq in Hl. injection Hl as <-.
    split; [apply correct_partition_positive|].
    intros rho v Hrho. unfold cache_row in Hrho.
    destruct (character_values ct !! correct_partition lam) as [inner|] eqn:Hi;
      simpl in Hrho; [|by rewrite lookup_empty in Hrho].
    eapply Hcache; done.
  - rewrite lookup_insert_ne in Hl by done. eapply Hcache; done.
Qed.

Lemma store_value_positive lam rho v ct :
  all_positive ct ->
  all_positive
    (store_value (correct_partition lam) (correct_partition rho) v ct).
Proof.
  intros [Hcache Hparts]. split; [|done]. simpl.
  intros l inner Hl. destruct (decide (correct_partition lam = l)) as [<-|Hne].
  - rewrite lookup_insert_eq in Hl. injection Hl as <-.
    split; [apply correct_partition_positive|].
    intros r w Hr. destruct (decide (correct_partition rho = r)) as [<-|Hr'].
    { apply correct_partition_positive. }
    rewrite lookup_insert_ne in Hr by done. unfold cache_row in Hr.
    destruct (character_values ct !! correct_partition lam) as [inner|] eqn:Hi;
      simpl in Hr; [|by rewrite lookup_empty in Hr].
    eapply Hcache; done.
  - rewrite lookup_insert_ne in Hl by done. eapply Hcache; done.
Qed.

Lemma table_row_keeps (P : CharTable -> Prop) lfuel fuel lam :
  (forall rho ct v ct',
     P ct -> char_value lfuel fuel lam rho ct = Ok (v, ct') -> P ct') ->
  forall rhos ct cvs ct',
    P ct -> table_row lfuel fuel lam rhos ct = Ok (cvs, ct') -> P ct'.
Proof.
  intros Hcall. induction rhos as [|rho rest IH]; intros ct cvs ct' HP; simpl.
  - intros [= _ <-]. done.
  - destruct (char_value _ _ _ _ _) as [[cv ct1]| |] eqn:H1; simpl;
      [|done|done].
    destruct (table_row _ _ _ _ _) as [[cvs1 ct2]| |] eqn:H2; simpl;
      [|done|done].
    intros [= _ <-]. eapply IH; [|exact H2]. eapply Hcall; done.
Qed.

Lemma table_rows_keeps (P : CharTable -> Prop) lfuel fuel :
  (forall lam rho ct v ct',
     P ct -> char_value lfuel fuel lam rho ct = Ok (v, ct') -> P ct') ->
  forall lams rhos ct rows ct',
    P ct -> table_rows lfuel fuel lams rhos ct = Ok (rows, ct') -> P ct'.
Proof.
  intros Hcall. induction lams as [|lam rest IH]; intros rhos ct rows ct' HP;
    simpl.
  - intros [= _ <-]. done.
  - destruct (table_row _ _ _ _ _) as [[r ct1]| |] eqn:H1; simpl;
      [|done|done].
    destruct (table_rows _ _ _ _ _) as [[rs ct2]| |] eqn:H2; simpl;
      [|done|done].
    intros [= _ <-]. eapply IH; [|exact H2].
    eapply table_row_keeps; [|exact HP|exact H1]. intros. eapply Hcall; done.
Qed.

Lemma character_table_keeps (P : CharTable -> Prop) lfuel fuel n :
  (forall ps ct ct', P ct -> calculate_partitions n ct = Ok (ps, ct') -> P ct') ->
  (forall lam rho ct v ct',
     P ct -> char_value lfuel fuel lam rho ct = Ok (v, ct') -> P ct') ->
  forall ct table ct',
    P ct -> character_table lfuel fuel n ct = Ok (table, ct') -> P ct'.
Proof.
  intros Hcalc Hcall ct table ct' HP. unfold character_table.
  destruct (calculate_partitions n ct) as [[ps ct1]| |] eqn:H1; simpl;
    [|done|done].
  apply table_rows_keeps; [done|]. eapply Hcalc; done.
Qed.

Lemma char_value_positive lfuel fuel lam rho ct v ct' :
  all_positive ct -> char_value lfuel fuel lam rho ct = Ok (v, ct') ->
  all_positive ct'.
Proof.
  apply (char_value_keeps all_positive).
  - intros. apply touch_row_positive. done.
  - intros. apply store_value_positive. done.
Qed.

(** C9: in every state an object can reach through [char_value],
    [character_table] and [calculate_partitions], every key of the cache,
    outer and inner, and every partition of the partition table has positive
    parts only. *)
Theorem stored_partitions_positive (ct : CharTable) :
  reachable ct -> all_positive ct.
Proof.
  induction 1 as [|ct lfuel fuel lam rho v ct' _ IH Hcall
                  |ct lfuel fuel n table ct' _ IH Hcall
                  |ct n ps ct' _ IH Hcall].
  - split.
    + intros lam inner H. simpl in H. by rewrite lookup_empty in H.
    + simpl. repeat constructor.
  - eapply char_value_positive; done.
  - eapply (character_table_keeps all_positive); [| |exact IH|exact Hcall].
    + intros. eapply calculate_partitions_positive; done.
    + intros. eapply char_value_positive; done.
  - eapply calculate_partitions_positive; done.
Qed.

Lemma stored_partitions_positive_witness :
  exists table ct,
    character_table 3 3 3 new_CharTable = Ok (table, ct) /\ all_positive ct.
Proof.
  destruct (character_table 3 3 3 new_CharTable) as [[table ct]| |] eqn:H;
    [|vm_compute in H; discriminate..].
  exists table, ct. split; [reflexivity|].
  apply (stored_partitions_positive ct).
  exact (reach_character_table new_CharTable 3 3 3 table ct reach_new H).
Defined.

(** ** The cache only grows *)

Lemma cache_le_refl ct : cache_le ct ct.
Proof. intros lam rho v H. done. Qed.

Lemma cache_le_trans ct1 ct2 ct3 :
  cache_le ct1 ct2 -> cache_le ct2 ct3 -> cache_le ct1 ct3.
Proof. intros H12 H23 lam rho v H. auto. Qed.

Lemma cache_le_touch lam ct : cache_le ct (touch_row lam ct).
Proof. intros l r v H. rewrite cached_touch. done. Qed.

Lemma sum_strips_grows rec tail :
  (forall sub ct v ct', rec sub tail ct = Ok (v, ct') -> cache_le ct ct') ->
  forall border_strips acc ct res ct',
    sum_strips rec tail border_strips acc ct = Ok (res, ct') -> cache_le ct ct'.
Proof.
  intros Hrec. induction border_strips as [|strip rest IH];
    intros acc ct res ct'; simpl.
  - intros [= _ <-]. apply cache_le_refl.
  - destruct (rec _ tail ct) as [[value ct1]| |] eqn:Hcall; simpl; [|done|done].
    intros Hrest. eapply cache_le_trans; [eapply Hrec; done|].
    eapply IH; done.
Qed.

(** A value that is in the cache stays there, unchanged. *)
Lemma char_value_grows lfuel fuel lam rho ct v ct' :
  char_value lfuel fuel lam rho ct = Ok (v, ct') -> cache_le ct ct'.
Proof.
  revert lam rho ct v ct'.
  induction fuel as [|fuel IH]; intros lam rho ct v ct' Hcall; [done|].
  apply char_value_cases in Hcall
    as [(_ & _ & ->)|[(_ & _ & ->)|(_ & Hmiss & rho0 & tail & strips & ct1 & _
                                    & _ & Hsum & ->)]].
  - apply cache_le_refl.
  - apply cache_le_touch.
  - apply sum_strips_grows in Hsum; [|intros; eapply IH; done].
    intros l r w Hw.
    destruct (decide ((l, r) = (correct_partition lam, correct_partition rho)))
      as [[= -> ->]|Hne]; [congruence|].
    rewrite cached_store_ne by done.
    apply Hsum. rewrite cached_touch. done.
Qed.

(** After a call the entry is settled... *)
Lemma char_value_settles lfuel fuel lam rho ct v ct' :
  char_value lfuel fuel lam rho ct = Ok (v, ct') -> settled ct' lam rho v.
Proof.
  destruct fuel as [|fuel]; [done|]. intros Hcall. unfold settled.
  apply char_value_cases in Hcall
    as [(Hlt & -> & ->)|[(Hge & Hhit & ->)|(Hge & _ & rho0 & tail & strips & ct1
                                           & _ & _ & _ & ->)]].
  - destruct (Z.ltb_spec (Sum (correct_partition lam)) 2); [done|lia].
  - destruct (Z.ltb_spec (Sum (correct_partition lam)) 2); [lia|].
    rewrite cached_touch. done.
  - destruct (Z.ltb_spec (Sum (correct_partition lam)) 2); [lia|].
    apply cached_store_eq.
Qed.

(** ... and stays so while the cache grows. *)
Lemma settled_le ct ct' lam rho v :
  settled ct lam rho v -> cache_le ct ct' -> settled ct' lam rho v.
Proof. unfold settled. destruct (_ <? _); [done|]. intros H Hle. auto. Qed.

(** A call on a settled entry returns its value at once: it needs no fuel
    for the enumerator, fuel for one call only, and leaves the state as it
    is. *)
Lemma char_value_settled lfuel fuel lam rho ct v :
  settled ct lam rho v -> char_value lfuel (S fuel) lam rho ct = Ok (v, ct).
Proof.
  unfold settled. simpl. destruct (_ <? _); [intros ->; done|].
  intros Hhit. rewrite cache_row_cached, cached_touch, Hhit.
  rewrite (touch_row_id _ _ _ _ Hhit). done.
Qed.

Lemma table_row_settles lfuel fuel lam rhos ct cvs ct' :
  table_row lfuel fuel lam rhos ct = Ok (cvs, ct') ->
  cache_le ct ct' /\ Forall2 (settled ct' lam) rhos cvs.
Proof.
  revert ct cvs ct'. induction rhos as [|rho rest IH]; intros ct cvs ct'; simpl.
  - intros [= <- <-]. split; [apply cache_le_refl|constructor].
  - destruct (char_value _ _ _ _ _) as [[cv ct1]| |] eqn:H1; simpl;
      [|done|done].
    destruct (table_row _ _ _ _ _) as [[cvs1 ct2]| |] eqn:H2; simpl;
      [|done|done].
    intros [= <- <-]. destruct (IH _ _ _ H2) as [Hle Hset].
    split.
    + eapply cache_le_trans; [eapply char_value_grows; done|done].
    + constructor; [|done].
      eapply settled_le; [eapply char_value_settles; done|done].
Qed.

Lemma table_row_settled lfuel fuel lam rhos ct cvs :
  Forall2 (settled ct lam) rhos cvs ->
  table_row lfuel (S fuel) lam rhos ct = Ok (cvs, ct).
Proof.
  induction 1 as [|rho cv rest cvs Hset _ IH]; [done|].
  cbn [table_row]. rewrite (char_value_settled _ _ _ _ _ _ Hset). simpl.
  rewrite IH. done.
Qed.

Lemma table_rows_settles lfuel fuel lams rhos ct rows ct' :
  table_rows lfuel fuel lams rhos ct = Ok (rows, ct') ->
  cache_le ct ct' /\
  Forall2 (fun lam cvs => Forall2 (settled ct' lam) rhos cvs) lams rows.
Proof.
  revert ct rows ct'. induction lams as [|lam rest IH]; intros ct rows ct';
    simpl.
  - intros [= <- <-]. split; [apply cache_le_refl|constructor].
  - destruct (table_row _ _ _ _ _) as [[r ct1]| |] eqn:H1; simpl;
      [|done|done].
    destruct (table_rows _ _ _ _ _) as [[rs ct2]| |] eqn:H2; simpl;
      [|done|done].
    intros [= <- <-]. destruct (IH _ _ _ H2) as [Hle Hset].
    destruct (table_row_settles _ _ _ _ _ _ _ H1) as [Hle1 Hset1].
    split; [eapply cache_le_trans; done|].
    constructor; [|done].
    eapply Forall2_impl; [exact Hset1|].
    intros rho cv Hs. eapply settled_le; done.
Qed.

Lemma table_rows_settled lfuel fuel lams rhos ct rows :
  Forall2 (fun lam cvs => Forall2 (settled ct lam) rhos cvs) lams rows ->
  table_rows lfuel (S fuel) lams rhos ct = Ok (rows, ct).
Proof.
  induction 1 as [|lam cvs rest rows Hset _ IH]; [done|].
  cbn [table_rows]. rewrite (table_row_settled _ _ _ _ _ _ Hset). simpl.
  rewrite IH. done.
Qed.

Lemma extend_partitions_length (k : nat) (parts : list (list Partition)) :
  length (extend_partitions k parts) = (length parts + k)%nat.
Proof.
  revert parts. induction k as [|k IH]; intros parts; simpl; [lia|].
  rewrite IH, length_app. simpl. lia.
Qed.

(** A second call of the generator finds the table long enough. *)
Lemma calculate_partitions_again n ct ps ct1 ct2 :
  calculate_partitions n ct = Ok (ps, ct1) ->
  partitions ct2 = partitions ct1 ->
  calculate_partitions n ct2 = Ok (ps, ct2).
Proof.
  unfold calculate_partitions.
  set (bound := Z.to_nat (wrap_size (Z.of_nat n + 1))).
  destruct (_ !! n) as [ps'|] eqn:Hn; [|done].
  intros [= <- <-] Hsame. simpl in Hsame. rewrite Hsame.
  rewrite extend_partitions_length.
  replace (bound - (length (partitions ct) + (bound - length (partitions ct))))%nat
    with 0%nat by lia.
  simpl. rewrite Hn. rewrite <- Hsame. destruct ct2. done.
Qed.

(** C8: when [character_table(n)] has returned, a second call on the same
    object returns the same matrix.  The second call needs no fuel for the
    enumerator and fuel for one level of [char_value] only, and leaves the
    object as it is: every entry is a base case or is read from the cache,
    and nothing is computed or stored again. *)
Theorem character_table_idempotent lfuel fuel n ct table ct' :
  character_table lfuel fuel n ct = Ok (table, ct') ->
  forall lfuel2 fuel2,
    character_table lfuel2 (S fuel2) n ct' = Ok (table, ct').
Proof.
  unfold character_table. intros Hfirst lfuel2 fuel2.
  destruct (calculate_partitions n ct) as [[ps ct1]| |] eqn:Hcalc;
    simpl in Hfirst; [|done|done].
  assert (partitions ct' = partitions ct1) as Hparts.
  { eapply (table_rows_keeps (fun c => partitions c = partitions ct1));
      [|reflexivity|exact Hfirst].
    intros lam rho c v c' Hc Hcall.
    rewrite (char_value_partitions _ _ _ _ _ _ _ Hcall). done. }
  rewrite (calculate_partitions_again _ _ _ _ _ Hcalc Hparts). simpl.
  apply table_rows_settled.
  apply table_rows_settles in Hfirst as [_ Hset]. done.
Qed.

Lemma character_table_idempotent_witness :
  exists table ct',
    character_table 3 3 3 new_CharTable = Ok (table, ct') /\
    character_table 0 1 3 ct' = Ok (table, ct').
Proof.
  destruct (character_table 3 3 3 new_CharTable) as [[table ct']| |] eqn:H;
    [|vm_compute in H; discriminate..].
  exists table, ct'. split; [reflexivity|].
  exact (character_table_idempotent 3 3 3 new_CharTable table ct' H 0%nat 0%nat).
Defined.

(** ** The recursion without the cache *)

Lemma chi_sum_mono (rec rec' : Partition -> Partition -> outcome Z) tail :
  (forall sub v, rec sub tail = Ok v -> rec' sub tail = Ok v) ->
  forall border_strips acc v,
    chi_sum rec tail border_strips acc = Ok v ->
    chi_sum rec' tail border_strips acc = Ok v.
Proof.
  intros Hrec. induction border_strips as [|strip rest IH]; intros acc v;
    simpl; [done|].
  destruct (rec _ tail) as [value| |] eqn:Hcall; simpl; [|done|done].
  rewrite (Hrec _ _ Hcall). simpl. apply IH.
Qed.

Lemma chi_mono lfuel fuel lfuel' fuel' lam rho v :
  chi lfuel fuel lam rho = Ok v ->
  (lfuel <= lfuel')%nat -> (fuel <= fuel')%nat ->
  chi lfuel' fuel' lam rho = Ok v.
Proof.
  intros H Hl. revert fuel' lam rho v H.
  induction fuel as [|fuel IH]; intros fuel' lam rho v H Hf; [done|].
  destruct fuel' as [|fuel']; [lia|]. simpl in *.
  destruct (_ <? _); [done|].
  destruct (correct_partition rho) as [|rho0 tail]; [done|].
  destruct (get_border_strips lfuel _ _) as [strips| |] eqn:Hs; simpl in H;
    [|done|done].
  rewrite (get_border_strips_mono _ _ _ _ _ Hs Hl). simpl.
  eapply chi_sum_mono; [|exact H]. intros sub w Hw. apply IH; [done|lia].
Qed.

Lemma chi_det lfuel fuel lfuel' fuel' lam rho v v' :
  chi lfuel fuel lam rho = Ok v -> chi lfuel' fuel' lam rho = Ok v' -> v = v'.
Proof.
  intros H H'.
  apply (chi_mono _ _ (Nat.max lfuel lfuel') (Nat.max fuel fuel')) in H; [|lia..].
  apply (chi_mono _ _ (Nat.max lfuel lfuel') (Nat.max fuel fuel')) in H'; [|lia..].
  congruence.
Qed.

Lemma chi_normalize lfuel fuel lam rho :
  chi lfuel fuel (correct_partition lam) (correct_partition rho)
  = chi lfuel fuel lam rho.
Proof. destruct fuel; [done|]. simpl. rewrite !correct_partition_idemp. done. Qed.

(** ** The cache agrees with the recursion *)

Lemma cache_sound_touch lam ct : cache_sound ct -> cache_sound (touch_row lam ct).
Proof. intros H l r v. rewrite cached_touch. apply H. Qed.

Lemma sum_strips_sound rec tail :
  (forall sub ct v ct',
     cache_sound ct -> rec sub tail ct = Ok (v, ct') ->
     cache_sound ct' /\ exists lfuel fuel, chi lfuel fuel sub tail = Ok v) ->
  forall border_strips acc ct res ct',
    cache_sound ct ->
    sum_strips rec tail border_strips acc ct = Ok (res, ct') ->
    cache_sound ct' /\
    exists lfuel fuel, chi_sum (chi lfuel fuel) tail border_strips acc = Ok res.
Proof.
  intros Hrec. induction border_strips as [|strip rest IH];
    intros acc ct res ct' Hct; simpl.
  - intros [= <- <-]. split; [done|]. exists 0%nat, 0%nat. done.
  - destruct (rec _ tail ct) as [[value ct1]| |] eqn:Hcall; simpl; [|done|done].
    intros Hrest.
    destruct (Hrec _ _ _ _ Hct Hcall) as (Hct1 & lf1 & f1 & Hv).
    destruct (IH _ _ _ _ Hct1 Hrest) as (Hct' & lf2 & f2 & Hres).
    split; [done|]. exists (Nat.max lf1 lf2), (Nat.max f1 f2).
    rewrite (chi_mono _ _ (Nat.max lf1 lf2) (Nat.max f1 f2) _ _ _ Hv) by lia.
    simpl. eapply chi_sum_mono; [|exact Hres].
    intros sub w Hw. eapply chi_mono; [exact Hw|lia|lia].
Qed.

Lemma char_value_sound lfuel fuel lam rho ct v ct' :
  cache_sound ct -> char_value lfuel fuel lam rho ct = Ok (v, ct') ->
  cache_sound ct' /\ exists lfuel' fuel', chi lfuel' fuel' lam rho = Ok v.
Proof.
  revert lam rho ct v ct'.
  induction fuel as [|fuel IH]; intros lam rho ct v ct' Hct Hcall; [done|].
  apply char_value_cases in Hcall
    as [(Hlt & -> & ->)|[(Hge & Hhit & ->)|(Hge & Hmiss & rho0 & tail & strips
                                           & ct1 & Hrho & Hstrips & Hsum & ->)]].
  - split; [done|]. exists 0%nat, 1%nat. simpl.
    destruct (Z.ltb_spec (Sum (correct_partition lam)) 2); [done|lia].
  - split; [apply cache_sound_touch; done|].
    destruct (Hct _ _ _ Hhit) as (_ & _ & lf & f & Hchi).
    exists lf, f. rewrite <- chi_normalize. done.
  - apply sum_strips_sound in Hsum as (Hct1 & lf & f & Hchi);
      [|intros; eapply IH; done|apply cache_sound_touch; done].
    assert (chi (Nat.max lfuel lf) (S f) lam rho = Ok v) as Hv.
    { simpl. destruct (Z.ltb_spec (Sum (correct_partition lam)) 2); [lia|].
      rewrite Hrho.
      rewrite (get_border_strips_mono _ (Nat.max lfuel lf) _ _ _ Hstrips) by lia.
      simpl. eapply chi_sum_mono; [|exact Hchi].
      intros sub w Hw. eapply chi_mono; [exact Hw|lia|lia]. }
    split; [|eauto].
    intros l r w.
    destruct (decide ((l, r) = (correct_partition lam, correct_partition rho)))
      as [[= -> ->]|Hne].
    + rewrite cached_store_eq. intros [= <-].
      rewrite !correct_partition_idemp. split; [done|]. split; [done|].
      exists (Nat.max lfuel lf), (S f). rewrite chi_normalize. done.
    + rewrite cached_store_ne by done. apply Hct1.
Qed.

Lemma calculate_partitions_sound n ct ps ct' :
  cache_sound ct -> calculate_partitions n ct = Ok (ps, ct') -> cache_sound ct'.
Proof.
  intros Hct Hcall l r v. unfold cached.
  rewrite (calculate_partitions_cache _ _ _ _ Hcall). apply Hct.
Qed.

Lemma reachable_sound ct : reachable ct -> cache_sound ct.
Proof.
  induction 1 as [|ct lfuel fuel lam rho v ct' _ IH Hcall
                  |ct lfuel fuel n table ct' _ IH Hcall
                  |ct n ps ct' _ IH Hcall].
  - intros l r v H. unfold cached in H. simpl in H.
    by rewrite lookup_empty in H.
  - eapply char_value_sound; done.
  - eapply (character_table_keeps cache_sound); [| |exact IH|exact Hcall].
    + intros. eapply calculate_partitions_sound; done.
    + intros. eapply char_value_sound; done.
  - eapply calculate_partitions_sound; done.
Qed.

(** On a sound cache the evaluator returns what the recursion gives. *)
Lemma sum_strips_complete rec recp tail :
  (forall sub ct v,
     cache_sound ct -> recp sub tail = Ok v ->
     exists ct', rec sub tail ct = Ok (v, ct') /\ cache_sound ct') ->
  forall border_strips acc ct v,
    cache_sound ct -> chi_sum recp tail border_strips acc = Ok v ->
    exists ct', sum_strips rec tail border_strips acc ct = Ok (v, ct').
Proof.
  intros Hrec. induction border_strips as [|strip rest IH];
    intros acc ct v Hct; simpl.
  - intros [= <-]. eauto.
  - destruct (recp _ tail) as [value| |] eqn:Hcall; simpl; [|done|done].
    intros Hrest. destruct (Hrec _ ct _ Hct Hcall) as (ct1 & -> & Hct1).
    simpl. eapply IH; done.
Qed.

Lemma char_value_complete lfuel fuel lam rho ct v :
  cache_sound ct -> chi lfuel fuel lam rho = Ok v ->
  exists ct', char_value lfuel fuel lam rho ct = Ok (v, ct').
Proof.
  revert lam rho ct v.
  induction fuel as [|fuel IH]; intros lam rho ct v Hct Hchi; [done|].
  pose proof Hchi as Hchi0. simpl in Hchi |- *.
  destruct (Z.ltb_spec (Sum (correct_partition lam)) 2) as [Hlt|Hge].
  { injection Hchi as <-. eauto. }
  rewrite cache_row_cached, cached_touch.
  destruct (cached ct (correct_partition lam) (correct_partition rho))
    as [w|] eqn:Hc.
  { destruct (Hct _ _ _ Hc) as (_ & _ & lf & f & Hw).
    rewrite chi_normalize in Hw.
    rewrite (chi_det _ _ _ _ _ _ _ _ Hchi0 Hw). eauto. }
  destruct (correct_partition rho) as [|rho0 tail]; [done|].
  destruct (get_border_strips lfuel _ _) as [strips| |]; simpl in *;
    [|done|done].
  destruct (sum_strips_complete (char_value lfuel fuel) (chi lfuel fuel) tail)
    with (border_strips := strips) (acc := 0)
         (ct := touch_row (correct_partition lam) ct) (v := v)
    as (ct1 & ->); [|apply cache_sound_touch; done|done|simpl; eauto].
  intros sub ct2 w Hct2 Hw. destruct (IH _ _ _ _ Hct2 Hw) as (ct3 & Hcall).
  exists ct3. split; [done|]. eapply char_value_sound; done.
Qed.

(** ** When no border strip exists *)

Lemma chi_no_strips lfuel' fuel' lfuel lam rho rho0 tail v :
  chi lfuel' fuel' lam rho = Ok v ->
  2 <= Sum (correct_partition lam) ->
  correct_partition rho = rho0 :: tail ->
  get_border_strips lfuel (correct_partition lam) (wrap_int rho0) = Ok [] ->
  v = 0.
Proof.
  intros Hchi Hge Hrho Hnone. destruct fuel' as [|fuel']; [done|].
  simpl in Hchi.
  destruct (Z.ltb_spec (Sum (correct_partition lam)) 2); [lia|].
  rewrite Hrho in Hchi.
  destruct (get_border_strips lfuel' _ _) as [strips| |] eqn:Hs; simpl in Hchi;
    [|done|done].
  rewrite (get_border_strips_det _ _ _ _ _ _ Hs Hnone) in Hchi.
  simpl in Hchi. congruence.
Qed.

(** C10: on an object that has only been used through its member
    functions, when the normalised [lambda] has sum at least 2 and the
    enumerator returns no pair for it and [rho[0]], [char_value] returns 0
    and the cache then holds 0 under the normalised key. *)
Theorem char_value_no_strips lfuel fuel lam rho rho0 tail ct :
  reachable ct ->
  2 <= Sum (correct_partition lam) ->
  correct_partition rho = rho0 :: tail ->
  get_border_strips lfuel (correct_partition lam) (wrap_int rho0) = Ok [] ->
  exists ct',
    char_value lfuel (S fuel) lam rho ct = Ok (0, ct') /\
    cached ct' (correct_partition lam) (correct_partition rho) = Some 0.
Proof.
  intros Hreach Hge Hrho Hnone. apply reachable_sound in Hreach.
  simpl. destruct (Z.ltb_spec (Sum (correct_partition lam)) 2); [lia|].
  rewrite cache_row_cached, cached_touch.
  destruct (cached ct (correct_partition lam) (correct_partition rho))
    as [w|] eqn:Hc.
  - destruct (Hreach _ _ _ Hc) as (_ & _ & lf & f & Hw).
    rewrite chi_normalize in Hw.
    rewrite (chi_no_strips _ _ _ _ _ _ _ _ Hw Hge Hrho Hnone) in *.
    eexists. split; [done|]. rewrite cached_touch. done.
  - rewrite Hrho, Hnone. simpl. eexists. split; [done|].
    rewrite <- Hrho. apply cached_store_eq.
Qed.

Lemma char_value_no_strips_witness :
  exists ct',
    char_value 2 1 [1; 1] [3] new_CharTable = Ok (0, ct') /\
    cached ct' [1; 1] [3] = Some 0.
Proof.
  apply (char_value_no_strips 2 0 [1; 1] [3] 3 [] new_CharTable).
  - exact reach_new.
  - vm_compute. discriminate.
  - reflexivity.
  - vm_compute. reflexivity.
Defined.

(** ** The recursion of [char_value] ends *)

Lemma total_correct_partition (l : list Z) :
  Forall (fun x => 0 <= x) l -> total (correct_partition l) = total l.
Proof.
  induction 1 as [|x l Hx Hl IH]; [done|].
  unfold correct_partition in *. rewrite filter_cons. case_decide.
  - rewrite !total_cons, IH. done.
  - rewrite total_cons, IH. lia.
Qed.

Lemma int_partition_Sum (l : list Z) : int_partition l -> Sum l = total l.
Proof.
  intros (Hpos & _ & Hsmall). apply Sum_total; [|lia].
  intros i Hi. pose proof (positive_parts_lookup l i Hpos Hi). lia.
Qed.

(** What is left after a good pair is a smaller partition. *)
Lemma good_pair_sub (L : list Z) (m : Z) p :
  non_increasing L -> total L < 2 ^ 31 -> 0 <= m -> good_pair L m p ->
  int_partition (correct_partition (partition p)) /\
  total (correct_partition (partition p)) = total L - m /\
  (length (correct_partition (partition p)) <= length L)%nat.
Proof.
  intros Hsort Hsmall Hm Hgood.
  pose proof (good_non_increasing L m p Hsort Hgood) as Hni.
  destruct Hgood as (Hl1 & Hl2 & Hsum & Htot & _).
  assert (total (partition p) = total L - m) as Htotal.
  { pose proof (total_zip_add (partition p) (border_strip p) ltac:(lia)) as Hz.
    rewrite (zip_add_eq (partition p) (border_strip p) L Hl1 Hl2) in Hz; [lia|].
    intros i Hi. apply Hsum. done. }
  assert (total (correct_partition (partition p)) = total L - m) as Hc.
  { rewrite total_correct_partition; [done|].
    apply Forall_lookup. intros i x Hx.
    pose proof (lookup_lt_Some _ _ _ Hx) as Hi. rewrite Hl1 in Hi.
    rewrite <- (list_lookup_total_correct _ _ _ Hx). apply Hsum. done. }
  split; [split; [apply correct_partition_positive|split]|split].
  - apply non_increasing_filter. done.
  - lia.
  - done.
  - unfold correct_partition. rewrite <- Hl1. apply length_filter.
Qed.

Lemma strip_fuel_sub (L : list Z) (m : Z) p :
  non_increasing L -> total L < 2 ^ 31 -> 0 <= m -> good_pair L m p ->
  (strip_fuel (correct_partition (partition p)) <= strip_fuel L)%nat.
Proof.
  intros Hsort Hsmall Hm Hgood.
  destruct (good_pair_sub L m p Hsort Hsmall Hm Hgood) as (_ & Ht & Hl).
  unfold strip_fuel. rewrite Ht. lia.
Qed.

Lemma sum_strips_ends rec tail border_strips :
  Forall (fun strip => forall ct,
            rec (correct_partition (partition strip)) tail ct <> OutOfFuel)
         border_strips ->
  forall acc ct, sum_strips rec tail border_strips acc ct <> OutOfFuel.
Proof.
  induction 1 as [|strip rest Hstrip _ IH]; intros acc ct; simpl; [done|].
  specialize (Hstrip ct).
  destruct (rec _ tail ct) as [[value ct1]| |]; simpl; [apply IH|done|done].
Qed.

Lemma sum_strips_returns rec tail border_strips :
  Forall (fun strip => forall ct, exists v ct',
            rec (correct_partition (partition strip)) tail ct = Ok (v, ct'))
         border_strips ->
  forall acc ct, exists v ct',
    sum_strips rec tail border_strips acc ct = Ok (v, ct').
Proof.
  induction 1 as [|strip rest Hstrip _ IH]; intros acc ct; simpl; [eauto|].
  destruct (Hstrip ct) as (value & ct1 & ->). simpl. apply IH.
Qed.

(** The pairs the evaluator gets from the enumerator. *)
Lemma char_value_strips lfuel lam rho0 :
  int_partition lam -> (strip_fuel lam <= lfuel)%nat ->
  exists border_strips,
    get_border_strips lfuel lam (wrap_int rho0) = Ok border_strips /\
    (wrap_int rho0 <= 0 -> border_strips = []) /\
    Forall (good_pair lam (wrap_int rho0)) border_strips.
Proof.
  intros (Hpos & Hsort & Hsmall) Hfuel.
  destruct (decide (wrap_int rho0 <= 0)) as [Hle|Hgt].
  - exists []. rewrite get_border_strips_nonpos by done. done.
  - pose proof (wrap_int_range rho0).
    assert (1 <= wrap_int rho0 < 2 ^ 31) as Hm1 by lia.
    destruct (get_border_strips_good lam (wrap_int rho0) Hpos Hsort Hsmall
                Hm1 lfuel Hfuel) as (res & Hres & Hgood).
    exists res. split; [done|]. split; [lia|done].
Qed.

Lemma char_value_ends lfuel fuel lam rho ct :
  int_partition (correct_partition lam) ->
  (strip_fuel (correct_partition lam) <= lfuel)%nat ->
  (length (correct_partition rho) < fuel)%nat ->
  char_value lfuel fuel lam rho ct <> OutOfFuel.
Proof.
  revert lam rho ct.
  induction fuel as [|fuel IH]; intros lam rho ct Hlam Hlfuel Hfuel; [lia|].
  simpl. destruct (_ <? _); [done|].
  destruct (_ !! _); [done|].
  destruct (correct_partition rho) as [|rho0 tail] eqn:Hrho; [done|].
  destruct (char_value_strips lfuel _ rho0 Hlam Hlfuel)
    as (strips & -> & Hnone & Hgood).
  simpl.
  match goal with |- context [sum_strips ?r ?t ?s ?a ?c] =>
    pose proof (sum_strips_ends r t s) as Hends;
    destruct (sum_strips r t s a c) as [[res ct1]| |] eqn:Hsum end;
    simpl; [done|done|].
  exfalso. eapply Hends; [|exact Hsum].
  destruct (decide (wrap_int rho0 <= 0)) as [Hle|Hgt];
    [rewrite (Hnone Hle); constructor|].
  destruct Hlam as (Hpos & Hsort & Hsmall).
  eapply Forall_impl; [exact Hgood|]. intros p Hp ct2.
  assert (0 <= wrap_int rho0) as Hm by lia.
  pose proof (good_pair_sub _ _ _ Hsort Hsmall Hm Hp) as (Hsub & _ & _).
  pose proof (strip_fuel_sub _ _ _ Hsort Hsmall Hm Hp).
  apply IH.
  - rewrite correct_partition_idemp. done.
  - rewrite correct_partition_idemp. lia.
  - pose proof (length_filter (fun item => 0 < item) tail).
    unfold correct_partition. simpl in Hfuel. lia.
Qed.

(** The log is a ghost: leaving it out gives [char_value]. *)
Lemma sum_strips_log_fst rec_log rec lam rho tail :
  (forall sub ct, (rec_log sub tail ct).1 = rec sub tail ct) ->
  forall border_strips acc ct,
    (sum_strips_log rec_log lam rho tail border_strips acc ct).1
    = sum_strips rec tail border_strips acc ct.
Proof.
  intros Hrec. induction border_strips as [|strip rest IH]; intros acc ct;
    [done|].
  cbn [sum_strips_log sum_strips]. rewrite <- Hrec.
  destruct (rec_log _ tail ct) as [[[value ct1]| |] log1]; [|done|done].
  cbn [fst mbind outcome_bind]. rewrite <- IH.
  destruct (sum_strips_log _ _ _ _ _ _ _) as [r log2]. done.
Qed.

Lemma char_value_log_fst lfuel fuel lam rho ct :
  (char_value_log lfuel fuel lam rho ct).1 = char_value lfuel fuel lam rho ct.
Proof.
  revert lam rho ct. induction fuel as [|fuel IH]; intros lam rho ct; [done|].
  cbn [char_value_log char_value].
  destruct (_ <? _); [done|].
  destruct (_ !! _) as [value|]; [done|].
  destruct (correct_partition rho) as [|rho0 tail]; [done|].
  destruct (get_border_strips _ _ _) as [strips| |]; [|done|done].
  cbn [mbind outcome_bind].
  rewrite <- (sum_strips_log_fst (char_value_log lfuel fuel)
                (char_value lfuel fuel) (correct_partition lam)
                (rho0 :: tail) tail (fun sub ct' => IH sub tail ct')).
  destruct (sum_strips_log _ _ _ _ _ _ _) as [[[res ct1]| |] log]; done.
Qed.

Lemma call_decreases_le (bound bound' : Z) (c : call) :
  bound <= bound' -> call_decreases bound c -> call_decreases bound' c.
Proof.
  intros Hle (rho0 & H1 & H2 & H3 & H4 & H5).
  exists rho0. repeat (split; [done|]). lia.
Qed.

(** Every call in the log is made on a strictly smaller partition. *)
Lemma sum_strips_log_calls rec_log (L : list Z) (m : Z) rho rho0 tail :
  non_increasing L -> int_partition L -> 1 <= m < 2 ^ 31 ->
  rho = rho0 :: tail -> 1 <= rho0 -> wrap_int rho0 = m ->
  (forall sub ct, int_partition (correct_partition sub) ->
     Forall (call_decreases (Sum (correct_partition sub)))
            (rec_log sub tail ct).2) ->
  forall border_strips acc ct,
    Forall (good_pair L m) border_strips ->
    Forall (call_decreases (Sum L))
           (sum_strips_log rec_log L rho tail border_strips acc ct).2.
Proof.
  intros Hsort HL Hm Hrho Hrho0 Hcast Hrec.
  pose proof HL as (_ & _ & Hsmall).
  induction border_strips as [|strip rest IH]; intros acc ct Hgood;
    [constructor|].
  apply Forall_cons in Hgood as [Hstrip Hrest].
  destruct (good_pair_sub L m strip Hsort Hsmall ltac:(lia) Hstrip)
    as (Hsub & Htot & _).
  assert (Sum (correct_partition (partition strip)) = Sum L - m) as Hsum.
  { rewrite (int_partition_Sum _ Hsub), (int_partition_Sum _ HL). done. }
  assert (call_decreases (Sum L)
            (mkCall L rho (correct_partition (partition strip)) tail))
    as Hthis.
  { exists rho0. simpl. rewrite correct_partition_idemp, Hcast.
    split; [done|]. split; [done|]. split; [done|]. split; lia. }
  assert (Forall (call_decreases (Sum L))
            (rec_log (correct_partition (partition strip)) tail ct).2)
    as Hnested.
  { eapply Forall_impl; [apply Hrec; rewrite correct_partition_idemp; done|].
    intros c. apply call_decreases_le.
    rewrite correct_partition_idemp. lia. }
  cbn [sum_strips_log].
  destruct (rec_log _ tail ct) as [[[value ct1]| |] log1]; simpl in Hnested.
  - specialize (IH (wrap_int
                      (acc + wrap_int
                         (MinusOnePow
                            (wrap_size
                               (Z.of_nat
                                  (length
                                     (correct_partition (border_strip strip)))
                                - 1)) * value))) ct1 Hrest).
    destruct (sum_strips_log _ _ _ _ _ _ _) as [r log2]. simpl in IH |- *.
    constructor; [done|]. apply Forall_app. done.
  - simpl. constructor; done.
  - simpl. constructor; done.
Qed.

Lemma char_value_log_calls lfuel fuel lam rho ct :
  int_partition (correct_partition lam) ->
  Forall (call_decreases (Sum (correct_partition lam)))
         (char_value_log lfuel fuel lam rho ct).2.
Proof.
  revert lam rho ct. induction fuel as [|fuel IH]; intros lam rho ct Hlam;
    [constructor|].
  cbn [char_value_log].
  destruct (_ <? _); [constructor|].
  destruct (_ !! _) as [value|]; [constructor|].
  destruct (correct_partition rho) as [|rho0 tail] eqn:Hrho; [constructor|].
  destruct (get_border_strips _ _ _) as [strips| |] eqn:Hstrips;
    [|constructor..].
  assert (1 <= rho0) as Hrho0.
  { pose proof (correct_partition_positive rho) as Hp.
    rewrite Hrho in Hp. apply Forall_inv in Hp. lia. }
  assert (Forall (call_decreases (Sum (correct_partition lam)))
            (sum_strips_log (char_value_log lfuel fuel)
               (correct_partition lam) (rho0 :: tail) tail strips 0
               (touch_row (correct_partition lam) ct)).2) as Hlog.
  { destruct (decide (wrap_int rho0 <= 0)) as [Hle|Hgt].
    { rewrite get_border_strips_nonpos in Hstrips by done.
      injection Hstrips as <-. constructor. }
    pose proof (wrap_int_range rho0).
    pose proof Hlam as (Hpos & Hsort & Hsmall).
    assert (1 <= wrap_int rho0 < 2 ^ 31) as Hm by lia.
    apply (sum_strips_log_calls _ _ (wrap_int rho0) _ rho0 tail);
      try done.
    - intros sub ct' Hsub. apply IH. done.
    - apply (get_border_strips_sound _ _ Hpos Hsort Hsmall Hm _ _ Hstrips). }
  destruct (sum_strips_log _ _ _ _ _ _ _) as [[[res ct1]| |] log]; done.
Qed.

(** C7: for a partition [lam] of a size that fits an [int] and any [rho],
    [char_value] ends once the enumerator has fuel [strip_fuel] and the
    recursion has more fuel than [rho] has parts: it returns a value, or it
    stops at the read of [rho[0]].  Every call of [char_value] made during
    the run, nested ones included, passes on a partition whose sum is the
    sum of the caller's normalised [lambda] minus [rho[0]] (as an [int]),
    and so strictly smaller, with [rho[0] >= 1] after normalisation; the
    calls are those of the log of [char_value_log], which computes what
    [char_value] computes.  The same holds of every pair the enumerator
    returns for [lam] and [rho[0]]. *)
Theorem char_value_terminates lfuel fuel lam rho ct :
  int_partition (correct_partition lam) ->
  (strip_fuel (correct_partition lam) <= lfuel)%nat ->
  (length (correct_partition rho) < fuel)%nat ->
  (char_value lfuel fuel lam rho ct = OutOfBounds \/
   exists v ct', char_value lfuel fuel lam rho ct = Ok (v, ct')) /\
  (char_value_log lfuel fuel lam rho ct).1
  = char_value lfuel fuel lam rho ct /\
  Forall (call_decreases (Sum (correct_partition lam)))
         (char_value_log lfuel fuel lam rho ct).2 /\
  forall rho0 tail lfuel' border_strips,
    correct_partition rho = rho0 :: tail ->
    get_border_strips lfuel' (correct_partition lam) (wrap_int rho0)
    = Ok border_strips ->
    1 <= rho0 /\
    Forall (fun strip =>
              Sum (correct_partition (partition strip))
              = Sum (correct_partition lam) - wrap_int rho0 /\
              Sum (correct_partition (partition strip))
              < Sum (correct_partition lam) /\
              (rho0 < 2 ^ 31 -> wrap_int rho0 = rho0))
           border_strips.
Proof.
  intros Hlam Hlfuel Hfuel. split; [|split; [|split]].
  - pose proof (char_value_ends lfuel fuel lam rho ct Hlam Hlfuel Hfuel).
    destruct (char_value lfuel fuel lam rho ct) as [[v ct']| |]; eauto.
    done.
  - apply char_value_log_fst.
  - apply char_value_log_calls. done.
  - intros rho0 tail lfuel' strips Hrho Hstrips.
    assert (1 <= rho0) as Hrho0.
    { pose proof (correct_partition_positive rho) as Hp.
      rewrite Hrho in Hp. apply Forall_inv in Hp. lia. }
    split; [done|].
    destruct (decide (wrap_int rho0 <= 0)) as [Hle|Hgt].
    { rewrite get_border_strips_nonpos in Hstrips by done.
      injection Hstrips as <-. constructor. }
    pose proof (wrap_int_range rho0).
    pose proof Hlam as (Hpos & Hsort & Hsmall).
    assert (1 <= wrap_int rho0 < 2 ^ 31) as Hm1 by lia.
    pose proof (get_border_strips_sound _ _ Hpos Hsort Hsmall Hm1
                  _ _ Hstrips) as Hgood.
    eapply Forall_impl; [exact Hgood|]. intros p Hp.
    assert (0 <= wrap_int rho0) as Hm by lia.
    destruct (good_pair_sub _ _ _ Hsort Hsmall Hm Hp) as (Hsub & Htot & _).
    rewrite (int_partition_Sum _ Hsub), (int_partition_Sum _ Hlam), Htot.
    split; [done|]. split; [lia|]. intros Hsmall0. apply wrap_int_small. lia.
Qed.

Lemma char_value_terminates_witness :
  (char_value 10 3 [2; 1] [2; 1] new_CharTable = OutOfBounds \/
   exists v ct', char_value 10 3 [2; 1] [2; 1] new_CharTable = Ok (v, ct')) /\
  (char_value_log 10 3 [2; 1] [2; 1] new_CharTable).1
  = char_value 10 3 [2; 1] [2; 1] new_CharTable /\
  Forall (call_decreases (Sum (correct_partition [2; 1])))
         (char_value_log 10 3 [2; 1] [2; 1] new_CharTable).2 /\
  forall rho0 tail lfuel' border_strips,
    correct_partition [2; 1] = rho0 :: tail ->
    get_border_strips lfuel' (correct_partition [2; 1]) (wrap_int rho0)
    = Ok border_strips ->
    1 <= rho0 /\
    Forall (fun strip =>
              Sum (correct_partition (partition strip))
              = Sum (correct_partition [2; 1]) - wrap_int rho0 /\
              Sum (correct_partition (partition strip))
              < Sum (correct_partition [2; 1]) /\
              (rho0 < 2 ^ 31 -> wrap_int rho0 = rho0))
           border_strips.
Proof.
  apply (char_value_terminates 10 3 [2; 1] [2; 1] new_CharTable).
  - split; [repeat constructor|]. split; [|vm_compute; reflexivity].
    intros [|[|i]] Hi; simpl in *; lia.
  - vm_compute. lia.
  - vm_compute. lia.
Defined.

(** The left step on a row that is [2^32] cells longer than the next one
    takes [static_cast<int>(2^32) = 0] cells: the state does not change. *)
Lemma left_step_stuck (fuel : nat) :
  get_border_strips fuel [4294967297; 1] 2 = OutOfFuel.
Proof.
  unfold get_border_strips. cbn [length replicate].
  assert (strip_turn {| lambda := [4294967297; 1]; xi := [0; 0]; row := 0;
                        first_non_zero_row := 0; bs_length := 2;
                        result := [] |}
          = Continue {| lambda := [4294967297; 1]; xi := [0; 0]; row := 0;
                        first_non_zero_row := 0; bs_length := 2;
                        result := [] |}) as Hturn
    by (vm_compute; reflexivity).
  induction fuel as [|fuel IH]; [vm_compute; reflexivity|].
  cbn [strip_loop]. rewrite Hturn.
  cbn [bs_length row lambda length].
  change (0 <? 2) with true. rewrite bool_decide_eq_true_2 by lia.
  exact IH.
Qed.

(** C7, as stated for every pair of partitions, fails: [{4294967297, 1}]
    and [{4294967298}] are partitions of the same number, and the call
    never returns, whatever the fuel: the enumerator stays in its first
    state. *)
Lemma char_value_never_returns :
  positive_parts [4294967297; 1] /\ non_increasing [4294967297; 1] /\
  positive_parts [4294967298] /\ non_increasing [4294967298] /\
  total [4294967297; 1] = total [4294967298] /\
  forall lfuel fuel,
    char_value lfuel fuel [4294967297; 1] [4294967298] new_CharTable
    = OutOfFuel.
Proof.
  split; [repeat constructor|]. split.
  { intros [|[|i]] Hi; simpl in *; lia. }
  split; [repeat constructor|]. split.
  { intros [|i] Hi; simpl in *; lia. }
  split; [reflexivity|].
  intros lfuel [|fuel]; [reflexivity|].
  cbn [char_value].
  change (correct_partition [4294967297; 1]) with [4294967297; 1].
  change (correct_partition [4294967298]) with [4294967298].
  change (Sum [4294967297; 1] <? 2) with false. cbv iota.
  rewrite cache_row_cached, cached_touch.
  change (cached new_CharTable [4294967297; 1] [4294967298]) with (@None Z).
  change (wrap_int 4294967298) with 2.
  rewrite left_step_stuck. reflexivity.
Qed.

(** ** Reading [rho[0]] *)

(** C3, as stated, fails: with the sums [2] and [0] the evaluator reads
    [rho[0]] of an empty [rho]. *)
Lemma char_value_reads_empty_rho :
  char_value 2 2 [2] [] new_CharTable = OutOfBounds.
Proof. vm_compute. reflexivity. Qed.

(** When [rho] is at least as large as [lam] the evaluator never runs out
    of [rho]. *)
Lemma char_value_total lfuel fuel lam rho ct :
  int_partition (correct_partition lam) ->
  Forall (fun part => part < 2 ^ 31) (correct_partition rho) ->
  total (correct_partition lam) <= total (correct_partition rho) ->
  (strip_fuel (correct_partition lam) <= lfuel)%nat ->
  (length (correct_partition rho) < fuel)%nat ->
  exists v ct', char_value lfuel fuel lam rho ct = Ok (v, ct').
Proof.
  revert lam rho ct.
  induction fuel as [|fuel IH]; intros lam rho ct Hlam Hrho Hsums Hlfuel Hfuel;
    [lia|].
  simpl. destruct (Z.ltb_spec (Sum (correct_partition lam)) 2) as [|Hge];
    [eauto|].
  destruct (_ !! _); [eauto|].
  rewrite (int_partition_Sum _ Hlam) in Hge.
  pose proof (correct_partition_positive rho) as Hpos.
  destruct (correct_partition rho) as [|rho0 tail] eqn:Heq.
  { unfold total in Hsums at 2. simpl in Hsums. lia. }
  apply Forall_cons in Hpos as [Hrho0 Htail].
  apply Forall_cons in Hrho as [Hsmall0 Hsmall].
  rewrite total_cons in Hsums. simpl in Hfuel.
  assert (wrap_int rho0 = rho0) as Hcast by (apply wrap_int_small; lia).
  destruct (char_value_strips lfuel _ rho0 Hlam Hlfuel)
    as (strips & -> & _ & Hgood).
  simpl. rewrite Hcast in Hgood.
  match goal with |- context [sum_strips ?r ?t ?s ?a ?c] =>
    destruct (sum_strips_returns r t s) with (acc := a) (ct := c)
      as (res & ct1 & ->) end; [|simpl; eauto].
  destruct Hlam as (Hlpos & Hsort & Hlsmall).
  eapply Forall_impl; [exact Hgood|]. intros p Hp ct2.
  assert (0 <= rho0) as Hm by lia.
  pose proof (good_pair_sub _ _ _ Hsort Hlsmall Hm Hp) as (Hsub & Htot & _).
  pose proof (strip_fuel_sub _ _ _ Hsort Hlsmall Hm Hp).
  apply IH.
  - rewrite correct_partition_idemp. done.
  - rewrite (correct_partition_id tail) by done. done.
  - rewrite correct_partition_idemp, (correct_partition_id tail) by done. lia.
  - rewrite correct_partition_idemp. lia.
  - rewrite (correct_partition_id tail) by done. lia.
Qed.

(** C3, amended: when [lam] is a partition of a size that fits an [int],
    the parts of [rho] fit an [int] and the sum of [rho] is at least the sum
    of [lam] (equal sums included), [char_value] returns an integer, so that
    every read of [rho[0]] finds [rho] non-empty and no read of the
    enumerator is out of bounds.  For a [rho] of smaller sum the read of
    [rho[0]] can be out of bounds. *)
Theorem char_value_returns lfuel fuel lam rho ct :
  int_partition (correct_partition lam) ->
  Forall (fun part => part < 2 ^ 31) (correct_partition rho) ->
  total (correct_partition lam) <= total (correct_partition rho) ->
  (strip_fuel (correct_partition lam) <= lfuel)%nat ->
  (length (correct_partition rho) < fuel)%nat ->
  exists v ct', char_value lfuel fuel lam rho ct = Ok (v, ct').
Proof.
  intros Hlam Hrho Hsums Hlfuel Hfuel.
  apply char_value_total; done.
Qed.

Lemma char_value_returns_witness :
  exists v ct', char_value 10 3 [3; 1] [2; 2] new_CharTable = Ok (v, ct').
Proof.
  apply (char_value_returns 10 3 [3; 1] [2; 2] new_CharTable).
  - split; [repeat constructor|]. split; [|vm_compute; reflexivity].
    intros [|[|i]] Hi; simpl in *; lia.
  - repeat constructor.
  - vm_compute. discriminate.
  - vm_compute. lia.
  - vm_compute. lia.
Defined.

(** ** The enumerator on a single column *)

Lemma list_eq_total (l1 l2 : list Z) :
  length l1 = length l2 ->
  (forall i : nat, (i < length l1)%nat -> l1 !!! i = l2 !!! i) -> l1 = l2.
Proof.
  intros Hlen Hpt. apply list_eq. intros i.
  destruct (decide (i < length l1)%nat) as [Hi|Hi].
  - rewrite !lookup_lookup_total by lia. f_equal. auto.
  - rewrite !lookup_ge_None_2 by lia. done.
Qed.

Section column.
Variable n : nat.
Hypothesis n_small : Z.of_nat n < 2 ^ 31.

(** The column with its first [j] cells in place and the rest removed,
    and the cells removed from it. *)
Local Abbreviation kept j := (replicate j 1 ++ replicate (n - j) 0).
Local Abbreviation removed j := (replicate j 0 ++ replicate (n - j) 1).

Lemma kept_lookup (j : nat) (x y : Z) :
  (j < n)%nat -> (replicate j x ++ replicate (n - j) y) !! j = Some y.
Proof.
  intros Hj. rewrite lookup_app_r by (rewrite length_replicate; lia).
  rewrite length_replicate. apply lookup_replicate_2. lia.
Qed.

Lemma kept_insert (j : nat) (x y : Z) :
  (j < n)%nat ->
  <[j := x]> (replicate j x ++ replicate (n - j) y)
  = replicate (S j) x ++ replicate (n - S j) y.
Proof.
  intros Hj. rewrite insert_app_r_alt by (rewrite length_replicate; lia).
  rewrite length_replicate. replace (j - j)%nat with 0%nat by lia.
  replace (n - j)%nat with (S (n - S j)) by lia.
  rewrite (replicate_S_end j), <- app_assoc. done.
Qed.

Lemma kept_lookup_below (j i : nat) (x y : Z) :
  (j <= i < n)%nat -> (replicate j x ++ replicate (n - j) y) !!! i = y.
Proof.
  intros Hi. apply list_lookup_total_correct.
  rewrite lookup_app_r by (rewrite length_replicate; lia).
  rewrite length_replicate. apply lookup_replicate_2. lia.
Qed.

(** Giving back [d] cells from the top of the column. *)
Lemma refund_column (d j k : nat) :
  (j + d <= n)%nat -> (d <= k)%nat ->
  refund_loop k (kept j) (removed j) j (- Z.of_nat d)
  = Ok (kept (j + d), removed (j + d), (j + d)%nat, 0).
Proof.
  revert j k. induction d as [|d IH]; intros j k Hj Hk.
  - replace (j + 0)%nat with j by lia. destruct k; done.
  - destruct k as [|k]; [lia|]. simpl refund_loop.
    destruct (Z.ltb_spec (- Z.of_nat (S d)) 0) as [_|?]; [|lia].
    rewrite !kept_lookup by lia.
    rewrite (wrap_size_small (0 + 1)) by lia.
    rewrite (wrap_int_small 1) by lia.
    rewrite (wrap_int_small (- Z.of_nat (S d) + 1)) by lia.
    rewrite !kept_insert by lia.
    replace (- Z.of_nat (S d) + 1) with (- Z.of_nat d) by lia.
    rewrite IH by lia. replace (S j + d)%nat with (j + S d)%nat by lia. done.
Qed.

(** From a column of at least two cells the enumerator returns exactly one
    pair: the last [m] cells. *)
Lemma column_strips (m lfuel : nat) :
  (2 <= n)%nat -> (1 <= m <= n)%nat ->
  get_border_strips (S (S lfuel)) (replicate n 1) (Z.of_nat m)
  = Ok [{| partition := kept (n - m); border_strip := removed (n - m) |}].
Proof.
  intros Hn Hm. unfold get_border_strips. rewrite length_replicate.
  (* the first turn is a down step through the whole column *)
  destruct (down_loop_spec n (replicate n 1) 0 0 (Z.of_nat m) (replicate n 0))
    as (row1 & xi1 & Hdl & Hr1 & Hrun & Hmax & Hlen1 & Hpt & Htot);
    rewrite ?length_replicate in *; try lia.
  { intros i Hi. rewrite lookup_total_replicate_2 by lia. lia. }
  assert (row1 = n) as ->.
  { destruct (decide (row1 < n)%nat) as [Hlt|]; [|lia].
    specialize (Hmax Hlt). rewrite !lookup_total_replicate_2 in Hmax by lia.
    done. }
  assert (xi1 = replicate n 1) as ->.
  { apply list_eq_total; rewrite ?length_replicate; [lia|].
    intros i Hi. rewrite Hpt by lia.
    rewrite !lookup_total_replicate_2 by lia.
    rewrite decide_True by lia. done. }
  assert (dec_rows 0 n (replicate n 1) = replicate n 0) as Hdec.
  { destruct (dec_rows_spec 0 n (replicate n 1)) as [Hl Hp];
      rewrite ?length_replicate in *; [lia| |].
    { intros i Hi. rewrite lookup_total_replicate_2 by lia. lia. }
    apply list_eq_total; rewrite ?length_replicate; [lia|].
    intros i Hi. rewrite Hp by lia.
    rewrite !lookup_total_replicate_2 by lia.
    rewrite decide_True by lia. done. }
  pose proof (refund_column (n - m) 0 n ltac:(lia) ltac:(lia)) as Hrefund.
  simpl in Hrefund. rewrite Nat.sub_0_r in Hrefund.
  cbn [strip_loop bs_length row lambda].
  destruct (Z.ltb_spec 0 (Z.of_nat m)) as [_|?]; [|lia].
  rewrite length_replicate, bool_decide_eq_true_2 by lia. cbn [andb].
  unfold strip_turn at 1.
  cbn [bs_length row lambda xi first_non_zero_row result].
  rewrite length_replicate, bool_decide_eq_false_2 by lia.
  rewrite !lookup_total_replicate_2 by lia.
  change (1 <? 1) with false. cbv iota.
  rewrite Hdl, Hdec.
  replace (Z.of_nat m - Z.of_nat (n - 0)) with (- Z.of_nat (n - m)) by lia.
  rewrite Hrefund.
  unfold emit. cbn [bs_length row lambda xi first_non_zero_row result].
  change (0 =? 0) with true. cbv iota.
  rewrite !kept_lookup by lia.
  rewrite (wrap_size_small (0 + 1)) by lia.
  rewrite (wrap_int_small 1) by lia.
  rewrite (wrap_int_small (0 + 1)) by lia.
  (* the second turn finds the last row empty, or no row at all *)
  destruct (decide (Nat.pred n = (n - m)%nat)) as [Hmoved|Hstays].
  - rewrite !bool_decide_eq_true_2 by done.
    cbn [strip_loop bs_length row lambda result].
    rewrite length_insert, length_app, !length_replicate.
    rewrite bool_decide_eq_false_2 by lia.
    rewrite andb_false_r. done.
  - rewrite !bool_decide_eq_false_2 by done.
    cbn [strip_loop bs_length row lambda].
    rewrite length_insert, length_app, !length_replicate.
    rewrite bool_decide_eq_true_2 by lia.
    change (0 <? 0 + 1) with true. cbn [andb].
    unfold strip_turn.
    cbn [bs_length row lambda xi first_non_zero_row result].
    rewrite length_insert, length_app, !length_replicate.
    rewrite bool_decide_eq_true_2 by lia.
    rewrite list_lookup_total_insert_ne by lia.
    rewrite kept_lookup_below by lia.
    rewrite (wrap_int_small 0) by lia.
    change (Z.min (0 + 1) 0) with 0.
    rewrite (wrap_int_small (0 + 1 - 0)) by lia. done.
Qed.

End column.

(** ** The sign character *)

Lemma MinusOnePow_pow (x : Z) : 0 <= x -> MinusOnePow x = (-1) ^ x.
Proof.
  intros Hx. unfold MinusOnePow.
  pose proof (Z.div_mod x 2 ltac:(lia)) as Hdiv.
  pose proof (Z.mod_pos_bound x 2 ltac:(lia)) as Hmod.
  assert ((-1) ^ (2 * (x / 2)) = 1) as Heven.
  { rewrite Z.pow_mul_r by lia. change ((-1) ^ 2) with 1.
    apply Z.pow_1_l. lia. }
  destruct (Z.eqb_spec (x mod 2) 0) as [H0|H1].
  - rewrite Hdiv at 1. rewrite H0, Z.add_0_r. done.
  - rewrite Hdiv at 1. replace (x mod 2) with 1 by lia.
    rewrite Z.pow_add_r by lia. rewrite Heven. done.
Qed.

Lemma sign_of_cons part rho :
  sign_of (part :: rho) = (-1) ^ (part - 1) * sign_of rho.
Proof. reflexivity. Qed.

Lemma sign_of_unit rho :
  positive_parts rho -> sign_of rho = 1 \/ sign_of rho = -1.
Proof.
  induction 1 as [|part rho Hpart _ IH]; [left; done|].
  rewrite sign_of_cons, <- MinusOnePow_pow by lia. unfold MinusOnePow.
  destruct (_ =? _); lia.
Qed.

Lemma correct_partition_column (j k : nat) :
  correct_partition (replicate j 1 ++ replicate k 0) = replicate j 1.
Proof.
  unfold correct_partition. induction j as [|j IH]; simpl.
  - induction k as [|k IH]; [done|]. simpl.
    rewrite filter_cons_False by lia. done.
  - rewrite filter_cons_True by lia. f_equal. done.
Qed.

Lemma correct_partition_removed (j k : nat) :
  correct_partition (replicate j 0 ++ replicate k 1) = replicate k 1.
Proof.
  unfold correct_partition. induction j as [|j IH]; simpl.
  - induction k as [|k IH]; [done|]. simpl.
    rewrite filter_cons_True by lia. f_equal. done.
  - rewrite filter_cons_False by lia. done.
Qed.

Lemma correct_partition_ones (n : nat) :
  correct_partition (replicate n 1) = replicate n 1.
Proof.
  apply correct_partition_id. apply Forall_forall.
  intros x Hx. apply elem_of_replicate_inv in Hx. lia.
Qed.

Lemma total_ones (n : nat) : total (replicate n 1) = Z.of_nat n.
Proof. induction n as [|n IH]; [done|]. simpl replicate. rewrite total_cons. lia. Qed.

Lemma Sum_ones (n : nat) : Z.of_nat n < 2 ^ 31 -> Sum (replicate n 1) = Z.of_nat n.
Proof.
  intros Hn. rewrite Sum_total; rewrite ?total_ones; [done| |lia].
  intros i Hi. rewrite length_replicate in Hi.
  rewrite lookup_total_replicate_2 by done. lia.
Qed.

(** The recursion on a column gives the sign. *)
Lemma chi_column (lfuel : nat) :
  (2 <= lfuel)%nat ->
  forall (fuel : nat) (rho : list Z) (n : nat),
    positive_parts rho -> total rho = Z.of_nat n -> Z.of_nat n < 2 ^ 31 ->
    (length rho < fuel)%nat ->
    chi lfuel fuel (replicate n 1) rho = Ok (sign_of rho).
Proof.
  intros Hlfuel. induction fuel as [|fuel IH]; intros rho n Hpos Htot Hn Hfuel;
    [lia|].
  simpl. rewrite correct_partition_ones, (correct_partition_id rho) by done.
  rewrite Sum_ones by done.
  assert (0 <= total rho) as Hnonneg by lia.
  destruct Hpos as [|rho0 tail Hrho0 Htail].
  { unfold total in Htot. simpl in Htot.
    destruct (Z.ltb_spec (Z.of_nat n) 2); [done|lia]. }
  rewrite total_cons in Htot. rewrite sign_of_cons.
  assert (0 <= total tail) as Htail0.
  { apply total_nonneg. intros i Hi.
    pose proof (positive_parts_lookup tail i Htail Hi). lia. }
  destruct (Z.ltb_spec (Z.of_nat n) 2) as [Hlt|Hge].
  { assert (rho0 = 1) as -> by lia. assert (total tail = 0) as Hz by lia.
    pose proof (length_le_total tail Htail) as Hlen.
    destruct tail as [|x tail']; [done|]. simpl in Hlen. lia. }
  rewrite (wrap_int_small rho0) by lia.
  destruct lfuel as [|[|lfuel']]; [lia|lia|].
  replace rho0 with (Z.of_nat (Z.to_nat rho0)) at 1 by lia.
  rewrite (column_strips n Hn (Z.to_nat rho0) lfuel') by lia.
  simpl. rewrite correct_partition_column, correct_partition_removed.
  rewrite length_replicate.
  rewrite (IH tail (n - Z.to_nat rho0)%nat) by (simpl in Hfuel; (done || lia)).
  simpl.
  replace (n - (n - Z.to_nat rho0))%nat with (Z.to_nat rho0) by lia.
  rewrite wrap_size_small by lia.
  rewrite MinusOnePow_pow by lia.
  replace (Z.of_nat (Z.to_nat rho0) - 1) with (rho0 - 1) by lia.
  destruct (sign_of_unit tail Htail) as [-> | ->];
    destruct (sign_of_unit [rho0]) as [Hs|Hs];
    try (repeat constructor; done);
    rewrite sign_of_cons in Hs; simpl in Hs; rewrite Z.mul_1_r in Hs;
    rewrite Hs; done.
Qed.

(** C6: on an object that has only been used through its member functions,
    for [n < 2^31] and every partition [rho] of [n], [char_value] on the
    column of [n] ones and [rho] returns the product of the
    [(-1)^(rho_i - 1)]. *)
Theorem sign_character (n : nat) (rho : list Z) (ct : CharTable)
    (lfuel fuel : nat) :
  reachable ct ->
  (1 <= n)%nat -> Z.of_nat n < 2 ^ 31 ->
  positive_parts rho -> non_increasing rho -> total rho = Z.of_nat n ->
  (2 <= lfuel)%nat -> (length rho < fuel)%nat ->
  exists ct',
    char_value lfuel fuel (replicate n 1) rho ct = Ok (sign_of rho, ct').
Proof.
  intros Hreach _ Hn Hpos _ Htot Hlfuel Hfuel.
  apply char_value_complete; [apply reachable_sound; done|].
  apply chi_column; done.
Qed.

Lemma sign_character_witness :
  exists ct',
    char_value 2 3 (replicate 3 1) [2; 1] new_CharTable
    = Ok (sign_of [2; 1], ct').
Proof.
  apply (sign_character 3 [2; 1] new_CharTable 2 3).
  - exact reach_new.
  - lia.
  - lia.
  - repeat constructor.
  - intros [|[|i]] Hi; simpl in *; lia.
  - reflexivity.
  - lia.
  - simpl. lia.
Defined.

(** For a column of [2^31] ones and [rho = {2^31}] the strip length
    [static_cast<int>(rho[0])] is [-2^31]: no strip is enumerated and the
    sum is empty. *)
Lemma column_of_int_max (n : nat) :
  Z.of_nat n = 2 ^ 31 ->
  char_value 0 1 (replicate n 1) [2 ^ 31] new_CharTable
  = Ok (0, store_value (replicate n 1) [2 ^ 31] 0
             (touch_row (replicate n 1) new_CharTable)).
Proof.
  intros Hn. cbn [char_value].
  rewrite correct_partition_ones.
  change (correct_partition [2 ^ 31]) with [2 ^ 31].
  rewrite Sum_total; rewrite ?total_ones; [| |lia].
  2:{ intros i Hi. rewrite length_replicate in Hi.
      rewrite lookup_total_replicate_2 by done. lia. }
  destruct (Z.ltb_spec (Z.of_nat n) 2) as [?|_]; [lia|].
  rewrite cache_row_cached, cached_touch.
  assert (cached new_CharTable (replicate n 1) [2 ^ 31] = None) as ->.
  { unfold cached. simpl character_values. rewrite lookup_empty. done. }
  rewrite get_border_strips_nonpos by (vm_compute; discriminate).
  reflexivity.
Qed.

(** C6, as stated for every [n >= 1], fails: for [n = 2^31] and
    [rho = {2^31}], a partition of [n] of sign -1, [char_value] returns 0. *)
Lemma sign_character_overflow :
  (1 <= Z.to_nat (2 ^ 31))%nat /\
  positive_parts [2 ^ 31] /\ non_increasing [2 ^ 31] /\
  total [2 ^ 31] = Z.of_nat (Z.to_nat (2 ^ 31)) /\
  sign_of [2 ^ 31] = -1 /\
  exists ct',
    char_value 0 1 (replicate (Z.to_nat (2 ^ 31)) 1) [2 ^ 31] new_CharTable
    = Ok (0, ct').
Proof.
  split; [lia|]. split; [repeat constructor|]. split.
  { intros [|i] Hi; simpl in Hi; lia. }
  split.
  { rewrite Z2Nat.id by lia. reflexivity. }
  split.
  { rewrite sign_of_cons, <- MinusOnePow_pow by lia. reflexivity. }
  eexists. apply column_of_int_max. lia.
Qed.

(** ** More fuel does not change what the evaluator returns *)

Lemma sum_strips_mono
    (rec rec' : Partition -> Partition -> CharTable -> outcome (Z * CharTable))
    tail :
  (forall sub ct r, rec sub tail ct = Ok r -> rec' sub tail ct = Ok r) ->
  forall border_strips acc ct r,
    sum_strips rec tail border_strips acc ct = Ok r ->
    sum_strips rec' tail border_strips acc ct = Ok r.
Proof.
  intros Hrec. induction border_strips as [|strip rest IH]; intros acc ct r;
    simpl; [done|].
  destruct (rec _ tail ct) as [[value ct1]| |] eqn:Hcall; simpl; [|done|done].
  rewrite (Hrec _ _ _ Hcall). simpl. apply IH.
Qed.

Lemma char_value_mono lfuel fuel lfuel' fuel' lam rho ct r :
  char_value lfuel fuel lam rho ct = Ok r ->
  (lfuel <= lfuel')%nat -> (fuel <= fuel')%nat ->
  char_value lfuel' fuel' lam rho ct = Ok r.
Proof.
  intros H Hl. revert fuel' lam rho ct r H.
  induction fuel as [|fuel IH]; intros fuel' lam rho ct r H Hf; [done|].
  destruct fuel' as [|fuel']; [lia|]. simpl in *.
  destruct (_ <? _); [done|].
  destruct (_ !! _); [done|].
  destruct (correct_partition rho) as [|rho0 tail]; [done|].
  destruct (get_border_strips lfuel _ _) as [strips| |] eqn:Hs; simpl in H;
    [|done|done].
  rewrite (get_border_strips_mono _ _ _ _ _ Hs Hl). simpl.
  destruct (sum_strips (char_value lfuel fuel) _ _ _ _) as [[res ct1]| |]
    eqn:Hsum; simpl in H; [|done|done].
  rewrite (sum_strips_mono (char_value lfuel fuel) (char_value lfuel' fuel')
             tail) with (r := (res, ct1)); [done| |done].
  intros sub ct2 r2 Hr2. apply IH; [done|lia].
Qed.

Lemma table_row_mono lfuel fuel lfuel' fuel' lam rhos ct r :
  table_row lfuel fuel lam rhos ct = Ok r ->
  (lfuel <= lfuel')%nat -> (fuel <= fuel')%nat ->
  table_row lfuel' fuel' lam rhos ct = Ok r.
Proof.
  intros H Hl Hf. revert ct r H.
  induction rhos as [|rho rest IH]; intros ct r; simpl; [done|].
  destruct (char_value lfuel fuel _ _ _) as [[cv ct1]| |] eqn:H1; simpl;
    [|done|done].
  rewrite (char_value_mono _ _ _ _ _ _ _ _ H1 Hl Hf). simpl.
  destruct (table_row lfuel fuel _ _ _) as [[cvs ct2]| |] eqn:H2; simpl;
    [|done|done].
  rewrite (IH _ _ H2). done.
Qed.

Lemma table_rows_mono lfuel fuel lfuel' fuel' lams rhos ct r :
  table_rows lfuel fuel lams rhos ct = Ok r ->
  (lfuel <= lfuel')%nat -> (fuel <= fuel')%nat ->
  table_rows lfuel' fuel' lams rhos ct = Ok r.
Proof.
  intros H Hl Hf. revert ct r H.
  induction lams as [|lam rest IH]; intros ct r; simpl; [done|].
  destruct (table_row lfuel fuel _ _ _) as [[cvs ct1]| |] eqn:H1; simpl;
    [|done|done].
  rewrite (table_row_mono _ _ _ _ _ _ _ _ H1 Hl Hf). simpl.
  destruct (table_rows lfuel fuel _ _ _) as [[rows ct2]| |] eqn:H2; simpl;
    [|done|done].
  rewrite (IH _ _ H2). done.
Qed.

Lemma character_table_mono lfuel fuel lfuel' fuel' n ct r :
  character_table lfuel fuel n ct = Ok r ->
  (lfuel <= lfuel')%nat -> (fuel <= fuel')%nat ->
  character_table lfuel' fuel' n ct = Ok r.
Proof.
  unfold character_table. intros H Hl Hf.
  destruct (calculate_partitions n ct) as [[ps ct1]| |]; simpl in *;
    [|done|done].
  eapply table_rows_mono; done.
Qed.

(** C1: on a fresh object the partitions of 3 are generated in the order
    [3], [2,1], [1,1,1], and [character_table(3)] is the matrix with the rows
    (1, 1, 1), (-1, 0, 2) and (1, -1, 1), with any fuel from 3 on. *)
Theorem character_table_three (lfuel fuel : nat) :
  exists ct ct',
    calculate_partitions 3 new_CharTable = Ok ([[3]; [2; 1]; [1; 1; 1]], ct) /\
    character_table (3 + lfuel) (3 + fuel) 3 new_CharTable
    = Ok ([[1; 1; 1]; [-1; 0; 2]; [1; -1; 1]], ct').
Proof.
  eexists _, _. split; [vm_compute; reflexivity|].
  apply (character_table_mono 3 3); [vm_compute; reflexivity|lia|lia].
Qed.

(** ** The partition table holds partitions *)

Lemma insert_desc_Forall (P : Z -> Prop) x l :
  P x -> Forall P l -> Forall P (insert_desc x l).
Proof.
  intros Hx. induction 1 as [|y l Hy Hl IH]; simpl.
  - repeat constructor. done.
  - destruct (y <? x); repeat constructor; done.
Qed.

Lemma insert_desc_sorted x l :
  non_increasing l -> non_increasing (insert_desc x l).
Proof.
  induction l as [|y l IH]; intros Hl; simpl.
  - intros i Hi. simpl in Hi. lia.
  - pose proof (non_increasing_head y l Hl) as Hhead.
    pose proof (non_increasing_tail y l Hl) as Htail.
    destruct (Z.ltb_spec y x) as [Hlt|Hge].
    + apply non_increasing_cons; [|done]. constructor; [lia|].
      eapply Forall_impl; [exact Hhead|]. simpl. lia.
    + apply non_increasing_cons; [|auto].
      apply insert_desc_Forall; [lia|done].
Qed.

Lemma sort_desc_sorted l : non_increasing (sort_desc l).
Proof.
  induction l as [|x l IH]; simpl.
  - intros i Hi. simpl in Hi. lia.
  - apply insert_desc_sorted. done.
Qed.

Lemma total_insert_desc x l : total (insert_desc x l) = x + total l.
Proof.
  induction l as [|y l IH]; simpl; [done|].
  destruct (y <? x); rewrite !total_cons; [done|]. rewrite IH. lia.
Qed.

Lemma total_sort_desc l : total (sort_desc l) = total l.
Proof.
  induction l as [|x l IH]; simpl; [done|].
  rewrite total_insert_desc, total_cons, IH. done.
Qed.

Lemma partitions_of_num_wf (parts : list (list Partition)) :
  Z.of_nat (length parts) < 2 ^ 64 -> partitions_wf parts ->
  Forall (fun p => positive_parts p /\ non_increasing p /\
                   total p = Z.of_nat (length parts))
         (partitions_of_num parts (length parts)).
Proof.
  intros Hlen Hparts. apply Forall_forall. intros p Hp.
  apply unique_elem, list_elem_of_In, in_flat_map in Hp
    as (index & Hindex & Hp).
  apply in_map_iff in Hp as (q & <- & Hq).
  apply in_seq in Hindex.
  pose proof (Hparts index (parts !!! index)) as Hrow.
  rewrite Forall_forall in Hrow.
  destruct (Hrow ltac:(apply list_lookup_lookup_total_lt; lia) q
              ltac:(apply list_elem_of_In; done)) as (Hpos & _ & Htot).
  rewrite wrap_size_small by lia.
  split; [|split].
  - apply sort_desc_positive, Forall_app. split; [done|].
    repeat constructor. lia.
  - apply sort_desc_sorted.
  - rewrite total_sort_desc, total_app, Htot. unfold total. simpl. lia.
Qed.

Lemma extend_partitions_wf (k : nat) (parts : list (list Partition)) :
  Z.of_nat (length parts + k) <= 2 ^ 64 -> partitions_wf parts ->
  partitions_wf (extend_partitions k parts).
Proof.
  revert parts. induction k as [|k IH]; intros parts Hlen Hparts; [done|].
  simpl. apply IH.
  - rewrite length_app. simpl. lia.
  - intros i ps Hi. apply lookup_app_Some in Hi as [Hi|[Hge Hi]]; [eauto|].
    apply list_lookup_singleton_Some in Hi as [Hz <-].
    replace i with (length parts) by lia.
    apply partitions_of_num_wf; [lia|done].
Qed.

Lemma calculate_partitions_wf n ct ps ct' :
  calculate_partitions n ct = Ok (ps, ct') ->
  partitions_wf (partitions ct) ->
  partitions_wf (partitions ct') /\ partitions ct' !! n = Some ps.
Proof.
  unfold calculate_partitions.
  set (bound := Z.to_nat (wrap_size (Z.of_nat n + 1))).
  destruct (_ !! n) as [ps'|] eqn:Hn; [|done].
  intros [= <- <-] Hparts. simpl. split; [|done].
  destruct (decide (bound - length (partitions ct) = 0)%nat) as [->|Hpos];
    [done|].
  apply extend_partitions_wf; [|done].
  assert (Z.of_nat bound < 2 ^ 64); [|lia].
  unfold bound, wrap_size.
  pose proof (Z.mod_pos_bound (Z.of_nat n + 1) (2 ^ 64) ltac:(lia)). lia.
Qed.

Lemma calculate_partitions_returns n ct :
  Z.of_nat n + 1 < 2 ^ 64 ->
  exists ps ct', calculate_partitions n ct = Ok (ps, ct').
Proof.
  intros Hn. unfold calculate_partitions.
  rewrite wrap_size_small by lia.
  destruct (lookup_lt_is_Some_2
              (extend_partitions
                 (Z.to_nat (Z.of_nat n + 1) - length (partitions ct))
                 (partitions ct)) n) as [ps ->]; [|eauto].
  rewrite extend_partitions_length. lia.
Qed.

Lemma reachable_partitions_wf ct : reachable ct -> partitions_wf (partitions ct).
Proof.
  induction 1 as [|ct lfuel fuel lam rho v ct' _ IH Hcall
                  |ct lfuel fuel n table ct' _ IH Hcall
                  |ct n ps ct' _ IH Hcall].
  - intros [|[|k]] ps Hk; simpl in Hk; [| |done].
    + injection Hk as <-. repeat constructor. intros i Hi. simpl in Hi. lia.
    + injection Hk as <-. repeat constructor. intros i Hi. simpl in Hi. lia.
  - rewrite (char_value_partitions _ _ _ _ _ _ _ Hcall). done.
  - eapply (character_table_keeps (fun c => partitions_wf (partitions c)));
      [| |exact IH|exact Hcall].
    + intros ps c c' Hc Hcalc.
      apply (calculate_partitions_wf _ _ _ _ Hcalc Hc).
    + intros l r c v c' Hc Hcv.
      rewrite (char_value_partitions _ _ _ _ _ _ _ Hcv). done.
  - apply (calculate_partitions_wf _ _ _ _ Hcall IH).
Qed.

(** ** The table builder returns *)

Lemma table_row_returns lfuel fuel lam rhos :
  Forall (fun rho => forall ct, exists v ct',
            char_value lfuel fuel lam rho ct = Ok (v, ct')) rhos ->
  forall ct, exists cvs ct', table_row lfuel fuel lam rhos ct = Ok (cvs, ct').
Proof.
  induction 1 as [|rho rest Hrho _ IH]; intros ct; simpl; [eauto|].
  destruct (Hrho ct) as (v & ct1 & ->). simpl.
  destruct (IH ct1) as (cvs & ct2 & ->). simpl. eauto.
Qed.

Lemma table_rows_returns lfuel fuel lams rhos :
  Forall (fun lam => Forall (fun rho => forall ct, exists v ct',
            char_value lfuel fuel lam rho ct = Ok (v, ct')) rhos) lams ->
  forall ct, exists rows ct',
    table_rows lfuel fuel lams rhos ct = Ok (rows, ct').
Proof.
  induction 1 as [|lam rest Hlam _ IH]; intros ct; simpl; [eauto|].
  destruct (table_row_returns _ _ _ _ Hlam ct) as (cvs & ct1 & ->). simpl.
  destruct (IH ct1) as (rows & ct2 & ->). simpl. eauto.
Qed.

(** X24: on an object used through its member functions,
    [character_table(n)] returns for every [n] below 2^31, with fuel
    [2n + 1] for the enumerator and [n + 1] for the recursion: its rows and
    columns are partitions of [n], so the evaluator is only called with
    equal sums. *)
Lemma character_table_returns (n : nat) ct :
  reachable ct -> Z.of_nat n < 2 ^ 31 ->
  exists table ct',
    character_table (S (n + n)) (S n) n ct = Ok (table, ct').
Proof.
  intros Hreach Hn. unfold character_table.
  destruct (calculate_partitions_returns n ct) as (ps & ct1 & Hcalc); [lia|].
  rewrite Hcalc. simpl.
  destruct (calculate_partitions_wf _ _ _ _ Hcalc
              (reachable_partitions_wf _ Hreach)) as [Hwf Hps].
  specialize (Hwf n ps Hps).
  apply table_rows_returns.
  eapply Forall_impl; [exact Hwf|]. intros lam (Hlpos & Hlsort & Hltot).
  eapply Forall_impl; [exact Hwf|]. intros rho (Hrpos & Hrsort & Hrtot) ct2.
  pose proof (length_le_total lam Hlpos).
  pose proof (length_le_total rho Hrpos).
  apply char_value_total;
    rewrite ?(correct_partition_id lam), ?(correct_partition_id rho) by done.
  - split; [done|]. split; [done|lia].
  - apply Forall_lookup. intros i x Hx.
    pose proof (lookup_lt_Some _ _ _ Hx) as Hi.
    rewrite <- (list_lookup_total_correct _ _ _ Hx).
    assert (rho !!! i <= total rho); [|lia].
    apply total_lookup_le; [|done]. intros j Hj.
    pose proof (positive_parts_lookup rho j Hrpos Hj). lia.
  - lia.
  - unfold strip_fuel. lia.
  - lia.
Qed.

(** ** Remarks on the enumerator *)

(** X6: a strip longer than the diagram does not exist: for a partition of
    size below 2^31 and a strip length above that size, the enumerator ends
    and returns no pair. *)
Lemma get_border_strips_too_long (lam : list Z) (m : Z) :
  int_partition lam -> total lam < m < 2 ^ 31 ->
  get_border_strips (strip_fuel lam) lam m = Ok [].
Proof.
  intros (Hpos & Hsort & Hsmall) Hm.
  assert (0 <= total lam) as Hnonneg.
  { apply total_nonneg. intros i Hi.
    pose proof (positive_parts_lookup lam i Hpos Hi). lia. }
  assert (1 <= m < 2 ^ 31) as Hm1 by lia.
  destruct (get_border_strips_good lam m Hpos Hsort Hsmall Hm1 (strip_fuel lam))
    as (res & -> & Hgood); [lia|].
  destruct res as [|p res]; [done|]. exfalso.
  apply Forall_inv in Hgood.
  destruct (good_pair_sub lam m p Hsort Hsmall ltac:(lia) Hgood)
    as ((Hsub & _ & _) & Htot & _).
  assert (0 <= total (correct_partition (partition p))); [|lia].
  apply total_nonneg. intros i Hi.
  pose proof (positive_parts_lookup _ i Hsub Hi). lia.
Qed.

(** The pairs that are returned are border strips, but not every border
    strip is returned: after a pair whose strip spans several rows, the
    pointer to the first row of the strip is left on a row that has been
    given back, and a later pair found by a left step ends the sweep.  The
    diagram [3,3,1,1] has three border strips of two cells; the one in the
    last two rows is not returned. *)
Lemma get_border_strips_misses_a_strip :
  get_border_strips 5 [3; 3; 1; 1] 2
  = Ok [{| partition := [2; 2; 1; 1]; border_strip := [1; 1; 0; 0] |};
        {| partition := [3; 1; 1; 1]; border_strip := [0; 2; 0; 0] |}] /\
  border_strip_of [3; 3; 1; 1] 2
    {| partition := [3; 3; 0; 0]; border_strip := [0; 0; 1; 1] |}.
Proof.
  split; [vm_compute; reflexivity|].
  apply (good_border_strip_of [3; 3; 1; 1] 2).
  { intros [|[|[|[|i]]]] Hi; simpl in *; lia. }
  split; [done|]. split; [done|]. split.
  { intros [|[|[|[|i]]]] Hi; simpl in *; lia. }
  split; [done|]. exists 2%nat, 3%nat. simpl.
  split; [lia|]. split; [|split; [|split]].
  - intros [|[|[|[|i]]]] Hi; simpl; lia.
  - intros [|[|[|[|i]]]] Hi Hlen; simpl; lia.
  - intros [|[|[|[|i]]]] Hi; simpl; lia.
  - lia.
Qed.

(** ** The partition generator: the claim *)

(** For [n <= 3] the generated partitions are all partitions of [n], once
    each; the neighbours that [std::unique] merges are then the only
    duplicates. *)
Lemma calculate_partitions_small :
  Forall (fun n : nat =>
            exists ps ct', calculate_partitions n new_CharTable = Ok (ps, ct') /\
                           length ps = partition_number n /\ NoDup ps)
         [0; 1; 2; 3]%nat.
Proof.
  constructor; [|constructor; [|constructor; [|constructor; [|constructor]]]];
    eexists _, _;
    (split; [vm_compute; reflexivity|]); (split; [reflexivity|]);
    refine (bool_decide_unpack _ _); vm_compute; exact I.
Qed.

(** C2 on the code: [partition_number] is the sequence 1, 1, 2, 3, 5, 7, ...,
    but for [n = 4] the generator returns seven partitions, [3,1] and
    [2,1,1] twice each: [std::unique] only merges equal neighbours and the
    candidates are not sorted.  (For [n = 5] it returns fourteen.) *)
Theorem calculate_partitions_four :
  map partition_number [0; 1; 2; 3; 4; 5]%nat = [1; 1; 2; 3; 5; 7]%nat /\
  (exists ct',
     calculate_partitions 4 new_CharTable
     = Ok ([[4]; [3; 1]; [2; 2]; [2; 1; 1]; [3; 1]; [2; 1; 1]; [1; 1; 1; 1]],
           ct')) /\
  ~ NoDup [[4]; [3; 1]; [2; 2]; [2; 1; 1]; [3; 1]; [2; 1; 1]; [1; 1; 1; 1]] /\
  (exists ps ct',
     calculate_partitions 5 new_CharTable = Ok (ps, ct') /\
     length ps = 14%nat).
Proof.
  split; [reflexivity|]. split; [eexists; vm_compute; reflexivity|]. split.
  - intros H.
    apply (NoDup_lookup _ 1%nat 4%nat [3; 1]) in H; [lia|done|done].
  - eexists _, _. split; [vm_compute; reflexivity|]. reflexivity.
Qed.

(** * Further properties of the code *)

(** ** [Sum], [MinusOnePow] and [correct_partition] *)

Lemma Sum_from_wrap (acc : Z) (l : list Z) :
  foldl (fun result item => wrap_size (result + item)) (wrap_size acc) l
  = wrap_size (acc + total l).
Proof.
  revert acc. induction l as [|x l IH]; intros acc; simpl.
  - unfold total. simpl. rewrite Z.add_0_r. done.
  - rewrite total_cons.
    replace (wrap_size (wrap_size acc + x)) with (wrap_size (acc + x)).
    + rewrite IH. f_equal. lia.
    + unfold wrap_size. rewrite Zplus_mod_idemp_l. done.
Qed.

(** X1: [Sum] at [size_t] is the exact sum of the entries reduced modulo
    2^64, for every vector. *)
Theorem Sum_is_total_mod (l : list Z) : Sum l = wrap_size (total l).
Proof.
  unfold Sum. change 0 with (wrap_size 0) at 1.
  rewrite Sum_from_wrap. done.
Qed.

(** X2: [correct_partition] returns positive entries only, is idempotent,
    keeps a non-increasing order, and on a vector of [size_t] values (none
    negative) changes neither the exact sum nor [Sum]. *)
Theorem correct_partition_normalises (l : list Z) :
  positive_parts (correct_partition l) /\
  correct_partition (correct_partition l) = correct_partition l /\
  (non_increasing l -> non_increasing (correct_partition l)) /\
  (Forall (fun x => 0 <= x) l ->
   total (correct_partition l) = total l /\ Sum (correct_partition l) = Sum l).
Proof.
  split; [apply correct_partition_positive|].
  split; [apply correct_partition_idemp|].
  split; [apply non_increasing_filter|].
  intros Hl. pose proof (total_correct_partition l Hl) as Ht.
  split; [done|].
  assert (forall k, Sum k = wrap_size (total k)) as HSum.
  { intros k. unfold Sum. change 0 with (wrap_size 0) at 1.
    apply Sum_from_wrap. }
  rewrite !HSum, Ht. done.
Qed.

(** X3: the sign that [char_value] gives to a strip with [k >= 1] non-zero
    rows is [(-1)^(k - 1)]; for a strip with no non-zero row the unsigned
    [k - 1] wraps to 2^64 - 1 and the sign is [-1]. *)
Theorem strip_sign (k : nat) :
  Z.of_nat k < 2 ^ 64 ->
  MinusOnePow (wrap_size (Z.of_nat k - 1))
  = if decide (k = 0%nat) then -1 else (-1) ^ (Z.of_nat k - 1).
Proof.
  intros Hk. case_decide as Hz.
  - subst k. reflexivity.
  - rewrite wrap_size_small by lia. apply MinusOnePow_pow. lia.
Qed.

Lemma strip_sign_witness :
  MinusOnePow (wrap_size (Z.of_nat 3 - 1))
  = if decide (3%nat = 0%nat) then -1 else (-1) ^ (Z.of_nat 3 - 1).
Proof. apply (strip_sign 3). vm_compute. reflexivity. Defined.


(** ** The enumerator on any input *)

Lemma down_loop_length (k : nat) lam prev row bs xi :
  length (down_loop k lam prev row bs xi).2 = length xi.
Proof.
  revert row bs xi. induction k as [|k IH]; intros row bs xi; simpl; [done|].
  destruct (_ && _); [|done]. rewrite IH, length_insert. done.
Qed.

Lemma dec_rows_length (prev row : nat) lam :
  length (dec_rows prev row lam) = length lam.
Proof.
  unfold dec_rows. generalize (seq prev (row - prev)). intros idx.
  revert lam. induction idx as [|i idx IH]; intros lam; simpl; [done|].
  rewrite IH, length_insert. done.
Qed.

Lemma refund_loop_length (k : nat) lam xi fnz bs lam2 xi2 fnz2 bs2 :
  refund_loop k lam xi fnz bs = Ok (lam2, xi2, fnz2, bs2) ->
  length lam2 = length lam /\ length xi2 = length xi.
Proof.
  revert lam xi fnz bs. induction k as [|k IH]; intros lam xi fnz bs; simpl.
  - destruct (bs <? 0); [done|]. intros [= <- <- <- <-]. done.
  - destruct (bs <? 0); [|intros [= <- <- <- <-]; done].
    destruct (lam !! fnz); [|done]. destruct (xi !! fnz); [|done].
    intros H. apply IH in H. rewrite !length_insert in H. done.
Qed.

Section sizes.
Variable n : nat.

Local Abbreviation sized_pairs res :=
  (Forall (fun p => length (partition p) = n /\ length (border_strip p) = n)
          res).
Local Abbreviation sized st :=
  (length (lambda st) = n /\ length (xi st) = n /\ sized_pairs (result st)).

Lemma emit_sized st :
  sized st ->
  match emit st with
  | Continue st' => sized st'
  | Return res => sized_pairs res
  | Crash => True
  end.
Proof.
  intros (Hl & Hx & Hres). unfold emit.
  destruct (_ =? _); [|done].
  destruct (lambda st !! _); [|done]. destruct (xi st !! _); [|done].
  simpl. rewrite !length_insert. split; [done|]. split; [done|].
  apply Forall_app. split; [done|]. repeat constructor; done.
Qed.

Lemma strip_turn_sized st :
  sized st ->
  match strip_turn st with
  | Continue st' => sized st'
  | Return res => sized_pairs res
  | Crash => True
  end.
Proof.
  intros (Hl & Hx & Hres). unfold strip_turn.
  case_bool_decide.
  { destruct (0 <? _); [done|]. apply emit_sized. simpl.
    rewrite !length_insert. done. }
  destruct (_ <? _).
  { apply emit_sized. simpl. rewrite !length_insert. done. }
  destruct (down_loop _ _ _ _ _ _) as [[row1 bs1] xi1] eqn:Hdl.
  pose proof (down_loop_length (length (lambda st)) (lambda st) (row st)
                (row st) (bs_length st) (xi st)) as Hxi1.
  rewrite Hdl in Hxi1. simpl in Hxi1.
  destruct (refund_loop _ _ _ _ _) as [[[[lam2 xi2] fnz2] bs2]| |] eqn:Hrf;
    [|done|done].
  apply refund_loop_length in Hrf as [Hl2 Hx2].
  rewrite dec_rows_length in Hl2.
  apply emit_sized. simpl. split; [lia|]. split; [lia|done].
Qed.

Lemma strip_loop_sized (fuel : nat) st res :
  sized st -> strip_loop fuel st = Ok res -> sized_pairs res.
Proof.
  revert st. induction fuel as [|fuel IH]; intros st Hst; simpl.
  - destruct (_ && _); [done|]. intros [= <-]. apply Hst.
  - destruct (_ && _); [|intros [= <-]; apply Hst].
    pose proof (strip_turn_sized st Hst) as Hturn.
    destruct (strip_turn st) as [st'|res'|]; [|intros [= <-]; done|done].
    apply IH. done.
Qed.

End sizes.

(** X4: whatever the input vector, the strip length and the fuel, every pair
    that [get_border_strips] returns holds two vectors of the size of
    [lambda]: the sweep only writes in place. *)
Theorem get_border_strips_sizes (fuel : nat) (lam : list Z) (m : Z) res :
  get_border_strips fuel lam m = Ok res ->
  Forall (fun p => length (partition p) = length lam /\
                   length (border_strip p) = length lam) res.
Proof.
  intros Hres. eapply strip_loop_sized; [|exact Hres].
  simpl. rewrite length_replicate. split; [done|]. split; [done|constructor].
Qed.

Lemma get_border_strips_sizes_witness :
  Forall (fun p => length (partition p) = length [2; 5; 2] /\
                   length (border_strip p) = length [2; 5; 2])
         [{| partition := [18446744073709551615; 5; 2];
             border_strip := [3; 0; 0] |};
          {| partition := [2; 2; 2]; border_strip := [0; 3; 0] |}].
Proof.
  apply (get_border_strips_sizes 10 [2; 5; 2] 3). vm_compute. reflexivity.
Defined.

(** X5: for a strip length that is not positive, or for an empty [lambda],
    the loop of [get_border_strips] is not entered and no pair is returned,
    with any fuel. *)
Theorem get_border_strips_nothing (fuel : nat) (lam : list Z) (m : Z) :
  m <= 0 \/ lam = [] -> get_border_strips fuel lam m = Ok [].
Proof.
  intros [Hm | ->]; [apply get_border_strips_nonpos; done|].
  unfold get_border_strips. destruct fuel; simpl; rewrite andb_false_r; done.
Qed.

Lemma get_border_strips_nothing_witness :
  get_border_strips 0 [] 4 = Ok [].
Proof. apply (get_border_strips_nothing 0 [] 4). right. reflexivity. Defined.

Lemma get_border_strips_too_long_witness :
  get_border_strips (strip_fuel [2; 1]) [2; 1] 5 = Ok [].
Proof.
  apply (get_border_strips_too_long [2; 1] 5).
  - split; [repeat constructor|]. split; [|vm_compute; reflexivity].
    intros [|[|i]] Hi; simpl in *; lia.
  - vm_compute. split; reflexivity.
Defined.

Lemma character_table_returns_witness :
  exists table ct',
    character_table (S (3 + 3)) (S 3) 3 new_CharTable = Ok (table, ct').
Proof.
  apply (character_table_returns 3 new_CharTable).
  - exact reach_new.
  - vm_compute. reflexivity.
Defined.

(** ** The partition generator *)

Lemma insert_desc_head x l :
  Forall (fun y => y <= x) l -> insert_desc x l = x :: l.
Proof.
  induction 1 as [|y l Hy Hl IH]; [done|]. simpl.
  destruct (Z.ltb_spec y x) as [Hlt|Hge]; [done|].
  rewrite IH. f_equal; [lia|]. f_equal. lia.
Qed.

(** Sorting a vector that is in non-increasing order leaves it as it is. *)
Lemma sort_desc_id l : non_increasing l -> sort_desc l = l.
Proof.
  induction l as [|x l IH]; intros Hl; [done|]. simpl.
  rewrite IH by (eapply non_increasing_tail; done).
  apply insert_desc_head. eapply non_increasing_head; done.
Qed.

(** [std::unique] drops repetitions only. *)
Lemma unique_keeps (x : list Z) l : x ∈ l -> x ∈ unique l.
Proof.
  induction l as [|y l IH]; [done|]. simpl.
  destruct l as [|z l]; [done|].
  case_decide as Heq.
  - intros [->|Hx]%elem_of_cons; [apply IH; rewrite Heq; left|auto].
  - intros [->|Hx]%elem_of_cons; [left|right; auto].
Qed.

Lemma non_increasing_init (l : list Z) x :
  non_increasing (l ++ [x]) -> non_increasing l.
Proof.
  intros H i Hi. pose proof (H i) as Hs. rewrite length_app in Hs.
  rewrite !lookup_total_app_l in Hs by lia. apply Hs. simpl. lia.
Qed.

(** Every partition of [num] is among the candidates for [num]: it is its
    own part without the last one, extended by the last one. *)
Lemma partitions_of_num_full (parts : list (list Partition)) :
  Z.of_nat (length parts) < 2 ^ 64 -> (1 <= length parts)%nat ->
  partitions_full parts ->
  forall mu, positive_parts mu -> non_increasing mu ->
    total mu = Z.of_nat (length parts) ->
    mu ∈ partitions_of_num parts (length parts).
Proof.
  intros Hlen Hone Hfull mu Hpos Hsort Htot.
  destruct mu as [|x mu _] using rev_ind.
  { unfold total in Htot. simpl in Htot. lia. }
  apply Forall_app in Hpos as [Hpos Hx].
  rewrite Forall_singleton in Hx.
  rewrite total_app in Htot. change (total [x]) with (x + 0) in Htot.
  pose proof (length_le_total mu Hpos) as Hmu.
  assert (exists index : nat, Z.of_nat index = total mu) as [index Hindex'].
  { exists (Z.to_nat (total mu)). lia. }
  assert (index < length parts)%nat as Hindex by lia.
  apply unique_keeps, list_elem_of_In, in_flat_map.
  exists index. split; [apply in_seq; lia|].
  apply in_map_iff. exists mu. split.
  - replace (wrap_size (Z.of_nat (length parts) - Z.of_nat index)) with x
      by (rewrite wrap_size_small; lia).
    apply sort_desc_id. done.
  - apply list_elem_of_In.
    apply (Hfull index); [apply list_lookup_lookup_total_lt; done|done| |lia].
    eapply non_increasing_init. done.
Qed.

Lemma extend_partitions_full (k : nat) (parts : list (list Partition)) :
  Z.of_nat (length parts + k) <= 2 ^ 64 -> (1 <= length parts)%nat ->
  partitions_full parts -> partitions_full (extend_partitions k parts).
Proof.
  revert parts. induction k as [|k IH]; intros parts Hlen Hone Hparts; [done|].
  simpl. apply IH.
  - rewrite length_app. simpl. lia.
  - rewrite length_app. simpl. lia.
  - intros i ps mu Hi.
    apply lookup_app_Some in Hi as [Hi|[Hge Hi]]; [eauto|].
    apply list_lookup_singleton_Some in Hi as [Hz <-].
    replace i with (length parts) by lia.
    apply partitions_of_num_full; [lia|done|done].
Qed.

Lemma extend_partitions_prefix (k : nat) (parts : list (list Partition)) :
  parts `prefix_of` extend_partitions k parts.
Proof.
  revert parts. induction k as [|k IH]; intros parts; simpl; [done|].
  etrans; [|apply IH]. by apply prefix_app_r.
Qed.

Lemma calculate_partitions_prefix n ct ps ct' :
  calculate_partitions n ct = Ok (ps, ct') ->
  partitions ct `prefix_of` partitions ct'.
Proof.
  unfold calculate_partitions. destruct (_ !! n); [|done].
  intros [= _ <-]. simpl. apply extend_partitions_prefix.
Qed.

Lemma calculate_partitions_full n ct ps ct' :
  calculate_partitions n ct = Ok (ps, ct') ->
  (1 <= length (partitions ct))%nat ->
  partitions_full (partitions ct) ->
  partitions_full (partitions ct') /\ (1 <= length (partitions ct'))%nat.
Proof.
  intros Hcall Hone Hfull. split.
  - revert Hcall. unfold calculate_partitions.
    set (bound := Z.to_nat (wrap_size (Z.of_nat n + 1))).
    destruct (_ !! n) as [ps'|] eqn:Hn; [|done].
    intros [= <- <-]. simpl.
    destruct (decide (bound - length (partitions ct) = 0)%nat) as [->|Hpos];
      [done|].
    apply extend_partitions_full; [|done|done].
    assert (Z.of_nat bound < 2 ^ 64); [|lia].
    unfold bound, wrap_size.
    pose proof (Z.mod_pos_bound (Z.of_nat n + 1) (2 ^ 64) ltac:(lia)). lia.
  - apply calculate_partitions_prefix, prefix_length in Hcall. lia.
Qed.

Lemma reachable_partitions_full ct :
  reachable ct ->
  partitions_full (partitions ct) /\ (1 <= length (partitions ct))%nat.
Proof.
  induction 1 as [|ct lfuel fuel lam rho v ct' _ IH Hcall
                  |ct lfuel fuel n table ct' _ IH Hcall
                  |ct n ps ct' _ IH Hcall].
  - split; [|simpl; lia].
    intros [|[|k]] ps mu Hk Hpos Hsort Htot; simpl in Hk; [| |done];
      injection Hk as <-; pose proof (length_le_total mu Hpos) as Hlen.
    + destruct mu; [left|simpl in Hlen; lia].
    + destruct mu as [|x [|y mu]]; [done| |simpl in Hlen; lia].
      change (total [x]) with (x + 0) in Htot.
      replace x with 1 by lia. left.
  - rewrite (char_value_partitions _ _ _ _ _ _ _ Hcall). done.
  - eapply (character_table_keeps
              (fun c => partitions_full (partitions c) /\
                        (1 <= length (partitions c))%nat));
      [| |exact IH|exact Hcall].
    + intros ps c c' [Hc Hone] Hcalc.
      apply (calculate_partitions_full _ _ _ _ Hcalc Hone Hc).
    + intros l r c v c' Hc Hcv.
      rewrite (char_value_partitions _ _ _ _ _ _ _ Hcv). done.
  - destruct IH as [Hc Hone].
    apply (calculate_partitions_full _ _ _ _ Hcall Hone Hc).
Qed.

(** X10: on an object used through its member functions, the list that
    [calculate_partitions(n)] returns holds the partitions of [n] and
    nothing else: a vector is in it exactly when its parts are positive, in
    non-increasing order, and add up to [n]. *)
Theorem calculate_partitions_exact n ct ps ct' :
  reachable ct -> calculate_partitions n ct = Ok (ps, ct') ->
  forall mu,
    mu ∈ ps <->
    positive_parts mu /\ non_increasing mu /\ total mu = Z.of_nat n.
Proof.
  intros Hreach Hcall mu.
  destruct (calculate_partitions_wf _ _ _ _ Hcall
              (reachable_partitions_wf _ Hreach)) as [Hwf Hps].
  destruct (reachable_partitions_full _ Hreach) as [Hfull Hone].
  destruct (calculate_partitions_full _ _ _ _ Hcall Hone Hfull) as [Hfull' _].
  split.
  - intros Hmu. specialize (Hwf n ps Hps). rewrite Forall_forall in Hwf. auto.
  - intros (Hpos & Hsort & Htot). apply (Hfull' n); done.
Qed.

Lemma calculate_partitions_exact_witness :
  [2; 1] ∈ [[3]; [2; 1]; [1; 1; 1]] <->
  positive_parts [2; 1] /\ non_increasing [2; 1] /\ total [2; 1] = Z.of_nat 3.
Proof.
  apply (calculate_partitions_exact 3 new_CharTable [[3]; [2; 1]; [1; 1; 1]]
           {| character_values := ∅;
              partitions := [[[]]; [[1]]; [[2]; [1; 1]];
                             [[3]; [2; 1]; [1; 1; 1]]] |}).
  - exact reach_new.
  - vm_compute. reflexivity.
Defined.

(** X11: what [calculate_partitions(n)] does to the object: the cache is
    left as it is, the partition table keeps its entries and is extended to
    [max(size, n + 1)] entries, with [n + 1] computed in [size_t]; the
    returned list is entry [n] of the table, and a second call returns the
    same list and changes nothing. *)
Theorem calculate_partitions_effect n ct ps ct' :
  calculate_partitions n ct = Ok (ps, ct') ->
  character_values ct' = character_values ct /\
  partitions ct `prefix_of` partitions ct' /\
  length (partitions ct')
  = Nat.max (length (partitions ct)) (Z.to_nat (wrap_size (Z.of_nat n + 1))) /\
  partitions ct' !! n = Some ps /\
  calculate_partitions n ct' = Ok (ps, ct').
Proof.
  intros Hcall.
  split; [eapply calculate_partitions_cache; done|].
  split; [eapply calculate_partitions_prefix; done|].
  split; [|split]; [| |eapply calculate_partitions_again; done].
  - revert Hcall. unfold calculate_partitions.
    destruct (_ !! n); [|done]. intros [= _ <-]. simpl.
    rewrite extend_partitions_length. lia.
  - revert Hcall. unfold calculate_partitions.
    destruct (_ !! n) eqn:Hn; [|done]. intros [= <- <-]. done.
Qed.

Lemma calculate_partitions_effect_witness :
  exists ps ct',
    calculate_partitions 3 new_CharTable = Ok (ps, ct') /\
    partitions ct' !! 3%nat = Some ps /\
    calculate_partitions 3 ct' = Ok (ps, ct').
Proof.
  destruct (calculate_partitions 3 new_CharTable) as [[ps ct']| |] eqn:H;
    [|vm_compute in H; discriminate..].
  exists ps, ct'. split; [reflexivity|].
  apply (calculate_partitions_effect 3 new_CharTable ps ct' H).
Defined.

(** X12: [n + 1] wraps around for [n = SIZE_MAX]: the loop that extends the
    table does not run, and when the table has no entry [n] already, the
    final [partitions[n]] reads past its end. *)
Theorem calculate_partitions_size_max n ct :
  Z.of_nat n = 2 ^ 64 - 1 -> (length (partitions ct) <= n)%nat ->
  calculate_partitions n ct = OutOfBounds.
Proof.
  intros Hn Hlen. unfold calculate_partitions.
  replace (wrap_size (Z.of_nat n + 1)) with 0
    by (rewrite Hn; reflexivity).
  simpl. rewrite lookup_ge_None_2; [done|lia].
Qed.

Lemma calculate_partitions_size_max_witness :
  calculate_partitions (Z.to_nat (2 ^ 64 - 1)) new_CharTable = OutOfBounds.
Proof.
  apply (calculate_partitions_size_max (Z.to_nat (2 ^ 64 - 1)) new_CharTable).
  - rewrite Z2Nat.id; [reflexivity|]. apply Z.lt_le_pred. reflexivity.
  - change (length (partitions new_CharTable)) with 2%nat.
    apply Nat2Z.inj_le. rewrite Z2Nat.id; [|apply Z.lt_le_pred; reflexivity].
    intros H. discriminate H.
Defined.

(** ** The character evaluator and its cache *)

(** X13: [char_value] sees its arguments only through [correct_partition]:
    zero and negative entries of [lambda] and [rho] change neither the
    value nor the state that is left. *)
Theorem char_value_normalises lfuel fuel lam rho ct :
  char_value lfuel fuel (correct_partition lam) (correct_partition rho) ct
  = char_value lfuel fuel lam rho ct.
Proof. destruct fuel; [done|]. simpl. rewrite !correct_partition_idemp. done. Qed.

(** X14: a call of [char_value] that has returned can be repeated: the
    second call returns the same value at once, whatever was computed in
    between by calls that returned, and a value computed for a [lambda] of
    sum at least 2 is in the cache under the normalised key. *)
Theorem char_value_again lfuel fuel lam rho ct v ct' :
  char_value lfuel fuel lam rho ct = Ok (v, ct') ->
  (2 <= Sum (correct_partition lam) ->
   cached ct' (correct_partition lam) (correct_partition rho) = Some v) /\
  forall ct'', cache_le ct' ct'' ->
    forall lfuel2 fuel2, char_value lfuel2 (S fuel2) lam rho ct'' = Ok (v, ct'').
Proof.
  intros Hcall. apply char_value_settles in Hcall. split.
  - intros Hge. unfold settled in Hcall.
    destruct (Z.ltb_spec (Sum (correct_partition lam)) 2); [lia|done].
  - intros ct'' Hle lfuel2 fuel2. apply char_value_settled.
    eapply settled_le; done.
Qed.

Lemma char_value_again_witness :
  exists v ct',
    char_value 5 3 [2; 1] [2; 1] new_CharTable = Ok (v, ct') /\
    cached ct' [2; 1] [2; 1] = Some v /\
    char_value 0 1 [2; 1] [2; 1] ct' = Ok (v, ct').
Proof.
  destruct (char_value 5 3 [2; 1] [2; 1] new_CharTable) as [[v ct']| |] eqn:H;
    [|vm_compute in H; discriminate..].
  exists v, ct'. split; [reflexivity|].
  destruct (char_value_again 5 3 [2; 1] [2; 1] new_CharTable v ct' H)
    as [Hhit Hnext].
  split.
  - apply Hhit. vm_compute. discriminate.
  - apply (Hnext ct' (fun _ _ _ H => H) 0%nat 0%nat).
Defined.

(** X15: [char_value] never overwrites or removes a cached value and never
    touches the partition table. *)
Theorem char_value_effect lfuel fuel lam rho ct v ct' :
  char_value lfuel fuel lam rho ct = Ok (v, ct') ->
  cache_le ct ct' /\ partitions ct' = partitions ct.
Proof.
  intros Hcall. split.
  - eapply char_value_grows; done.
  - eapply char_value_partitions; done.
Qed.

Lemma char_value_effect_witness :
  exists v ct',
    char_value 5 3 [2; 1] [3] new_CharTable = Ok (v, ct') /\
    cache_le new_CharTable ct' /\ partitions ct' = partitions new_CharTable.
Proof.
  destruct (char_value 5 3 [2; 1] [3] new_CharTable) as [[v ct']| |] eqn:H;
    [|vm_compute in H; discriminate..].
  exists v, ct'. split; [reflexivity|].
  apply (char_value_effect 5 3 [2; 1] [3] new_CharTable v ct' H).
Defined.

(** X16: the value of [char_value] does not depend on the history of the
    object: two calls with the same arguments on two objects, each used
    through its member functions only, return the same value. *)
Theorem char_value_history_free lfuel1 fuel1 lfuel2 fuel2 lam rho
    ct1 ct2 v1 v2 ct1' ct2' :
  reachable ct1 -> reachable ct2 ->
  char_value lfuel1 fuel1 lam rho ct1 = Ok (v1, ct1') ->
  char_value lfuel2 fuel2 lam rho ct2 = Ok (v2, ct2') ->
  v1 = v2.
Proof.
  intros Hr1 Hr2 Hc1 Hc2.
  apply char_value_sound in Hc1 as (_ & lf1 & f1 & Hv1);
    [|apply reachable_sound; done].
  apply char_value_sound in Hc2 as (_ & lf2 & f2 & Hv2);
    [|apply reachable_sound; done].
  eapply chi_det; done.
Qed.

Lemma char_value_history_free_witness :
  exists table ct v1 v2 ct1' ct2',
    character_table 7 4 3 new_CharTable = Ok (table, ct) /\
    char_value 5 3 [2; 1] [1; 1; 1] new_CharTable = Ok (v1, ct1') /\
    char_value 0 1 [2; 1] [1; 1; 1] ct = Ok (v2, ct2') /\
    v1 = v2.
Proof.
  destruct (character_table 7 4 3 new_CharTable) as [[table ct]| |] eqn:H;
    [|vm_compute in H; discriminate..].
  destruct (char_value 5 3 [2; 1] [1; 1; 1] new_CharTable)
    as [[v1 ct1']| |] eqn:H1; [|vm_compute in H1; discriminate..].
  destruct (char_value 0 1 [2; 1] [1; 1; 1] ct)
    as [[v2 ct2']| |] eqn:H2.
  - exists table, ct, v1, v2, ct1', ct2'.
    split; [reflexivity|]. split; [reflexivity|]. split; [exact H2|].
    apply (char_value_history_free 5 3 0 1 [2; 1] [1; 1; 1]
             new_CharTable ct v1 v2 ct1' ct2' reach_new
             (reach_character_table new_CharTable 7 4 3 table ct reach_new H)
             H1 H2).
  - exfalso. vm_compute in H. injection H as _ <-. vm_compute in H2.
    discriminate.
  - exfalso. vm_compute in H. injection H as _ <-. vm_compute in H2.
    discriminate.
Defined.

(** The keys of the cache stay as [cache_keys_ok] says. *)
Lemma touch_row_keys lam ct :
  2 <= Sum lam -> cache_keys_ok ct -> cache_keys_ok (touch_row lam ct).
Proof.
  intros Hge Hct l inner. simpl.
  destruct (decide (l = lam)) as [->|Hne].
  - rewrite lookup_insert_eq. intros [= <-]. split; [done|].
    unfold cache_row. intros r v.
    destruct (character_values ct !! lam) as [inner|] eqn:Hrow; simpl.
    + apply (Hct _ _ Hrow).
    + by rewrite lookup_empty.
  - rewrite lookup_insert_ne by done. apply Hct.
Qed.

Lemma store_value_keys lam rho v ct :
  2 <= Sum lam -> rho <> [] -> cache_keys_ok ct ->
  cache_keys_ok (store_value lam rho v ct).
Proof.
  intros Hge Hrho Hct l inner. simpl.
  destruct (decide (l = lam)) as [->|Hne].
  - rewrite lookup_insert_eq. intros [= <-]. split; [done|].
    intros r w. destruct (decide (r = rho)) as [->|Hr]; [done|].
    rewrite lookup_insert_ne by done.
    unfold cache_row.
    destruct (character_values ct !! lam) as [inner|] eqn:Hrow; simpl.
    + apply (Hct _ _ Hrow).
    + by rewrite lookup_empty.
  - rewrite lookup_insert_ne by done. apply Hct.
Qed.

Lemma cache_keys_ok_cached ct lam rho v :
  cache_keys_ok ct -> cached ct lam rho = Some v -> 2 <= Sum lam /\ rho <> [].
Proof.
  intros Hct Hhit. unfold cached in Hhit.
  destruct (character_values ct !! lam) as [inner|] eqn:Hrow; [|done].
  simpl in Hhit. destruct (Hct _ _ Hrow) as [Hge Hne]. eauto.
Qed.

Lemma char_value_keys lfuel fuel lam rho ct v ct' :
  cache_keys_ok ct -> char_value lfuel fuel lam rho ct = Ok (v, ct') ->
  cache_keys_ok ct'.
Proof.
  revert lam rho ct v ct'.
  induction fuel as [|fuel IH]; intros lam rho ct v ct' Hct Hcall; [done|].
  apply char_value_cases in Hcall
    as [(_ & _ & ->)|[(Hge & _ & ->)|(Hge & _ & rho0 & tail & strips & ct1
                                      & Hrho & _ & Hsum & ->)]]; [done| |].
  - apply touch_row_keys; done.
  - apply store_value_keys; [done|rewrite Hrho; done|].
    eapply (sum_strips_keeps cache_keys_ok); [|apply touch_row_keys|exact Hsum];
      [|done|done].
    intros sub ct2 v2 ct2' HP2 Hcall2. eapply IH; done.
Qed.

Lemma reachable_keys ct : reachable ct -> cache_keys_ok ct.
Proof.
  induction 1 as [|ct lfuel fuel lam rho v ct' _ IH Hcall
                  |ct lfuel fuel n table ct' _ IH Hcall
                  |ct n ps ct' _ IH Hcall].
  - intros l inner H. simpl in H. by rewrite lookup_empty in H.
  - eapply char_value_keys; done.
  - eapply (character_table_keeps cache_keys_ok); [| |exact IH|exact Hcall].
    + intros ps c c' Hc Hcalc l inner.
      rewrite (calculate_partitions_cache _ _ _ _ Hcalc). apply Hc.
    + intros. eapply char_value_keys; done.
  - intros l inner. rewrite (calculate_partitions_cache _ _ _ _ Hcall).
    apply IH.
Qed.

(** X17: what the cache of an object used through its member functions
    holds: every key is normalised, a row exists only for a [lambda] of sum
    at least 2, no value is stored under the empty [rho], and every stored
    value is the one the recursion without the cache gives. *)
Theorem cache_contents ct lam rho v :
  reachable ct -> cached ct lam rho = Some v ->
  correct_partition lam = lam /\ correct_partition rho = rho /\
  2 <= Sum lam /\ rho <> [] /\
  exists lfuel fuel, chi lfuel fuel lam rho = Ok v.
Proof.
  intros Hreach Hhit.
  destruct (reachable_sound _ Hreach _ _ _ Hhit) as (Hlam & Hrho & Hchi).
  unfold cached in Hhit.
  destruct (character_values ct !! lam) as [inner|] eqn:Hrow; [|done].
  simpl in Hhit.
  destruct (reachable_keys _ Hreach _ _ Hrow) as [Hge Hne].
  split; [done|]. split; [done|]. split; [done|]. split; [eauto|done].
Qed.

Lemma cache_contents_witness :
  exists v ct,
    char_value 5 3 [2; 1] [3] new_CharTable = Ok (v, ct) /\
    2 <= Sum [2; 1] /\ exists lfuel fuel, chi lfuel fuel [2; 1] [3] = Ok v.
Proof.
  destruct (char_value 5 3 [2; 1] [3] new_CharTable) as [[v ct]| |] eqn:H;
    [|vm_compute in H; discriminate..].
  exists v, ct. split; [reflexivity|].
  assert (cached ct [2; 1] [3] = Some v) as Hhit.
  { vm_compute in H. injection H as <- <-. vm_compute. reflexivity. }
  destruct (cache_contents ct [2; 1] [3] v
              (reach_char_value new_CharTable 5 3 [2; 1] [3] v ct reach_new H)
              Hhit) as (_ & _ & Hge & _ & Hchi).
  split; [exact Hge|exact Hchi].
Defined.

(** X18: on an object used through its member functions, [char_value] with
    a [lambda] of sum at least 2 and a [rho] without a positive entry reads
    [rho[0]] of an empty vector, whatever was computed before: no earlier
    call can have put a value for it into the cache. *)
Theorem char_value_empty_rho lfuel fuel lam rho ct :
  reachable ct -> 2 <= Sum (correct_partition lam) ->
  correct_partition rho = [] ->
  char_value lfuel (S fuel) lam rho ct = OutOfBounds.
Proof.
  intros Hreach Hge Hrho. simpl.
  destruct (Z.ltb_spec (Sum (correct_partition lam)) 2); [lia|].
  rewrite cache_row_cached, cached_touch, Hrho.
  destruct (cached ct (correct_partition lam) []) as [v|] eqn:Hhit; [|done].
  destruct (cache_keys_ok_cached ct _ _ _ (reachable_keys _ Hreach) Hhit).
  done.
Qed.

Lemma char_value_empty_rho_witness :
  exists table ct,
    character_table 7 4 3 new_CharTable = Ok (table, ct) /\
    char_value 7 4 [2; 1] [0; 0] ct = OutOfBounds.
Proof.
  destruct (character_table 7 4 3 new_CharTable) as [[table ct]| |] eqn:H;
    [|vm_compute in H; discriminate..].
  exists table, ct. split; [reflexivity|].
  apply (char_value_empty_rho 7 3 [2; 1] [0; 0] ct).
  - exact (reach_character_table new_CharTable 7 4 3 table ct reach_new H).
  - vm_compute. discriminate.
  - reflexivity.
Defined.

(** ** The trivial character *)

(** A diagram of one row has one border strip of each length up to its
    size: the last cells of the row. *)
Lemma row_strips (lfuel : nat) (n m : Z) :
  1 <= m <= n -> n < 2 ^ 31 ->
  get_border_strips (S lfuel) [n] m
  = Ok [{| partition := [n - m]; border_strip := [m] |}].
Proof.
  intros Hm Hn. unfold get_border_strips.
  cbn [strip_loop bs_length row lambda length replicate].
  destruct (Z.ltb_spec 0 m) as [_|?]; [|lia].
  rewrite bool_decide_eq_true_2 by lia. cbn [andb].
  unfold strip_turn.
  cbn [bs_length row lambda xi first_non_zero_row result length].
  rewrite bool_decide_eq_true_2 by done.
  change ([n] !!! 0%nat) with n. change ([0] !!! 0%nat) with 0.
  rewrite (wrap_int_small n) by lia.
  rewrite Z.min_l by lia. rewrite Z.sub_diag.
  rewrite (wrap_int_small 0) by lia.
  change (0 <? 0) with false. cbv iota.
  unfold emit. cbn [bs_length row lambda xi first_non_zero_row result].
  change (0 =? 0) with true. cbv iota.
  cbn [insert list_insert lookup list_lookup].
  rewrite bool_decide_eq_true_2 by done.
  rewrite (wrap_size_small (n - m)), (wrap_size_small (0 + m)) by lia.
  rewrite !Z.add_0_l.
  rewrite !(wrap_int_small m) by lia.
  replace (n - m + m) with n by lia.
  rewrite (wrap_size_small n) by lia.
  destruct lfuel as [|lfuel];
    cbn [strip_loop bs_length row lambda length result app];
    rewrite bool_decide_eq_false_2 by lia;
    rewrite andb_false_r; done.
Qed.

(** The recursion on a row gives 1. *)
Lemma chi_row (lfuel : nat) :
  forall (fuel : nat) (rho : list Z) (k : Z),
    positive_parts rho -> total rho = k -> k < 2 ^ 31 ->
    (length rho < fuel)%nat ->
    chi (S lfuel) fuel [k] rho = Ok 1.
Proof.
  induction fuel as [|fuel IH]; intros rho k Hpos Htot Hk Hfuel; [lia|].
  cbn [chi]. rewrite (correct_partition_id rho) by done.
  assert (0 <= total rho) as Hnonneg.
  { pose proof (length_le_total rho Hpos). lia. }
  destruct (decide (0 < k)) as [Hk0|Hk0]; cycle 1.
  { unfold correct_partition. rewrite filter_cons_False by done. done. }
  rewrite (correct_partition_id [k]) by (repeat constructor; done).
  replace (Sum [k]) with k
    by (unfold Sum; simpl; rewrite wrap_size_small; lia).
  destruct (Z.ltb_spec k 2) as [Hlt|Hge]; [done|].
  destruct Hpos as [|rho0 tail Hrho0 Htail].
  { unfold total in Htot. simpl in Htot. lia. }
  rewrite total_cons in Htot.
  pose proof (length_le_total tail Htail) as Htail0.
  rewrite (wrap_int_small rho0) by lia.
  rewrite (row_strips lfuel k rho0) by lia.
  cbn [mbind outcome_bind chi_sum partition border_strip].
  rewrite <- (correct_partition_id tail) at 1 by done.
  rewrite chi_normalize.
  rewrite (IH tail (k - rho0)) by (simpl in Hfuel; (done || lia)).
  cbn [mbind outcome_bind chi_sum].
  rewrite (correct_partition_id [rho0]) by (repeat constructor; done).
  reflexivity.
Qed.

(** X19: the trivial character.  On an object used through its member
    functions, for a one-row [lambda = {n}] with [n < 2^31] and positive
    parts [rho] that add up to [n], [char_value] returns 1; fuel 1 is
    enough for the enumerator. *)
Theorem trivial_character (n : Z) (rho : list Z) (ct : CharTable)
    (lfuel fuel : nat) :
  reachable ct -> n < 2 ^ 31 ->
  positive_parts rho -> total rho = n ->
  (1 <= lfuel)%nat -> (length rho < fuel)%nat ->
  exists ct', char_value lfuel fuel [n] rho ct = Ok (1, ct').
Proof.
  intros Hreach Hn Hpos Htot Hlfuel Hfuel.
  apply char_value_complete; [apply reachable_sound; done|].
  destruct lfuel as [|lfuel]; [lia|]. apply chi_row; done.
Qed.

Lemma trivial_character_witness :
  exists ct', char_value 1 3 [3] [2; 1] new_CharTable = Ok (1, ct').
Proof.
  apply (trivial_character 3 [2; 1] new_CharTable 1 3).
  - exact reach_new.
  - reflexivity.
  - repeat constructor.
  - reflexivity.
  - lia.
  - simpl. lia.
Defined.

(** ** The table builder *)

Lemma table_row_sound lfuel fuel lam rhos ct cvs ct' :
  cache_sound ct -> table_row lfuel fuel lam rhos ct = Ok (cvs, ct') ->
  cache_sound ct' /\
  Forall2 (fun rho v => exists lfuel' fuel', chi lfuel' fuel' lam rho = Ok v)
          rhos cvs.
Proof.
  revert ct cvs ct'. induction rhos as [|rho rest IH]; intros ct cvs ct' Hct;
    simpl.
  - intros [= <- <-]. split; [done|constructor].
  - destruct (char_value _ _ _ _ _) as [[cv ct1]| |] eqn:H1; simpl;
      [|done|done].
    destruct (table_row _ _ _ _ _) as [[cvs1 ct2]| |] eqn:H2; simpl;
      [|done|done].
    intros [= <- <-].
    destruct (char_value_sound _ _ _ _ _ _ _ Hct H1) as [Hct1 Hcv].
    destruct (IH _ _ _ Hct1 H2) as [Hct2 Hcvs].
    split; [done|]. constructor; done.
Qed.

Lemma table_rows_sound lfuel fuel lams rhos ct rows ct' :
  cache_sound ct -> table_rows lfuel fuel lams rhos ct = Ok (rows, ct') ->
  cache_sound ct' /\
  Forall2 (fun lam cvs =>
             Forall2 (fun rho v =>
                        exists lfuel' fuel', chi lfuel' fuel' lam rho = Ok v)
                     rhos cvs) lams rows.
Proof.
  revert ct rows ct'. induction lams as [|lam rest IH]; intros ct rows ct' Hct;
    simpl.
  - intros [= <- <-]. split; [done|constructor].
  - destruct (table_row _ _ _ _ _) as [[r ct1]| |] eqn:H1; simpl;
      [|done|done].
    destruct (table_rows _ _ _ _ _) as [[rs ct2]| |] eqn:H2; simpl;
      [|done|done].
    intros [= <- <-].
    destruct (table_row_sound _ _ _ _ _ _ _ Hct H1) as [Hct1 Hr].
    destruct (IH _ _ _ Hct1 H2) as [Hct2 Hrs].
    split; [done|]. constructor; done.
Qed.

Lemma character_table_sound lfuel fuel n ct table ct' :
  reachable ct -> character_table lfuel fuel n ct = Ok (table, ct') ->
  exists ps ct1,
    calculate_partitions n ct = Ok (ps, ct1) /\
    Forall2 (fun lam cvs =>
               Forall2 (fun rho v =>
                          exists lfuel' fuel', chi lfuel' fuel' lam rho = Ok v)
                       ps cvs) ps table.
Proof.
  intros Hreach. unfold character_table.
  destruct (calculate_partitions n ct) as [[ps ct1]| |] eqn:Hcalc; simpl;
    [|done|done].
  intros Hrows. exists ps, ct1. split; [done|].
  eapply table_rows_sound; [|exact Hrows].
  eapply calculate_partitions_sound; [|exact Hcalc].
  apply reachable_sound. done.
Qed.

Lemma Forall2_map_eq {A B : Type} (g : A -> B) (l : list A) (k : list B) :
  Forall2 (fun a b => b = g a) l k -> k = map g l.
Proof. induction 1 as [|a b l k -> _ IH]; [done|]. simpl. by rewrite IH. Qed.

(** X20: the matrix that [character_table(n)] returns is square, with one
    row and one column for each entry of the list that
    [calculate_partitions(n)] returns, repeated partitions included. *)
Theorem character_table_square lfuel fuel n ct table ct' :
  character_table lfuel fuel n ct = Ok (table, ct') ->
  exists ps ct1,
    calculate_partitions n ct = Ok (ps, ct1) /\
    length table = length ps /\
    Forall (fun cvs => length cvs = length ps) table.
Proof.
  unfold character_table.
  destruct (calculate_partitions n ct) as [[ps ct1]| |] eqn:Hcalc; simpl;
    [|done|done].
  intros Hrows. exists ps, ct1. split; [done|].
  apply table_rows_settles in Hrows as [_ Hrows].
  split; [symmetry; eapply Forall2_length; done|].
  apply Forall_lookup. intros i cvs Hi.
  destruct (Forall2_lookup_r _ _ _ _ _ Hrows Hi) as (lam & _ & Hrow).
  symmetry. eapply Forall2_length. done.
Qed.

Lemma character_table_square_witness :
  exists table ct' ps ct1,
    character_table 9 5 4 new_CharTable = Ok (table, ct') /\
    calculate_partitions 4 new_CharTable = Ok (ps, ct1) /\
    length table = 7%nat /\ length ps = 7%nat.
Proof.
  destruct (character_table 9 5 4 new_CharTable) as [[table ct']| |] eqn:H;
    [|vm_compute in H; discriminate..].
  destruct (character_table_square 9 5 4 new_CharTable table ct' H)
    as (ps & ct1 & Hcalc & Hlen & _).
  exists table, ct', ps, ct1. split; [reflexivity|]. split; [exact Hcalc|].
  assert (length ps = 7%nat) as Hps.
  { vm_compute in Hcalc. injection Hcalc as <- _. reflexivity. }
  split; [congruence|exact Hps].
Defined.

(** X21: on an object used through its member functions, the entry of the
    returned matrix in the row of [lambda] and the column of [rho] is the
    value of the Murnaghan-Nakayama recursion for [lambda] and [rho],
    computed with no cache: values found in the cache and values computed
    afresh agree with it. *)
Theorem character_table_entries lfuel fuel n ct table ct' :
  reachable ct -> character_table lfuel fuel n ct = Ok (table, ct') ->
  exists ps ct1,
    calculate_partitions n ct = Ok (ps, ct1) /\
    forall (i j : nat) lam rho,
      ps !! i = Some lam -> ps !! j = Some rho ->
      exists cvs v lfuel' fuel',
        table !! i = Some cvs /\ cvs !! j = Some v /\
        chi lfuel' fuel' lam rho = Ok v.
Proof.
  intros Hreach Hcall.
  destruct (character_table_sound _ _ _ _ _ _ Hreach Hcall)
    as (ps & ct1 & Hcalc & Hrows).
  exists ps, ct1. split; [done|]. intros i j lam rho Hi Hj.
  destruct (Forall2_lookup_l _ _ _ _ _ Hrows Hi) as (cvs & Hcvs & Hrow).
  destruct (Forall2_lookup_l _ _ _ _ _ Hrow Hj) as (v & Hv & lf & f & Hchi).
  exists cvs, v, lf, f. done.
Qed.

Lemma character_table_entries_witness :
  exists table ct' cvs v lfuel fuel,
    character_table 7 4 3 new_CharTable = Ok (table, ct') /\
    table !! 1%nat = Some cvs /\ cvs !! 2%nat = Some v /\
    chi lfuel fuel [2; 1] [1; 1; 1] = Ok v.
Proof.
  destruct (character_table 7 4 3 new_CharTable) as [[table ct']| |] eqn:H;
    [|vm_compute in H; discriminate..].
  destruct (character_table_entries 7 4 3 new_CharTable table ct' reach_new H)
    as (ps & ct1 & Hcalc & Hentries).
  assert (ps = [[3]; [2; 1]; [1; 1; 1]]) as ->.
  { vm_compute in Hcalc. injection Hcalc as <- _. reflexivity. }
  destruct (Hentries 1%nat 2%nat [2; 1] [1; 1; 1] eq_refl eq_refl)
    as (cvs & v & lf & f & Hcvs & Hv & Hchi).
  exists table, ct', cvs, v, lf, f.
  split; [reflexivity|]. split; [exact Hcvs|]. split; [exact Hv|exact Hchi].
Defined.

(** A row of the matrix whose values are known. *)
Lemma chi_row_known (lam : Partition) (g : Partition -> Z)
    (P : Partition -> Prop) (ps : list Partition) (cvs : list Z) :
  Forall P ps ->
  (forall rho, P rho -> exists lfuel fuel, chi lfuel fuel lam rho = Ok (g rho)) ->
  Forall2 (fun rho v => exists lfuel' fuel', chi lfuel' fuel' lam rho = Ok v)
          ps cvs ->
  cvs = map g ps.
Proof.
  intros Hps Hg Hrow. apply Forall2_map_eq.
  induction Hrow as [|rho v rest cvs (lf & f & Hchi) _ IH]; [constructor|].
  apply Forall_cons in Hps as [Hrho Hps]. constructor; [|auto].
  destruct (Hg rho Hrho) as (lf' & f' & Hchi').
  eapply chi_det; done.
Qed.

(** X22: the rows of the trivial and of the sign character.  On an object
    used through its member functions and for [n < 2^31], the row of the
    returned matrix that belongs to [{n}] holds 1 in every column, and the
    row that belongs to the column of [n] ones holds the sign of each
    [rho]. *)
Theorem character_table_known_rows lfuel fuel n ct table ct' :
  reachable ct -> Z.of_nat n < 2 ^ 31 ->
  character_table lfuel fuel n ct = Ok (table, ct') ->
  exists ps ct1,
    calculate_partitions n ct = Ok (ps, ct1) /\
    forall (i : nat) cvs, table !! i = Some cvs ->
      (ps !! i = Some [Z.of_nat n] -> cvs = replicate (length ps) 1) /\
      (ps !! i = Some (replicate n 1) -> cvs = map sign_of ps).
Proof.
  intros Hreach Hn Hcall.
  destruct (character_table_sound _ _ _ _ _ _ Hreach Hcall)
    as (ps & ct1 & Hcalc & Hrows).
  exists ps, ct1. split; [done|]. intros i cvs Hcvs.
  destruct (calculate_partitions_wf _ _ _ _ Hcalc
              (reachable_partitions_wf _ Hreach)) as [Hwf Hps].
  specialize (Hwf n ps Hps).
  split; intros Hi.
  - pose proof (Forall2_lookup_lr _ _ _ _ _ _ Hrows Hi Hcvs) as Hrow.
    rewrite (chi_row_known [Z.of_nat n] (fun _ => 1) _ ps cvs Hwf); [|
      |exact Hrow].
    + clear. induction ps as [|p ps IH]; [done|]. simpl. by rewrite IH.
    + intros rho (Hpos & _ & Htot). exists 1%nat, (S (length rho)).
      apply chi_row; [done|done|done|lia].
  - pose proof (Forall2_lookup_lr _ _ _ _ _ _ Hrows Hi Hcvs) as Hrow.
    apply (chi_row_known (replicate n 1) sign_of _ ps cvs Hwf); [|exact Hrow].
    intros rho (Hpos & _ & Htot). exists 2%nat, (S (length rho)).
    apply chi_column; [lia|done|done|done|lia].
Qed.

Lemma character_table_known_rows_witness :
  exists table ct',
    character_table 7 4 3 new_CharTable = Ok (table, ct') /\
    table !! 0%nat = Some [1; 1; 1] /\
    table !! 2%nat = Some (map sign_of [[3]; [2; 1]; [1; 1; 1]]).
Proof.
  destruct (character_table 7 4 3 new_CharTable) as [[table ct']| |] eqn:H;
    [|vm_compute in H; discriminate..].
  destruct (character_table_known_rows 7 4 3 new_CharTable table ct'
              reach_new ltac:(reflexivity) H)
    as (ps & ct1 & Hcalc & Hknown).
  assert (ps = [[3]; [2; 1]; [1; 1; 1]]) as ->.
  { vm_compute in Hcalc. injection Hcalc as <- _. reflexivity. }
  exists table, ct'. split; [reflexivity|].
  assert (exists r0 r1 r2, table = [r0; r1; r2]) as (r0 & r1 & r2 & ->).
  { vm_compute in H. injection H as <- _. eauto. }
  destruct (Hknown 0%nat r0 eq_refl) as [H0 _].
  destruct (Hknown 2%nat r2 eq_refl) as [_ H2].
  rewrite (H0 eq_refl), (H2 eq_refl). split; reflexivity.
Defined.

(** X23: what [character_table(n)] does to the object: no cached value is
    overwritten or removed, and the partition table is left as the call of
    [calculate_partitions(n)] at its start leaves it. *)
Theorem character_table_effect lfuel fuel n ct table ct' :
  character_table lfuel fuel n ct = Ok (table, ct') ->
  cache_le ct ct' /\
  exists ps ct1,
    calculate_partitions n ct = Ok (ps, ct1) /\
    partitions ct' = partitions ct1 /\
    partitions ct `prefix_of` partitions ct' /\
    partitions ct' !! n = Some ps.
Proof.
  unfold character_table.
  destruct (calculate_partitions n ct) as [[ps ct1]| |] eqn:Hcalc; simpl;
    [|done|done].
  intros Hrows.
  assert (partitions ct' = partitions ct1) as Hsame.
  { eapply (table_rows_keeps (fun c => partitions c = partitions ct1));
      [|reflexivity|exact Hrows].
    intros lam rho c v c' Hc Hcv.
    rewrite (char_value_partitions _ _ _ _ _ _ _ Hcv). done. }
  split.
  - apply table_rows_settles in Hrows as [Hle _].
    intros l r v Hv. apply Hle. unfold cached.
    rewrite (calculate_partitions_cache _ _ _ _ Hcalc). done.
  - exists ps, ct1. split; [done|]. split; [done|]. rewrite Hsame. split.
    + eapply calculate_partitions_prefix; done.
    + revert Hcalc. unfold calculate_partitions.
      destruct (_ !! n) eqn:Hn; [|done]. intros [= <- <-]. done.
Qed.

Lemma character_table_effect_witness :
  exists table ct',
    character_table 7 4 3 new_CharTable = Ok (table, ct') /\
    cache_le new_CharTable ct' /\
    partitions new_CharTable `prefix_of` partitions ct'.
Proof.
  destruct (character_table 7 4 3 new_CharTable) as [[table ct']| |] eqn:H;
    [|vm_compute in H; discriminate..].
  destruct (character_table_effect 7 4 3 new_CharTable table ct' H)
    as (Hle & ps & ct1 & _ & _ & Hpre & _).
  exists table, ct'. split; [reflexivity|]. split; [exact Hle|exact Hpre].
Defined.

(** ** Border strips that the enumerator does not find *)

(** The run of the enumerator on the diagram with two rows of [a] cells and
    two rows of one cell, for the strip length 2: a down step through the
    first two rows, a left step in the second, and the budget is used up
    with [first_non_zero_row] still at the first row. *)
Lemma two_rows_two_cells_strips (a : Z) (lfuel : nat) :
  3 <= a < 2 ^ 31 ->
  get_border_strips (S (S lfuel)) [a; a; 1; 1] 2
  = Ok [{| partition := [a - 1; a - 1; 1; 1]; border_strip := [1; 1; 0; 0] |};
        {| partition := [a; a - 2; 1; 1]; border_strip := [0; 2; 0; 0] |}].
Proof.
  intros Ha. unfold get_border_strips.
  cbn [strip_loop bs_length row lambda length replicate].
  change (0 <? 2) with true. rewrite bool_decide_eq_true_2 by lia. cbn [andb].
  unfold strip_turn at 1.
  cbn [bs_length row lambda xi first_non_zero_row result length].
  rewrite bool_decide_eq_false_2 by lia.
  change ([a; a; 1; 1] !!! 1%nat) with a. change ([a; a; 1; 1] !!! 0%nat) with a.
  rewrite Z.ltb_irrefl.
  cbn [down_loop length].
  rewrite bool_decide_eq_true_2 by lia.
  change ([a; a; 1; 1] !!! 0%nat) with a.
  rewrite Z.eqb_refl. cbn [andb].
  rewrite bool_decide_eq_true_2 by lia.
  change ([a; a; 1; 1] !!! 1%nat) with a.
  rewrite Z.eqb_refl. cbn [andb].
  rewrite bool_decide_eq_true_2 by lia.
  change ([a; a; 1; 1] !!! 2%nat) with 1.
  destruct (Z.eqb_spec 1 a) as [?|_]; [lia|]. cbn [andb].
  set (x1 := <[1%nat := _]> _). vm_compute in x1. subst x1.
  set (b1 := wrap_int _). vm_compute in b1. subst b1.
  unfold dec_rows. cbn [seq Nat.sub foldl].
  change ([a; a; 1; 1] !!! 0%nat) with a.
  cbn [insert list_insert].
  change ((wrap_size (a - 1) :: [a; 1; 1]) !!! 1%nat) with a.
  rewrite (wrap_size_small (a - 1)) by lia.
  cbn [refund_loop]. change (0 <? 0) with false. cbv iota.
  unfold emit at 1. cbn [bs_length row lambda xi first_non_zero_row result].
  change (0 =? 0) with true. cbv iota.
  cbn [lookup list_lookup insert list_insert Nat.pred].
  rewrite bool_decide_eq_false_2 by lia.
  replace (a - 1 + 1) with a by lia. rewrite (wrap_size_small a) by lia.
  set (b1 := wrap_int _). vm_compute in b1. subst b1.
  cbn [bs_length row lambda length app].
  change (0 <? 1) with true. rewrite bool_decide_eq_true_2 by lia. cbn [andb].
  unfold strip_turn.
  cbn [bs_length row lambda xi first_non_zero_row result length].
  rewrite bool_decide_eq_false_2 by lia.
  change ([a; a - 1; 1; 1] !!! 2%nat) with 1.
  change ([a; a - 1; 1; 1] !!! 1%nat) with (a - 1).
  change ([0; 1; 0; 0] !!! 1%nat) with 1.
  destruct (Z.ltb_spec 1 (a - 1)) as [_|?]; [|lia].
  rewrite (wrap_size_small (a - 1 - 1)) by lia.
  rewrite (wrap_int_small (a - 1 - 1)) by lia.
  rewrite Z.min_l by lia.
  rewrite (wrap_size_small (a - 1 - 1)) by lia.
  change (wrap_size (1 + 1)) with 2. change (wrap_int (1 - 1)) with 0.
  cbn [insert list_insert].
  unfold emit. cbn [bs_length row lambda xi first_non_zero_row result].
  change (0 =? 0) with true. cbv iota.
  cbn [lookup list_lookup insert list_insert].
  rewrite bool_decide_eq_false_2 by lia.
  rewrite Z.add_0_r, (wrap_size_small a) by lia.
  change (wrap_int (0 + wrap_int 0)) with 0.
  replace (a - 1 - 1) with (a - 2) by lia.
  destruct lfuel; cbn [strip_loop bs_length result app];
    change (0 <? 0) with false; done.
Qed.

(** X9: the pairs that are returned are border strips, but not every
    border strip is returned.  For the diagram with two rows of [a >= 3]
    cells and two rows of one cell, and the strip length 2, the enumerator
    returns two pairs; the two cells of the last two rows are a border
    strip as well (connected, no 2x2 block, a partition is left), and are
    not among them. *)
Theorem get_border_strips_incomplete (a : Z) (lfuel : nat) :
  3 <= a < 2 ^ 31 ->
  exists res,
    get_border_strips (S (S lfuel)) [a; a; 1; 1] 2 = Ok res /\
    length res = 2%nat /\
    ~ In (mkPair [a; a; 0; 0] [0; 0; 1; 1]) res /\
    border_strip_of [a; a; 1; 1] 2
      {| partition := [a; a; 0; 0]; border_strip := [0; 0; 1; 1] |}.
Proof.
  intros Ha. eexists. split; [apply two_rows_two_cells_strips; done|].
  split; [done|]. split.
  - intros [H|[H|[]]].
    + injection H as H. lia.
    + injection H as H. lia.
  - apply (good_border_strip_of [a; a; 1; 1] 2).
    { intros [|[|[|[|i]]]] Hi; simpl in *; lia. }
    split; [done|]. split; [done|]. split.
    { intros [|[|[|[|i]]]] Hi; simpl in *; lia. }
    split; [done|]. exists 2%nat, 3%nat. simpl.
    split; [lia|]. split; [|split; [|split]].
    + intros [|[|[|[|i]]]] Hi; simpl; lia.
    + intros [|[|[|[|i]]]] Hi Hlen; simpl; lia.
    + intros [|[|[|[|i]]]] Hi; simpl; lia.
    + lia.
Qed.

Lemma get_border_strips_incomplete_witness :
  exists res,
    get_border_strips 2 [4; 4; 1; 1] 2 = Ok res /\
    length res = 2%nat /\
    ~ In (mkPair [4; 4; 0; 0] [0; 0; 1; 1]) res /\
    border_strip_of [4; 4; 1; 1] 2
      {| partition := [4; 4; 0; 0]; border_strip := [0; 0; 1; 1] |}.
Proof.
  apply (get_border_strips_incomplete 4 0). split; [lia|reflexivity].
Defined.

(** ** No pair is returned twice *)

Lemma emit_result st st' :
  emit st = Continue st' ->
  (bs_length st <> 0 /\ st' = st) \/
  (bs_length st = 0 /\
   result st' = result st ++ [mkPair (lambda st) (xi st)]).
Proof.
  unfold emit. destruct (Z.eqb_spec (bs_length st) 0) as [Hz|Hnz].
  - destruct (lambda st !! first_non_zero_row st),
      (xi st !! first_non_zero_row st); try done.
    intros [= <-]. right. done.
  - intros [= <-]. left. done.
Qed.

Lemma last_row_unique (strip : list Z) (r r' : nat) :
  last_row strip r -> last_row strip r' -> r = r'.
Proof.
  intros (H1 & H2 & H3) (H1' & H2' & H3').
  destruct (decide (r < r')%nat) as [Hlt|Hge].
  - specialize (H3 r' ltac:(lia)). lia.
  - destruct (decide (r' < r)%nat) as [Hgt|?]; [|lia].
    specialize (H3' r ltac:(lia)). lia.
Qed.

Section no_repeats.
Variables (L : list Z) (m : Z).
Hypothesis HL_pos : positive_parts L.
Hypothesis HL_sorted : non_increasing L.
Hypothesis HL_small : total L < 2 ^ 31.
Hypothesis Hm_range : 1 <= m < 2 ^ 31.

Lemma turn_last_from st :
  strip_inv L m st -> 0 < bs_length st -> S (row st) = length L ->
  turn_from L m st (strip_turn st).
Proof.
  intros Hinv Hbs Hr.
  pose proof Hinv as (Hs & _ & _).
  pose proof (shape_bounds L m HL_pos HL_small st (row st) Hs ltac:(lia))
    as Hrange.
  pose proof (shape_bs_range L m HL_small Hm_range st Hs) as Hbr.
  unfold strip_turn.
  rewrite (shape_len_lambda _ _ _ Hs).
  rewrite bool_decide_eq_true_2 by done.
  rewrite (wrap_int_small (lambda st !!! row st)) by lia.
  set (step := Z.min (bs_length st) (lambda st !!! row st)).
  assert (0 <= step <= bs_length st /\ step <= lambda st !!! row st)
    as Hstep by (unfold step; lia).
  rewrite (wrap_int_small (bs_length st - step)) by lia.
  destruct (Z.ltb_spec 0 (bs_length st - step)) as [Hpos|Hzero].
  { left. done. }
  rewrite (wrap_size_small (lambda st !!! row st - step)) by lia.
  rewrite (wrap_size_small (xi st !!! row st + step)) by lia.
  destruct (take_inv L m st step Hinv) as [Hinv1 Hlt]; [lia|lia|lia|lia|].
  right. eexists. split; [reflexivity|]. split; [exact Hinv1|].
  simpl. split; [lia|]. split; [exact Hlt|done].
Qed.

Lemma turn_left_from st :
  strip_inv L m st -> 0 < bs_length st -> (S (row st) < length L)%nat ->
  lambda st !!! S (row st) < lambda st !!! row st ->
  turn_from L m st (strip_turn st).
Proof.
  intros Hinv Hbs Hr Hgt.
  pose proof Hinv as (Hs & _ & _).
  pose proof (shape_bounds L m HL_pos HL_small st (row st) Hs ltac:(lia))
    as Hrange.
  pose proof (shape_bounds L m HL_pos HL_small st (S (row st)) Hs ltac:(lia))
    as Hrange'.
  pose proof (shape_bs_range L m HL_small Hm_range st Hs) as Hbr.
  pose proof (shape_sum _ _ _ Hs (S (row st)) ltac:(lia)) as Hnext.
  rewrite (shape_outside _ _ _ Hs (S (row st))) in Hnext by lia.
  unfold strip_turn.
  rewrite (shape_len_lambda _ _ _ Hs).
  rewrite bool_decide_eq_false_2 by lia.
  destruct (Z.ltb_spec (lambda st !!! S (row st)) (lambda st !!! row st))
    as [_|?]; [|lia].
  rewrite (wrap_size_small (lambda st !!! row st - lambda st !!! S (row st)))
    by lia.
  rewrite (wrap_int_small (lambda st !!! row st - lambda st !!! S (row st)))
    by lia.
  set (step := Z.min (bs_length st)
                 (lambda st !!! row st - lambda st !!! S (row st))).
  assert (1 <= step <= bs_length st /\
          step <= lambda st !!! row st - lambda st !!! S (row st))
    as Hstep by (unfold step; lia).
  rewrite (wrap_int_small (bs_length st - step)) by lia.
  rewrite (wrap_size_small (lambda st !!! row st - step)) by lia.
  rewrite (wrap_size_small (xi st !!! row st + step)) by lia.
  destruct (take_inv L m st step Hinv) as [Hinv1 Hlt]; [lia|lia|lia|lia|].
  right. eexists. split; [reflexivity|]. split; [exact Hinv1|].
  simpl. split; [lia|]. split; [exact Hlt|done].
Qed.

Lemma turn_down_from st :
  strip_inv L m st -> 0 < bs_length st -> (S (row st) < length L)%nat ->
  ~ lambda st !!! S (row st) < lambda st !!! row st ->
  turn_from L m st (strip_turn st).
Proof.
  intros (Hs & _ & _) Hbs Hr Hle.
  pose proof (shape_bs_range L m HL_small Hm_range st Hs) as Hbr.
  pose proof (shape_bounds L m HL_pos HL_small st) as Hrange.
  pose proof (L_length L HL_pos HL_small) as HLlen.
  destruct Hs as [Hl1 Hl2 Hrows Hsum Hout Hin Htop Hhead Hhx Hbud Hres].
  destruct st as [lam x r f b res]. simpl in *.
  unfold turn_from, strip_turn. simpl.
  rewrite bool_decide_eq_false_2 by lia.
  destruct (Z.ltb_spec (lam !!! S r) (lam !!! r)) as [?|_]; [lia|].
  assert (Hbelow : forall i : nat, (r < i < length L)%nat ->
            x !!! i = 0 /\ lam !!! i = L !!! i).
  { intros i Hi. pose proof (Hsum i ltac:(lia)).
    pose proof (Hout i ltac:(lia) ltac:(lia)). lia. }
  assert (Hv : lam !!! r = L !!! S r).
  { pose proof (Hbelow (S r) ltac:(lia)). pose proof (Hhead Hr). lia. }
  pose proof (L_bounds L HL_pos HL_small (S r) Hr) as HLr.
  destruct (down_loop_spec (length lam) lam r r b x)
    as (row1 & xi1 & Hdl & Hr1 & Hrun & Hmax & Hlen1 & Hpt & Htot).
  { lia. }
  { lia. }
  { lia. }
  { lia. }
  { intros i Hi. pose proof (Hsum i ltac:(lia)).
    pose proof (L_bounds L HL_pos HL_small i ltac:(lia)). lia. }
  rewrite Hdl. clear Hdl.
  assert (S r < row1)%nat as Hrow1.
  { destruct (decide (S r < row1)%nat) as [|Hn]; [done|exfalso].
    assert (row1 = r \/ row1 = S r) as [->| ->] by lia.
    - apply Hmax; [lia|done].
    - apply Hmax; [lia|]. pose proof (Hbelow (S r) ltac:(lia)). lia. }
  destruct (dec_rows_spec r row1 lam) as [Hlen2 Hpt2]; [lia| |].
  { intros i Hi. rewrite (Hrun i Hi). lia. }
  set (lam1 := dec_rows r row1 lam) in *.
  set (st1 := {|
    lambda := lam1; xi := xi1; row := Nat.pred row1;
    first_non_zero_row := f; bs_length := b - Z.of_nat (row1 - r);
    result := res |}).
  assert (Hs1 : strip_shape L m st1).
  { split; simpl.
    - lia.
    - lia.
    - lia.
    - intros i Hi. rewrite Hpt, Hpt2 by lia.
      pose proof (Hsum i Hi). case_decide; [|lia].
      rewrite (Hrun i) in * by lia. lia.
    - intros i Hi Hlen. rewrite Hpt by lia.
      rewrite decide_False by lia. rewrite Z.add_0_r.
      destruct Hi as [Hi|Hi]; [apply Hout; lia|].
      pose proof (Hbelow i ltac:(lia)). lia.
    - intros i Hi. rewrite Hpt2 by lia.
      destruct (decide (i < r)%nat) as [Hir|Hir].
      + rewrite decide_False by lia. rewrite Z.sub_0_r. apply Hin. lia.
      + rewrite decide_True by lia. rewrite (Hrun i) by lia.
        destruct (decide (i = r)) as [->|Hne]; [lia|].
        pose proof (Hbelow (S i) ltac:(lia)) as [_ <-].
        rewrite (Hrun (S i)) by lia. lia.
    - intros Hi. rewrite Hpt, Hpt2 by lia.
      destruct (decide (f = r)) as [->|Hne].
      + right. rewrite decide_True by lia. lia.
      + rewrite !decide_False by lia. rewrite Z.add_0_r, Z.sub_0_r.
        apply Htop. lia.
    - intros Hlen. replace (S (Nat.pred row1)) with row1 by lia.
      rewrite Hpt2 by lia. rewrite decide_True by lia.
      rewrite (Hrun (Nat.pred row1)) by lia.
      pose proof (Hbelow row1 ltac:(lia)) as [_ Hrow1eq].
      pose proof (Hbelow (Nat.pred row1) ltac:(lia)) as [_ Hprev].
      rewrite (Hrun (Nat.pred row1)) in Hprev by lia.
      pose proof (HL_sorted (Nat.pred row1)) as Hs'.
      replace (S (Nat.pred row1)) with row1 in Hs' by lia.
      specialize (Hs' ltac:(lia)).
      specialize (Hmax ltac:(lia)). lia.
    - intros Hi. rewrite Hpt by lia. rewrite decide_True by lia.
      pose proof (Hbelow (Nat.pred row1) ltac:(lia)). lia.
    - lia.
    - done. }
  destruct (refund_inv L m HL_pos HL_small Hm_range (length lam) st1 Hs1)
    as (lam2 & xi2 & fnz2 & bs2 & Hrf & Hinv2 & Hsame).
  { simpl. lia. }
  { simpl. rewrite Hpt by lia. rewrite decide_True by lia.
    pose proof (Hbelow (Nat.pred row1) ltac:(lia)). lia. }
  { simpl. lia. }
  simpl in Hrf, Hinv2, Hsame. rewrite Hrf.
  right. eexists. split; [reflexivity|]. split; [exact Hinv2|].
  simpl. split; [lia|]. split; [|done].
  unfold strip_measure. simpl. rewrite Hsame.
  rewrite !lookup_lookup_total by lia. simpl.
  rewrite Hpt2 by lia. rewrite decide_True by lia.
  rewrite (Hrun (Nat.pred row1)) by lia.
  pose proof (L_suffix_le L HL_pos (S r) (S (Nat.pred row1)) ltac:(lia)). lia.
Qed.

Lemma strip_turn_from st :
  strip_inv L m st -> 0 < bs_length st -> (row st < length L)%nat ->
  turn_from L m st (strip_turn st).
Proof.
  intros Hinv Hbs Hr.
  destruct (decide (S (row st) = length L)) as [Hlast|Hmore].
  - apply turn_last_from; done.
  - destruct (decide (lambda st !!! S (row st) < lambda st !!! row st)).
    + apply turn_left_from; [done|done|lia|done].
    + apply turn_down_from; [done|done|lia|done].
Qed.

(** A pair is pushed with its last row at the cursor. *)
Lemma pushed_last_row st :
  strip_inv L m st -> (row st < length L)%nat -> bs_length st = 0 ->
  last_row (xi st) (row st).
Proof.
  intros (Hs & _ & _) Hr Hz.
  pose proof (shape_rows _ _ _ Hs) as Hrows.
  split; [rewrite (shape_len_xi _ _ _ Hs); done|]. split.
  - destruct (decide (first_non_zero_row st = row st)) as [Heq|Hne].
    + rewrite (shape_one_row L m st Hs Heq Hr). lia.
    + apply (shape_head_xi _ _ _ Hs). lia.
  - intros i Hi. rewrite (shape_len_xi _ _ _ Hs) in Hi.
    apply (shape_outside _ _ _ Hs); lia.
Qed.

Lemma strip_loop_no_repeats (fuel : nat) st res :
  strip_inv L m st -> Forall (pushed_before L st) (result st) ->
  NoDup (result st) ->
  strip_loop fuel st = Ok res -> NoDup res.
Proof.
  revert st. induction fuel as [|fuel IH]; intros st Hinv Hold Hnd; simpl.
  - destruct (_ && _); [done|]. intros [= <-]. done.
  - destruct (Z.ltb_spec 0 (bs_length st)) as [Hbs|Hbs]; simpl;
      [|intros [= <-]; done].
    case_bool_decide as Hr; [|intros [= <-]; done].
    rewrite (shape_len_lambda _ _ _ (proj1 Hinv)) in Hr.
    destruct (strip_turn_from st Hinv Hbs Hr)
      as [->|(st1 & -> & Hinv1 & Hr1 & Hlt & Hres1)];
      [intros [= <-]; done|].
    destruct (emit_inv L m HL_pos HL_sorted HL_small Hm_range st1 Hinv1 Hr1)
      as (st' & Hemit & Hinv' & Hle).
    rewrite Hemit.
    assert (Forall (pushed_before L st') (result st)) as Hold'.
    { eapply Forall_impl; [exact Hold|].
      intros p (r & Hlast & Hm). exists r. split; [done|lia]. }
    destruct (emit_result _ _ Hemit) as [[_ Hsame]|[Hz Hres']].
    + apply IH; [done| |]; rewrite Hsame, Hres1; [|done].
      rewrite Hsame in Hold'. done.
    + pose proof (pushed_last_row st1 Hinv1 Hr1 Hz) as Hlast1.
      apply IH; [done| |]; rewrite Hres', Hres1.
      * apply Forall_app. split; [done|]. constructor; [|constructor].
        exists (row st1). split; [done|].
        unfold pair_measure, strip_measure in *. simpl. lia.
      * apply NoDup_app. split; [done|]. split; [|apply NoDup_singleton].
        intros p Hp Heq. apply list_elem_of_singleton in Heq. subst p.
        rewrite Forall_forall in Hold.
        destruct (Hold _ Hp) as (r & Hlast & Hm). simpl in Hlast.
        rewrite (last_row_unique _ _ _ Hlast Hlast1) in Hm.
        unfold pair_measure, strip_measure in *. simpl in Hm. lia.
Qed.

End no_repeats.

(** A good pair is fixed by the partition it leaves. *)
Lemma good_pair_partition (L : list Z) (m : Z) p q :
  good_pair L m p -> good_pair L m q -> partition p = partition q -> p = q.
Proof.
  intros (Hp1 & Hp2 & Hp3 & _) (Hq1 & Hq2 & Hq3 & _) Heq.
  destruct p as [pp ps], q as [qp qs]. simpl in *. subst qp. f_equal.
  apply list_eq_total; [lia|]. intros i Hi. rewrite Hp2 in Hi.
  pose proof (Hp3 i Hi). pose proof (Hq3 i Hi). lia.
Qed.

(** X7: on a partition whose size fits an [int], the enumerator returns no
    pair twice, and no two of the returned pairs leave the same partition:
    in the sum of [char_value] no border strip is counted twice. *)
Theorem get_border_strips_no_repeats (fuel : nat) (lam : list Z) (m : Z) res :
  int_partition lam -> m < 2 ^ 31 ->
  get_border_strips fuel lam m = Ok res ->
  NoDup res /\ NoDup (map partition res).
Proof.
  intros (Hpos & Hsort & Hsmall) Hm Hcall.
  destruct (decide (m <= 0)) as [Hle|Hgt].
  { rewrite get_border_strips_nonpos in Hcall by done.
    injection Hcall as <-. split; constructor. }
  assert (1 <= m < 2 ^ 31) as Hrange by lia.
  assert (NoDup res) as Hnd.
  { eapply (strip_loop_no_repeats lam m Hpos Hsort Hsmall Hrange fuel);
      [apply strip_inv_init; done| | |exact Hcall]; simpl; constructor. }
  split; [done|].
  pose proof (get_border_strips_sound lam m Hpos Hsort Hsmall Hrange fuel res
                Hcall) as Hgood.
  rewrite Forall_forall in Hgood.
  change (NoDup (partition <$> res)).
  apply NoDup_fmap_2_strong; [|done].
  intros p q Hp Hq. apply (good_pair_partition lam m); auto.
Qed.

Lemma get_border_strips_no_repeats_witness :
  exists res,
    get_border_strips 10 [4; 2; 2] 2 = Ok res /\
    NoDup res /\ NoDup (map partition res).
Proof.
  destruct (get_border_strips 10 [4; 2; 2] 2) as [res| |] eqn:H;
    [|vm_compute in H; discriminate..].
  exists res. split; [reflexivity|].
  apply (get_border_strips_no_repeats 10 [4; 2; 2] 2 res).
  - split; [repeat constructor|]. split; [|vm_compute; reflexivity].
    intros [|[|[|i]]] Hi; simpl in *; lia.
  - reflexivity.
  - exact H.
Defined.

(** ** The first partition of the list *)

Lemma unique_head (l : list Partition) : head (unique l) = head l.
Proof.
  induction l as [|x l IH]; [done|]. simpl.
  destruct l as [|y l]; [done|].
  case_decide as Heq; [|done]. rewrite IH. simpl. by rewrite Heq.
Qed.

Lemma partitions_of_num_head (parts : list (list Partition)) (num : nat) :
  (1 <= num)%nat -> Z.of_nat num < 2 ^ 64 -> parts !! 0%nat = Some [[]] ->
  head (partitions_of_num parts num) = Some [Z.of_nat num].
Proof.
  intros Hnum Hsmall Hzero. unfold partitions_of_num.
  rewrite unique_head. destruct num as [|num]; [lia|].
  cbn [seq flat_map]. rewrite (list_lookup_total_correct _ _ _ Hzero).
  cbn [map app sort_desc foldr insert_desc head].
  rewrite Z.sub_0_r, wrap_size_small by lia. done.
Qed.

Lemma extend_partitions_head (k : nat) (parts : list (list Partition)) :
  Z.of_nat (length parts + k) <= 2 ^ 64 -> (1 <= length parts)%nat ->
  parts !! 0%nat = Some [[]] ->
  (forall (i : nat) ps, (1 <= i)%nat -> parts !! i = Some ps ->
     head ps = Some [Z.of_nat i]) ->
  forall (i : nat) ps, (1 <= i)%nat ->
    extend_partitions k parts !! i = Some ps -> head ps = Some [Z.of_nat i].
Proof.
  revert parts. induction k as [|k IH]; intros parts Hlen Hone Hzero Hparts;
    [done|].
  simpl. apply IH.
  - rewrite length_app. simpl. lia.
  - rewrite length_app. simpl. lia.
  - rewrite lookup_app_l by lia. done.
  - intros i ps Hi Hps.
    apply lookup_app_Some in Hps as [Hps|[Hge Hps]]; [eauto|].
    apply list_lookup_singleton_Some in Hps as [Hz <-].
    replace i with (length parts) by lia.
    apply partitions_of_num_head; [lia|lia|done].
Qed.

Lemma calculate_partitions_heads n ct ps ct' :
  calculate_partitions n ct = Ok (ps, ct') ->
  (1 <= length (partitions ct))%nat ->
  partitions ct !! 0%nat = Some [[]] ->
  (forall (i : nat) ps, (1 <= i)%nat -> partitions ct !! i = Some ps ->
     head ps = Some [Z.of_nat i]) ->
  forall (i : nat) ps, (1 <= i)%nat ->
    partitions ct' !! i = Some ps -> head ps = Some [Z.of_nat i].
Proof.
  unfold calculate_partitions.
  set (bound := Z.to_nat (wrap_size (Z.of_nat n + 1))).
  destruct (_ !! n) as [ps'|] eqn:Hn; [|done].
  intros [= <- <-] Hone Hzero Hparts. simpl.
  destruct (decide (bound - length (partitions ct) = 0)%nat) as [->|Hpos];
    [done|].
  apply extend_partitions_head; [|done|done|done].
  assert (Z.of_nat bound < 2 ^ 64); [|lia].
  unfold bound, wrap_size.
  pose proof (Z.mod_pos_bound (Z.of_nat n + 1) (2 ^ 64) ltac:(lia)). lia.
Qed.

Lemma reachable_heads ct :
  reachable ct ->
  partitions ct !! 0%nat = Some [[]] /\
  forall (i : nat) ps, (1 <= i)%nat -> partitions ct !! i = Some ps ->
    head ps = Some [Z.of_nat i].
Proof.
  induction 1 as [|ct lfuel fuel lam rho v ct' Hreach IH Hcall
                  |ct lfuel fuel n table ct' Hreach IH Hcall
                  |ct n ps ct' Hreach IH Hcall].
  - split; [done|]. intros [|[|i]] ps Hi Hps; [lia| |done].
    injection Hps as <-. done.
  - rewrite (char_value_partitions _ _ _ _ _ _ _ Hcall). done.
  - eapply (character_table_keeps
              (fun c => (1 <= length (partitions c))%nat /\
                 partitions c !! 0%nat = Some [[]] /\
                 forall (i : nat) ps, (1 <= i)%nat ->
                   partitions c !! i = Some ps ->
                   head ps = Some [Z.of_nat i]));
      [| | |exact Hcall].
    + intros ps c c' (Hone & Hzero & Hheads) Hcalc.
      pose proof (calculate_partitions_prefix _ _ _ _ Hcalc) as Hpre.
      split; [apply prefix_length in Hpre; lia|]. split.
      * eapply prefix_lookup_Some; done.
      * eapply calculate_partitions_heads; done.
    + intros l r c v c' Hc Hcv.
      rewrite (char_value_partitions _ _ _ _ _ _ _ Hcv). done.
    + split; [apply (reachable_partitions_full _ Hreach)|done].
  - pose proof (calculate_partitions_prefix _ _ _ _ Hcall) as Hpre.
    destruct IH as [Hzero Hheads]. split.
    + eapply prefix_lookup_Some; done.
    + eapply calculate_partitions_heads; [done| |done|done].
      apply (reachable_partitions_full _ Hreach).
Qed.

(** X8: on an object used through its member functions and for [n >= 1],
    the list that [calculate_partitions(n)] returns starts with the
    one-part partition [{n}]: the first row of the character table is the
    row of the trivial character. *)
Theorem calculate_partitions_first n ct ps ct' :
  reachable ct -> (1 <= n)%nat ->
  calculate_partitions n ct = Ok (ps, ct') ->
  head ps = Some [Z.of_nat n].
Proof.
  intros Hreach Hn Hcall.
  destruct (reachable_heads _ Hreach) as [Hzero Hheads].
  eapply (calculate_partitions_heads _ _ _ _ Hcall); [|done|done|done|].
  - apply (reachable_partitions_full _ Hreach).
  - revert Hcall. unfold calculate_partitions.
    destruct (_ !! n) eqn:Hlook; [|done]. intros [= <- <-]. done.
Qed.

Lemma calculate_partitions_first_witness :
  exists ps ct',
    calculate_partitions 4 new_CharTable = Ok (ps, ct') /\
    head ps = Some [Z.of_nat 4].
Proof.
  destruct (calculate_partitions 4 new_CharTable) as [[ps ct']| |] eqn:H;
    [|vm_compute in H; discriminate..].
  exists ps, ct'. split; [reflexivity|].
  apply (calculate_partitions_first 4 new_CharTable ps ct' reach_new);
    [lia|exact H].
Defined.
